(** * wa-bulk-sender: phone normalisation, contact de-duplication,
      template rendering and the drip-dispatch loop

    A shallow embedding of the JavaScript sources
      - [src/utils/phoneUtils.js]     (module [phoneUtils])
      - [src/utils/templateUtils.js]  (module [templateUtils])
      - [src/utils/contactUtils.js]   (module [contactUtils]; its text
        follows that of templateUtils.js in the same file)
      - [src/utils/whatsappUtils.js]  (module [whatsappUtils])
      - [src/utils/fileParser.js]     (module [fileParser])
      - the page that loads the contacts and builds the messages
        (module [HomePage])
      - [src/components/BulkSender.jsx] (module [BulkSender])
    followed by the properties established about them.

    Conventions.  A JavaScript string is a [string]; its characters are
    read as code units below 256.  A contact is a plain data object with
    string-valued fields, and its own fields are modelled as a
    [gmap string string]; a field that is [undefined] is an absent key.
    Where the code reads a member by a computed name, the members
    inherited from [Object.prototype] are modelled next to the map
    ([templateUtils.inherited], [fileParser.row_object]).

    The calls of [handleStart] are followed in two ways: one call at a
    time, with the Pause and Stop clicks to come listed in the state
    ([BulkSender.step], [BulkSender.run]), and as the browser runs
    them, any number of calls waiting on their timers while Start,
    Pause and Stop are clicked ([BulkSender.feed]). *)

From stdpp Require Import gmap strings list pretty.
From Stdlib Require Import ZArith Lia Ascii String.

Open Scope string_scope.

(** ** JavaScript string helpers *)

Module JsString.

Definition code (c : ascii) : nat := nat_of_ascii c.

(** [\d] *)
Definition is_digit (c : ascii) : bool :=
  (48 <=? code c)%nat && (code c <=? 57)%nat.

(** [\w] is [A-Za-z0-9_] *)
Definition is_word (c : ascii) : bool :=
  is_digit c
  || ((65 <=? code c)%nat && (code c <=? 90)%nat)
  || ((97 <=? code c)%nat && (code c <=? 122)%nat)
  || (code c =? 95)%nat.

(** [\s] restricted to code units below 256: TAB, LF, VT, FF, CR,
    SPACE and NBSP. *)
Definition is_space (c : ascii) : bool :=
  ((9 <=? code c)%nat && (code c <=? 13)%nat)
  || (code c =? 32)%nat || (code c =? 160)%nat.

Definition is_plus (c : ascii) : bool := (code c =? 43)%nat.

(** [s.replace(/[^...]/g, '')]: keep the characters satisfying [p]. *)
Fixpoint keep (p : ascii -> bool) (s : string) : string :=
  match s with
  | EmptyString => EmptyString
  | String c s' => if p c then String c (keep p s') else keep p s'
  end.

(** [s.startsWith(p)] *)
Fixpoint startsWith (s p : string) {struct p} : bool :=
  match p with
  | EmptyString => true
  | String b p' =>
      match s with
      | EmptyString => false
      | String a s' => Ascii.eqb a b && startsWith s' p'
      end
  end.

(** The string after a leading [ch], if [s] starts with [ch]. *)
Definition strip_char (ch : ascii) (s : string) : option string :=
  match s with
  | EmptyString => None
  | String a s' => if Ascii.eqb a ch then Some s' else None
  end.

(** [s.substring(1)] *)
Definition substring1 (s : string) : string :=
  match s with
  | EmptyString => EmptyString
  | String _ s' => s'
  end.

(** [!s] for a string: only the empty string is falsy. *)
Definition falsy (s : string) : bool :=
  match s with
  | EmptyString => true
  | String _ _ => false
  end.

Fixpoint trimStart (s : string) : string :=
  match s with
  | EmptyString => EmptyString
  | String c s' => if is_space c then trimStart s' else s
  end.

(** Drops trailing white space: a character is dropped when it is
    white space and everything after it has been dropped. *)
Fixpoint trimEnd (s : string) : string :=
  match s with
  | EmptyString => EmptyString
  | String c s' =>
      match trimEnd s' with
      | EmptyString => if is_space c then EmptyString else String c EmptyString
      | t => String c t
      end
  end.

(** [s.trim()] *)
Definition trim (s : string) : string := trimEnd (trimStart s).

Fixpoint all (p : ascii -> bool) (s : string) : bool :=
  match s with
  | EmptyString => true
  | String c s' => p c && all p s'
  end.

(** [s.substring(n)] *)
Fixpoint substring_from (n : nat) (s : string) : string :=
  match n, s with
  | O, _ => s
  | S n', String _ s' => substring_from n' s'
  | S _, EmptyString => EmptyString
  end.

(** [s.replace(pat, '')] for a string [pat]: the first occurrence of
    [pat] is taken out. *)
Fixpoint remove_first (pat s : string) : string :=
  if startsWith s pat then substring_from (String.length pat) s
  else
    match s with
    | EmptyString => EmptyString
    | String c s' => String c (remove_first pat s')
    end.

(** [s.split(sep)] for a one-character separator. *)
Fixpoint split_on (sep : ascii) (s : string) : list string :=
  match s with
  | EmptyString => [EmptyString]
  | String c s' =>
      if Ascii.eqb c sep then EmptyString :: split_on sep s'
      else
        match split_on sep s' with
        | [] => [String c EmptyString]
        | piece :: pieces => String c piece :: pieces
        end
  end.

(** [pieces.join(sep)] *)
Fixpoint join (sep : string) (pieces : list string) : string :=
  match pieces with
  | [] => EmptyString
  | [piece] => piece
  | piece :: pieces' => piece ++ sep ++ join sep pieces'
  end.

(** The characters [.] does not match: LF and CR. *)
Definition is_line_terminator (c : ascii) : bool :=
  (code c =? 10)%nat || (code c =? 13)%nat.

(** [s.match(/.{1,3}/g)], [None] standing for [null]: [cur] is the
    match under way. *)
Fixpoint groups_of_three (cur s : string) : list string :=
  match s with
  | EmptyString => if falsy cur then [] else [cur]
  | String c s' =>
      if is_line_terminator c then
        ((if falsy cur then [] else [cur]) ++ groups_of_three EmptyString s')%list
      else
        let cur' := cur ++ String c EmptyString in
        if (String.length cur' =? 3)%nat then cur' :: groups_of_three EmptyString s'
        else groups_of_three cur' s'
  end.

(** [s.toLowerCase()] on code units below 256: A-Z and the accented
    capitals 192-222 (but not the multiplication sign, 215). *)
Definition lower_char (c : ascii) : ascii :=
  if ((65 <=? code c)%nat && (code c <=? 90)%nat)
     || ((192 <=? code c)%nat && (code c <=? 222)%nat && negb (code c =? 215)%nat)
  then ascii_of_nat (code c + 32)
  else c.

Fixpoint toLowerCase (s : string) : string :=
  match s with
  | EmptyString => EmptyString
  | String c s' => String (lower_char c) (toLowerCase s')
  end.

(** [s.replace(/\s+/g, '_')]: [in_run] says that the character before
    was white space, whose run has already been replaced. *)
Fixpoint underscore_spaces (in_run : bool) (s : string) : string :=
  match s with
  | EmptyString => EmptyString
  | String c s' =>
      if is_space c then
        if in_run then underscore_spaces true s'
        else String "_" (underscore_spaces true s')
      else String c (underscore_spaces false s')
  end.

(** [s.includes(p)] *)
Fixpoint includes (s p : string) : bool :=
  startsWith s p
  || match s with
     | EmptyString => false
     | String _ s' => includes s' p
     end.

(** [a || d] for a field value [a] and a string [d]. *)
Definition or_else (a : option string) (d : string) : string :=
  match a with
  | Some v => if falsy v then d else v
  | None => d
  end.

(** A plain object read through [Object.keys] and by key: [obj_keys]
    is what [Object.keys] yields, in its order. *)
Record object := { obj_keys : list string; obj_get : gmap string string }.

(** [Object.values(o)] *)
Definition obj_values (o : object) : list (option string) :=
  map (fun k => obj_get o !! k) (obj_keys o).

End JsString.

(** ** phoneUtils.js *)

Module phoneUtils.
Import JsString.

Definition COUNTRY_CODES : list string :=
  ["+254"; "+256"; "+255"; "+233"; "+234"; "+27"; "+1"; "+44"].

(** [COUNTRY_CODES.some(code => s.startsWith(code))] *)
Definition hasValidCode (s : string) : bool :=
  existsb (fun code => startsWith s code) COUNTRY_CODES.

(** [phone.replace(/[^\d+]/g, '')] *)
Definition clean (phone : string) : string :=
  keep (fun c => is_digit c || is_plus c) phone.

(** [cleaned.replace(/\+/g, '')] *)
Definition digitsOnly (cleaned : string) : string :=
  keep (fun c => negb (is_plus c)) cleaned.

(** The value of [cleaned] when the length check is reached, or
    [None] when the function has already returned [null]. *)
Definition withCountryCode (phone defaultCountryCode : string) : option string :=
  let cleaned := clean phone in
  if startsWith cleaned "+" then
    if hasValidCode cleaned then Some cleaned else None
  else
    let cleaned :=
      if startsWith cleaned "0" then substring1 cleaned else cleaned in
    Some (defaultCountryCode ++ cleaned).

Definition normalizePhone (phone defaultCountryCode : string) : option string :=
  if falsy phone then None
  else
    match withCountryCode phone defaultCountryCode with
    | None => None
    | Some cleaned =>
        let n := String.length (digitsOnly cleaned) in
        if (n <? 7)%nat || (15 <? n)%nat then None else Some cleaned
    end.

(** A call that leaves [defaultCountryCode] to its default. *)
Definition normalizePhone_default (phone : string) : option string :=
  normalizePhone phone "+256".

(** [/^\d+$/.test(s)] *)
Definition all_digits (s : string) : bool :=
  negb (falsy s) && all is_digit s.

Definition validatePhone (phone : string) : bool :=
  if falsy phone then false
  else if negb (hasValidCode phone) then false
  else
    let d := digitsOnly phone in
    if negb (all_digits d) then false
    else (7 <=? String.length d)%nat && (String.length d <=? 15)%nat.

Definition getCountryCodeFromPhone (phone : string) : string :=
  if falsy phone then ""
  else
    match List.find (fun code => startsWith phone code) COUNTRY_CODES with
    | Some code => code
    | None => ""
    end.

Definition formatPhoneForDisplay (phone : string) : string :=
  if falsy phone then ""
  else if negb (validatePhone phone) then phone
  else
    let countryCode := getCountryCodeFromPhone phone in
    let number := remove_first countryCode phone in
    let formatted :=
      match groups_of_three "" number with
      | [] => number
      | groups => if falsy (join " " groups) then number else join " " groups
      end in
    countryCode ++ " " ++ formatted.

(** [text.split('\n').map(line => line.trim()).filter(line => line)] *)
Definition nonblank_lines (text : string) : list string :=
  List.filter (fun line => negb (falsy line)) (map trim (split_on "010" text)).

Definition extractPhonesFromText (text defaultCountryCode : string) : list string :=
  if falsy text then []
  else omap (fun line => normalizePhone line defaultCountryCode) (nonblank_lines text).

End phoneUtils.

(** ** contactUtils.js *)

(** A contact record: a data object whose fields hold strings. *)
Abbreviation contact := (gmap string string).

Module contactUtils.
Import JsString.

(** [contact.phone] *)
Definition contact_phone (c : contact) : option string := c !! "phone".

(** Truthiness of a field value: [undefined] and [''] are falsy. *)
Definition truthy (v : option string) : bool :=
  match v with
  | None => false
  | Some s => negb (falsy s)
  end.

(** The body of the [forEach] callback, acting on the pair
    [(seen, deduplicated)]. *)
Definition dedupe_step (acc : gset string * list contact) (c : contact)
  : gset string * list contact :=
  match contact_phone c with
  | Some phone =>
      if negb (falsy phone) && negb (bool_decide (phone ∈ acc.1))
      then ({[phone]} ∪ acc.1, (acc.2 ++ [c])%list)
      else acc
  | None => acc
  end.

Definition deduplicateContacts (contacts : list contact) : list contact :=
  if (List.length contacts =? 0)%nat then []
  else (fold_left dedupe_step contacts (∅, [])).2.

(** The record built for a pasted phone. *)
Definition phone_only (phone : string) : contact :=
  {[ "phone" := phone; "name" := ""; "first_name" := ""; "last_name" := "";
     "email" := ""; "location" := "" ]}.

(** Lines 101-113: the [forEach] over the pasted phones. *)
Definition merge_phone (acc : list contact) (phone : string) : list contact :=
  match phoneUtils.normalizePhone_default phone with
  | Some normalized =>
      if falsy normalized then acc else (acc ++ [phone_only normalized])%list
  | None => acc
  end.

(** Lines 125-130: one mapped field. *)
Definition map_field (headerMapping row : object) (c : contact) (targetField : string)
  : contact :=
  match obj_get headerMapping !! targetField with
  | Some originalHeader =>
      if falsy originalHeader then c
      else
        match obj_get row !! originalHeader with
        | Some v => <[targetField := v]> c
        | None => c
        end
  | None => c
  end.

(** [key.replace(/\s+/g, '_').toLowerCase()] *)
Definition safeKey (key : string) : string :=
  toLowerCase (underscore_spaces false key).

(** Lines 134-141: one column of the row.  Should [Object.keys] list
    a key the row does not hold, [undefined] is assigned, after which
    the field reads [undefined]. *)
Definition copy_field (headerMapping row : object) (c : contact) (key : string)
  : contact :=
  if bool_decide (Some key ∈ obj_values headerMapping) then c
  else
    match obj_get row !! key with
    | Some v => <[safeKey key := v]> c
    | None => delete (safeKey key) c
    end.

(** Lines 119-155: one row. *)
Definition merge_row (headerMapping : object) (acc : list contact) (row : object)
  : list contact :=
  let c := fold_left (map_field headerMapping row) (obj_keys headerMapping) ∅ in
  let c := fold_left (copy_field headerMapping row) (obj_keys row) c in
  match c !! "phone" with
  | Some phone =>
      if falsy phone then acc
      else
        match phoneUtils.normalizePhone_default phone with
        | Some normalized =>
            if negb (falsy normalized) && phoneUtils.validatePhone normalized
            then (acc ++ [<["phone" := normalized]> c])%list
            else acc
        | None => acc
        end
  | None => acc
  end.

Definition mergeContactData (phones : list string) (csvData : list object)
  (headerMapping : object) : list contact :=
  if (0 <? List.length phones)%nat && (List.length csvData =? 0)%nat
  then fold_left merge_phone phones []
  else if (0 <? List.length csvData)%nat
  then fold_left (merge_row headerMapping) csvData []
  else [].

Definition invalid_phone_error : string := "Invalid or missing phone number".

(** The body of the [forEach] of [validateContacts], on the pair
    [(valid, invalid)]. *)
Definition validate_step (acc : list contact * list contact) (c : contact)
  : list contact * list contact :=
  if truthy (contact_phone c) && phoneUtils.validatePhone (default "" (contact_phone c))
  then ((acc.1 ++ [c])%list, acc.2)
  else (acc.1, (acc.2 ++ [<["error" := invalid_phone_error]> c])%list).

Definition validateContacts (contacts : list contact) : list contact * list contact :=
  if (List.length contacts =? 0)%nat then ([], [])
  else fold_left validate_step contacts ([], []).

(** [name.split(' ')[0]] and [name.split(' ').slice(1).join(' ')] *)
Definition first_word (name : string) : string :=
  default "" (head (split_on " " name)).
Definition other_words (name : string) : string :=
  join " " (tail (split_on " " name)).

(** The callback of the [map] of [formatContactsForSending]. *)
Definition formatContact (c : contact) : contact :=
  let name := c !! "name" in
  let formatted := <["name" := or_else name (or_else (c !! "first_name") "")]> c in
  let formatted :=
    <["first_name" :=
        or_else (c !! "first_name")
                (if truthy name then first_word (default "" name) else "")]> formatted in
  let formatted :=
    <["last_name" :=
        or_else (c !! "last_name")
                (if truthy name then other_words (default "" name) else "")]> formatted in
  let formatted := <["email" := or_else (c !! "email") ""]> formatted in
  let formatted := <["location" := or_else (c !! "location") ""]> formatted in
  if negb (truthy (formatted !! "first_name")) && negb (truthy (formatted !! "name"))
  then <["first_name" := "there"]> formatted
  else formatted.

Definition formatContactsForSending (contacts : list contact) : list contact :=
  if (List.length contacts =? 0)%nat then []
  else map formatContact contacts.

(** *** The saved contact lists *)

Record savedList := {
  sl_name : string;
  sl_contacts : list contact;
  sl_timestamp : string;
  sl_count : nat
}.

(** What [JSON.parse(localStorage.getItem(key) || '[]')] meets: no
    item, text that does not parse, a value that is not an array, or an
    array of saved lists. *)
Inductive item := NoItem | BadJson | NotArray | Lists (ls : list savedList).

(** The value [JSON.parse] yields, or [None] when it throws. *)
Definition parse_item (store : item) : option (option (list savedList)) :=
  match store with
  | NoItem => Some (Some [])
  | BadJson => None
  | NotArray => Some None
  | Lists ls => Some (Some ls)
  end.

(** [timestamp] is [new Date().toISOString()]; the result is the value
    returned and the item afterwards.  [setItem] is taken to succeed. *)
Definition saveContactsToStorage (contacts : list contact) (name timestamp : string)
  (store : item) : bool * item :=
  match parse_item store with
  | Some (Some saved) =>
      (true, Lists (saved ++ [{| sl_name := name; sl_contacts := contacts;
                                 sl_timestamp := timestamp;
                                 sl_count := List.length contacts |}])%list)
  | _ => (false, store)
  end.

(** [None] stands for a parsed value that is not an array, which is
    returned as it is. *)
Definition loadContactsFromStorage (store : item) : option (list savedList) :=
  match parse_item store with
  | Some v => v
  | None => Some []
  end.

(** [saved.splice(index, 1)] for an integer [index]. *)
Definition splice_one {A : Type} (index : Z) (l : list A) : list A :=
  let n := Z.of_nat (List.length l) in
  let start := if (index <? 0)%Z then Z.max (n + index) 0 else Z.min index n in
  (take (Z.to_nat start) l ++ drop (S (Z.to_nat start)) l)%list.

Definition deleteContactList (index : Z) (store : item) : bool * item :=
  match parse_item store with
  | Some (Some saved) => (true, Lists (splice_one index saved))
  | _ => (false, store)
  end.

End contactUtils.

(** ** templateUtils.js *)

Module templateUtils.
Import JsString.

(** The character class [[\w\s]]. *)
Definition key_char (c : ascii) : bool := is_word c || is_space c.

(** Longest prefix of characters satisfying [p], and what follows. *)
Fixpoint span (p : ascii -> bool) (s : string) : string * string :=
  match s with
  | EmptyString => (EmptyString, EmptyString)
  | String c s' =>
      if p c then let '(a, b) := span p s' in (String c a, b)
      else (EmptyString, s)
  end.

(** One attempt of the regular expression [/{{?([\w\s]+)}}?/] at the
    head of [s]: the matched text, capture group 1 and the remainder.

    The expression backtracks, but no alternative can succeed where
    the greedy one fails: a second opening brace that is skipped by
    [{?] cannot start the group (a brace is not in the class), and a
    shorter group is followed by a class character, never by [}]. *)
Definition exec_placeholder (s : string) : option (string * string * string) :=
  match strip_char "{" s with
  | None => None
  | Some s1 =>
      let '(ob, s2) :=
        match strip_char "{" s1 with
        | Some s2 => ("{", s2)
        | None => ("", s1)
        end in
      let '(key, s3) := span key_char s2 in
      if falsy key then None
      else
        match strip_char "}" s3 with
        | None => None
        | Some s4 =>
            let '(cb, s5) :=
              match strip_char "}" s4 with
              | Some s5 => ("}", s5)
              | None => ("", s4)
              end in
            Some ("{" ++ ob ++ key ++ "}" ++ cb, key, s5)
        end
  end.

(** [s.replace(re, f)] with the global flag: scan from the left; at a
    match, emit [f match key] and move past the matched text
    ([skip] counts the matched characters still to pass); elsewhere
    copy the character. *)
Fixpoint replace_from (f : string -> string -> string) (skip : nat) (s : string)
  : string :=
  match s with
  | EmptyString => EmptyString
  | String c s' =>
      match skip with
      | S k => replace_from f k s'
      | O =>
          match exec_placeholder s with
          | Some (m, key, _) =>
              f m key ++ replace_from f (String.length m - 1) s'
          | None => String c (replace_from f 0 s')
          end
      end
  end.

Definition replace_placeholders (f : string -> string -> string) (s : string)
  : string := replace_from f 0 s.

(** The functions every plain object inherits from
    [Object.prototype]; with the accessor [__proto__] they are what
    [contact[key]] finds when the contact has no field of its own
    named [key]. *)
Definition prototype_functions : list string :=
  ["constructor"; "hasOwnProperty"; "isPrototypeOf"; "propertyIsEnumerable";
   "toLocaleString"; "toString"; "valueOf"; "__defineGetter__";
   "__defineSetter__"; "__lookupGetter__"; "__lookupSetter__"].

(** The text of a built-in function, as V8 prints it (the layout is
    the engine's). *)
Definition native_function (name : string) : string :=
  "function " ++ name ++ "() { [native code] }".

(** The string [replace] makes of an inherited member that the
    callback returns: the text of the function ([constructor] is the
    function [Object]), or that of [Object.prototype] itself. *)
Definition inherited (key : string) : option string :=
  if String.eqb key "constructor" then Some (native_function "Object")
  else if bool_decide (key ∈ prototype_functions) then Some (native_function key)
  else if String.eqb key "__proto__" then Some "[object Object]"
  else None.

(** The replacement callback of [renderMessage]: [contact[trimmedKey]]
    is the contact's own field or, failing that, an inherited member,
    and is [undefined] only when there is neither. *)
Definition substitute (c : contact) (m key : string) : string :=
  let trimmedKey := trim key in
  match c !! trimmedKey with
  | Some v => v
  | None =>
      match inherited trimmedKey with
      | Some text => text
      | None => m
      end
  end.

Definition renderMessage (template : string) (c : contact) : string :=
  if falsy template then ""
  else replace_placeholders (substitute c) template.

(** A preview object [{phone, contact, message}]. *)
Record preview := {
  pv_phone : option string;
  pv_contact : contact;
  pv_message : string
}.

Definition generatePreview (template : string) (contacts : list contact)
  (count : nat) : list preview :=
  if falsy template then []
  else
    map (fun c => {| pv_phone := c !! "phone";
                     pv_contact := c;
                     pv_message := renderMessage template c |})
        (take count contacts).

(** [[...template.matchAll(re)]]: the matches from the left, each with
    its text and its capture group; [skip] as in [replace_from]. *)
Fixpoint matches_from (skip : nat) (s : string) : list (string * string) :=
  match s with
  | EmptyString => []
  | String c s' =>
      match skip with
      | S k => matches_from k s'
      | O =>
          match exec_placeholder s with
          | Some (m, key, _) => (m, key) :: matches_from (String.length m - 1) s'
          | None => matches_from 0 s'
          end
      end
  end.

(** [[...new Set(keys)]]: the keys in the order of their first
    occurrence. *)
Fixpoint unique_from (seen : list string) (keys : list string) : list string :=
  match keys with
  | [] => []
  | k :: keys' =>
      if bool_decide (k ∈ seen) then unique_from seen keys'
      else k :: unique_from (k :: seen) keys'
  end.

Definition extractPlaceholders (template : string) : list string :=
  if falsy template then []
  else unique_from [] (map (fun mk => trim mk.2) (matches_from 0 template)).

(** [{ valid, missingFields }] *)
Definition validatePlaceholders (template : string) (availableFields : list string)
  : bool * list string :=
  let placeholders := extractPlaceholders template in
  let missingFields :=
    List.filter (fun p => negb (bool_decide (p ∈ availableFields))) placeholders in
  ((List.length missingFields =? 0)%nat, missingFields).

End templateUtils.

(** ** whatsappUtils.js *)

Module whatsappUtils.

(** A value returned by [Math.random()], as the exact fraction
    [rnd_num / rnd_den]; it lies in the unit interval when
    [0 <= rnd_num < rnd_den]. *)
Record random := { rnd_num : Z; rnd_den : Z }.

Definition in_unit_interval (r : random) : Prop :=
  (0 <= rnd_num r < rnd_den r)%Z.

(** [Math.floor(Math.random() * (max - min + 1)) + min], computed on
    exact fractions. *)
Definition getRandomDelay (r : random) (min max : Z) : Z :=
  (rnd_num r * (max - min + 1) / rnd_den r + min)%Z.

(** The guard of [getCooldownDelay]; [%] is the truncating remainder. *)
Definition cooldownDue (messageCount cooldownInterval : Z) : bool :=
  (0 <? messageCount)%Z && (Z.rem messageCount cooldownInterval =? 0)%Z.

(** [r] is the value [Math.random()] yields if it is called. *)
Definition getCooldownDelay (r : random) (messageCount cooldownInterval : Z) : Z :=
  if cooldownDue messageCount cooldownInterval
  then getRandomDelay r 30000 60000
  else 0%Z.

(** [Math.round(ms / 1000)] for an integer [ms]. *)
Definition roundSeconds (ms : Z) : Z := ((ms + 500) / 1000)%Z.

(** [{ ms, seconds, formatted }] *)
Record estimate := { est_ms : Z; est_seconds : Z; est_formatted : string }.

(** For a count that is a natural number, as [contacts.length] is. *)
Definition estimateSendingTime (contactCount : Z) : estimate :=
  let avgDelayPerMessage := 10000%Z in
  let cooldownCount := (contactCount / 20)%Z in
  let avgCooldown := 45000%Z in
  let totalMs := (contactCount * avgDelayPerMessage + cooldownCount * avgCooldown)%Z in
  let totalSeconds := roundSeconds totalMs in
  let minutes := (totalSeconds / 60)%Z in
  let seconds := (Z.rem totalSeconds 60)%Z in
  {| est_ms := totalMs; est_seconds := totalSeconds;
     est_formatted := pretty minutes ++ "m " ++ pretty seconds ++ "s" |}.

End whatsappUtils.

(** ** The page: [handleContactsLoaded] and [finalMessages] *)

Module HomePage.
Import JsString contactUtils templateUtils.

(** The contacts [handleContactsLoaded] hands to [setContacts]; with no
    valid contact it returns early and the contacts stay as they were. *)
Definition handleContactsLoaded (contacts loadedContacts : list contact)
  : list contact :=
  let deduplicated := deduplicateContacts loadedContacts in
  let valid := (validateContacts deduplicated).1 in
  if (List.length valid =? 0)%nat then contacts
  else formatContactsForSending valid.

(** The memo [finalMessages]. *)
Definition finalMessages (contacts : list contact) (template : string) : list preview :=
  if (List.length contacts =? 0)%nat || falsy template then []
  else generatePreview template contacts (List.length contacts).

End HomePage.

(** ** fileParser.js *)

Module fileParser.
Import JsString.

Definition quote : ascii := "034".
Definition comma : ascii := ",".
Definition newline : ascii := "010".

(** [currentField += char] *)
Definition snoc (s : string) (c : ascii) : string := s ++ String c EmptyString.

(** The loop of [parseCSVLine] from index [i] on, [s] being the line
    from there; an escaped quote moves [i] on by two. *)
Fixpoint csv_fields (insideQuotes : bool) (currentField : string) (s : string)
  : list string :=
  match s with
  | EmptyString => [trim currentField]
  | String char s' =>
      if Ascii.eqb char quote then
        match s' with
        | String nextChar s'' =>
            if insideQuotes && Ascii.eqb nextChar quote
            then csv_fields insideQuotes (snoc currentField quote) s''
            else csv_fields (negb insideQuotes) currentField s'
        | EmptyString => csv_fields (negb insideQuotes) currentField s'
        end
      else if Ascii.eqb char comma && negb insideQuotes
      then trim currentField :: csv_fields insideQuotes EmptyString s'
      else csv_fields insideQuotes (snoc currentField char) s'
  end.

Definition parseCSVLine (line : string) : list string :=
  csv_fields false EmptyString line.

(** The first loop of [parseCSV], with the line pushed after it. *)
Fixpoint csv_lines (insideQuotes : bool) (currentLine : string) (s : string)
  : list string :=
  match s with
  | EmptyString => if falsy (trim currentLine) then [] else [currentLine]
  | String char s' =>
      if Ascii.eqb char quote then
        match s' with
        | String nextChar s'' =>
            if insideQuotes && Ascii.eqb nextChar quote
            then csv_lines insideQuotes (snoc currentLine quote) s''
            else csv_lines (negb insideQuotes) currentLine s'
        | EmptyString => csv_lines (negb insideQuotes) currentLine s'
        end
      else if Ascii.eqb char newline && negb insideQuotes
      then
        ((if falsy (trim currentLine) then [] else [currentLine])
           ++ csv_lines insideQuotes EmptyString s')%list
      else csv_lines insideQuotes (snoc currentLine char) s'
  end.

(** [headers.forEach((header, index) => obj[header] = row[index] || '')],
    from [index] on.  For the header [__proto__] the assignment goes
    to the setter that [obj] inherits from [Object.prototype], which
    ignores a string: the row gets no field of that name. *)
Fixpoint row_object (headers row : list string) (obj : gmap string string)
  : gmap string string :=
  match headers with
  | [] => obj
  | header :: headers' =>
      row_object headers' (tail row)
        (if String.eqb header "__proto__" then obj
         else <[header := or_else (head row) ""]> obj)
  end.

(** [{ data, headers }]; nothing in the [try] block throws. *)
Definition parseCSV (csvText : string) : list (gmap string string) * list string :=
  if falsy csvText then ([], [])
  else
    match map parseCSVLine (csv_lines false EmptyString csvText) with
    | [] => ([], [])
    | first :: others =>
        let headers := map trim first in
        (map (fun row => row_object headers row ∅) others, headers)
    end.

(** [String(header).toLowerCase().replace(/[^a-z0-9]/g, '')] *)
Definition alnum (c : ascii) : bool :=
  is_digit c || ((97 <=? code c)%nat && (code c <=? 122)%nat).
Definition squash (header : string) : string := keep alnum (toLowerCase header).

Definition phonePatterns : list string :=
  ["phone"; "number"; "mobile"; "contact"; "tel"; "telephone"; "cell"; "whatsapp"].
Definition namePatterns : list string :=
  ["name"; "full_name"; "fullname"; "customer"; "client"].
Definition firstNamePatterns : list string :=
  ["first_name"; "firstname"; "fname"; "given_name"; "first"].
Definition lastNamePatterns : list string :=
  ["last_name"; "lastname"; "lname"; "surname"; "family_name"; "last"].
Definition emailPatterns : list string :=
  ["email"; "e-mail"; "mail"; "email_address"].
Definition locationPatterns : list string :=
  ["location"; "address"; "city"; "town"; "region"; "area"; "country"].

(** [patterns.some(p => lower.includes(p.replace(/[^a-z0-9]/g, '')))] *)
Definition matches (header : string) (patterns : list string) : bool :=
  existsb (fun p => includes (squash header) (keep alnum p)) patterns.

(** [if (!mapping[field] && test) mapping[field] = header] *)
Definition suggest (field : string) (test : bool) (header : string)
  (mapping : gmap string string) : gmap string string :=
  if negb (contactUtils.truthy (mapping !! field)) && test
  then <[field := header]> mapping
  else mapping.

(** The callback of the [forEach] of [detectHeaders]. *)
Definition detect_step (mapping : gmap string string) (header : string)
  : gmap string string :=
  let mapping := suggest "phone" (matches header phonePatterns) header mapping in
  let mapping :=
    suggest "name"
      (matches header namePatterns && negb (matches header ["first"; "last"; "sur"]))
      header mapping in
  let mapping := suggest "first_name" (matches header firstNamePatterns) header mapping in
  let mapping := suggest "last_name" (matches header lastNamePatterns) header mapping in
  let mapping := suggest "email" (matches header emailPatterns) header mapping in
  suggest "location" (matches header locationPatterns) header mapping.

Definition detectHeaders (headers : list string) : gmap string string :=
  fold_left detect_step headers ∅.

(** [String(header).toLowerCase().trim().replace(/\s+/g, '_')] *)
Definition normalizeHeaders (headers : list string) : list string :=
  map (fun header => underscore_spaces false (trim (toLowerCase header))) headers.

End fileParser.

(** ** BulkSender.jsx *)

Module BulkSender.
Import JsString contactUtils templateUtils whatsappUtils.

(** *** Component state, refs and the world around the component *)

Record Progress := { sent : Z; failed : Z; pending : Z; total : Z }.

Inductive status := StInfo | StSending | StSent | StFailed.

(** [{ phone, status, message, timestamp }]; the time stamp is the
    reading of the clock. *)
Record LogEntry := {
  le_phone : option string;
  le_status : status;
  le_message : string;
  le_timestamp : Z
}.

Record Report := {
  rp_timestamp : Z;
  rp_totalContacts : Z;
  rp_sent : Z;
  rp_failed : Z;
  rp_log : list LogEntry
}.

(** The item [bulkWhatsApp_reports] of [localStorage]: missing, not
    parseable as an array, or an array of reports; and, in [Full],
    missing ([None]) or an array while [setItem] throws, the quota
    being used up or storage being refused by the browser. *)
Inductive stored :=
| Absent
| Unreadable
| Saved (rs : list Report)
| Full (item : option (list Report)).

(** The two buttons shown while a batch is being sent.  The third
    button, Start, is shown when none is, and also while a call that
    was stopped is still suspended: it is an [input] of its own, below. *)
Inductive click := ClickPause | ClickStop.

(** The three [await delay(..)] sites of [handleStart]. *)
Inductive site := PausePoll | Countdown | Cooldown.

(** What the loop does to the outside, newest first in [trace]. *)
Inductive event :=
| EvAttempt (i : nat)
| EvOpen (i : nat) (phone : option string) (message : string) (opened : bool)
| EvDelay (w : site) (ms : Z).

(** Where a suspended [handleStart] continues: in the pause loop, in
    the countdown with loop variable [s], or after the cooldown. *)
Inductive cont := KPause | KCountdown (s : Z) | KCooldown.

(** The variables of one [handleStart] call: [sent], [failed], [i]
    and the [log] its closure captured. *)
Record locals := {
  l_sent : Z;
  l_failed : Z;
  l_i : nat;
  l_log : list LogEntry
}.

(** A call suspended at [await delay(f_ms)]. *)
Record frame := { f_locals : locals; f_k : cont; f_ms : Z }.

Record state := {
  sending : bool;               (* useState *)
  paused : bool;
  progress : Progress;
  log : list LogEntry;
  sendingRef : bool;            (* useRef *)
  pausedRef : bool;
  reports : stored;             (* localStorage *)
  clock : Z;                    (* milliseconds *)
  clicks : list (Z * click);    (* clicks to come, with their times *)
  randoms : nat;                (* calls of Math.random so far *)
  opens : nat;                  (* calls of window.open so far *)
  trace : list event;
  loop : option frame           (* the suspended call, if any *)
}.

Definition set_sending v st :=
  Build_state v (paused st) (progress st) (log st) (sendingRef st) (pausedRef st)
    (reports st) (clock st) (clicks st) (randoms st) (opens st) (trace st) (loop st).
Definition set_paused v st :=
  Build_state (sending st) v (progress st) (log st) (sendingRef st) (pausedRef st)
    (reports st) (clock st) (clicks st) (randoms st) (opens st) (trace st) (loop st).
Definition set_progress v st :=
  Build_state (sending st) (paused st) v (log st) (sendingRef st) (pausedRef st)
    (reports st) (clock st) (clicks st) (randoms st) (opens st) (trace st) (loop st).
Definition set_log v st :=
  Build_state (sending st) (paused st) (progress st) v (sendingRef st) (pausedRef st)
    (reports st) (clock st) (clicks st) (randoms st) (opens st) (trace st) (loop st).
Definition set_sendingRef v st :=
  Build_state (sending st) (paused st) (progress st) (log st) v (pausedRef st)
    (reports st) (clock st) (clicks st) (randoms st) (opens st) (trace st) (loop st).
Definition set_pausedRef v st :=
  Build_state (sending st) (paused st) (progress st) (log st) (sendingRef st) v
    (reports st) (clock st) (clicks st) (randoms st) (opens st) (trace st) (loop st).
Definition set_reports v st :=
  Build_state (sending st) (paused st) (progress st) (log st) (sendingRef st) (pausedRef st)
    v (clock st) (clicks st) (randoms st) (opens st) (trace st) (loop st).
Definition set_clock v st :=
  Build_state (sending st) (paused st) (progress st) (log st) (sendingRef st) (pausedRef st)
    (reports st) v (clicks st) (randoms st) (opens st) (trace st) (loop st).
Definition set_clicks v st :=
  Build_state (sending st) (paused st) (progress st) (log st) (sendingRef st) (pausedRef st)
    (reports st) (clock st) v (randoms st) (opens st) (trace st) (loop st).
Definition set_randoms v st :=
  Build_state (sending st) (paused st) (progress st) (log st) (sendingRef st) (pausedRef st)
    (reports st) (clock st) (clicks st) v (opens st) (trace st) (loop st).
Definition set_opens v st :=
  Build_state (sending st) (paused st) (progress st) (log st) (sendingRef st) (pausedRef st)
    (reports st) (clock st) (clicks st) (randoms st) v (trace st) (loop st).
Definition set_trace v st :=
  Build_state (sending st) (paused st) (progress st) (log st) (sendingRef st) (pausedRef st)
    (reports st) (clock st) (clicks st) (randoms st) (opens st) v (loop st).
Definition set_loop v st :=
  Build_state (sending st) (paused st) (progress st) (log st) (sendingRef st) (pausedRef st)
    (reports st) (clock st) (clicks st) (randoms st) (opens st) (trace st) v.

Definition record (e : event) (st : state) : state :=
  set_trace (e :: trace st) st.

Definition SYSTEM : option string := Some "SYSTEM".

(** [setLog(prev => [entry, ...prev.slice(0, 99)])] *)
Definition addLog (phone : option string) (s : status) (message : string)
  (st : state) : state :=
  set_log ({| le_phone := phone; le_status := s; le_message := message;
              le_timestamp := clock st |} :: take 99 (log st)) st.

(** *** The buttons *)

Definition handlePause (st : state) : state :=
  let was := paused st in
  let st := set_pausedRef (negb was) (set_paused (negb was) st) in
  if negb was then addLog SYSTEM StInfo "Sending paused by user" st
  else addLog SYSTEM StInfo "Resuming..." st.

Definition handleStop (st : state) : state :=
  set_paused false (set_pausedRef false (set_sendingRef false (set_sending false st))).

(** Pause and Stop are rendered only while [sending] holds. *)
Definition onClick (c : click) (st : state) : state :=
  if sending st then
    match c with
    | ClickPause => handlePause st
    | ClickStop => handleStop st
    end
  else st.

(** For a call that is followed alone, [clicks] lists the Pause and
    Stop clicks to come.  Handlers run only while the loop is
    suspended: the clicks due before [deadline] are handled in turn,
    each at its own time. *)
Fixpoint deliver (deadline : Z) (cs : list (Z * click)) (st : state) : state :=
  match cs with
  | [] => set_clicks [] st
  | (t, c) :: cs' =>
      if (t <=? deadline)%Z
      then deliver deadline cs' (onClick c (set_clock (Z.max (clock st) t) st))
      else set_clicks cs st
  end.

(** [await delay(ms)] at site [w]. *)
Definition elapse (w : site) (ms : Z) (st : state) : state :=
  let deadline := (clock st + ms)%Z in
  set_clock deadline (deliver deadline (clicks st) (record (EvDelay w ms) st)).

(** *** Calls side by side *)

(** A suspended call of [handleStart] and the time at which the timer
    of its [await] fires. *)
Record call := { c_due : Z; c_frame : frame }.

(** The component with all its suspended calls, oldest timer first
    among those set for the same time.  [loop] and [clicks] of [page]
    play no part here. *)
Record world := { page : state; waiting : list call }.

(** What happens next: Start is clicked at time [t]; Pause or Stop is
    clicked at time [t]; or the timer that is due first fires. *)
Inductive input := Start (t : Z) | Click (t : Z) (c : click) | Timer.

(** The call whose timer is due first, the one that has waited
    longest when several are due together, and the other calls. *)
Fixpoint earliest (cs : list call) : option (call * list call) :=
  match cs with
  | [] => None
  | c :: cs' =>
      match earliest cs' with
      | Some (d, others) =>
          if (c_due c <=? c_due d)%Z then Some (c, cs') else Some (d, c :: others)
      | None => Some (c, [])
      end
  end.

(** A click at time [t] comes after what has happened and before the
    timers still to fire. *)
Definition in_time (t : Z) (w : world) : bool :=
  (clock (page w) <=? t)%Z && forallb (fun c => (t <=? c_due c)%Z) (waiting w).

(** When a call has run, [loop] says where it is suspended, if it is:
    the call then joins the waiting ones, its timer set [f_ms] from
    now. *)
Definition park (others : list call) (st : state) : world :=
  {| page := set_loop None st;
     waiting :=
       match loop st with
       | Some fr => others ++ [{| c_due := clock st + f_ms fr; c_frame := fr |}]
       | None => others
       end |}.

(** *** [handleStart] *)

Section Component.

(** The props, and the two sources of outside input: the values
    [Math.random()] returns and whether [window.open] yields a
    window, each indexed by the number of earlier calls. *)
Variable contacts : list contact.
Variable messages : list preview.
Variable random_source : nat -> random.
Variable window_open : nat -> bool.

Definition len : Z := Z.of_nat (List.length contacts).

(** [useState] initial values, with the outside as given. *)
Definition mount (store : stored) (cs : list (Z * click)) : state :=
  {| sending := false; paused := false;
     progress := {| sent := 0; failed := 0; pending := len; total := len |};
     log := [];
     sendingRef := false; pausedRef := false;
     reports := store; clock := 0; clicks := cs;
     randoms := 0; opens := 0; trace := []; loop := None |}.

(** Lines 102-107 and 135-140. *)
Definition setProgress (lc : locals) (st : state) : state :=
  set_progress {| sent := l_sent lc; failed := l_failed lc;
                  pending := len - l_sent lc - l_failed lc;
                  total := len |} st.

Definition mathRandom (st : state) : random * state :=
  (random_source (randoms st), set_randoms (S (randoms st)) st).

(** whatsappUtils.js, [openWhatsAppWeb]: [null] without a call of
    [window.open] when the phone is falsy. *)
Definition openWhatsAppWeb (i : nat) (phoneNumber : option string)
  (message : string) (st : state) : bool * state :=
  if negb (truthy phoneNumber)
  then (false, record (EvOpen i phoneNumber message false) st)
  else
    let w := window_open (opens st) in
    (w, record (EvOpen i phoneNumber message w) (set_opens (S (opens st)) st)).

Inductive control :=
| CAwait (k : cont) (ms : Z)   (* reached [await delay(ms)] *)
| CNext                        (* reached the end of the loop body *)
| CBreak.                      (* left the [for] loop by [break] *)

Definition inc_sent (lc : locals) : locals :=
  {| l_sent := l_sent lc + 1; l_failed := l_failed lc;
     l_i := l_i lc; l_log := l_log lc |}.
Definition inc_failed (lc : locals) : locals :=
  {| l_sent := l_sent lc; l_failed := l_failed lc + 1;
     l_i := l_i lc; l_log := l_log lc |}.
Definition inc_i (lc : locals) : locals :=
  {| l_sent := l_sent lc; l_failed := l_failed lc;
     l_i := S (l_i lc); l_log := l_log lc |}.

(** Lines 123-128.  [Math.random] is called only when a cooldown
    is due. *)
Definition cooldownCheck (lc : locals) (st : state) : control * locals * state :=
  let cooldown := getCooldownDelay (random_source (randoms st)) (l_sent lc) 20 in
  let st := if cooldownDue (l_sent lc) 20 then snd (mathRandom st) else st in
  if (0 <? cooldown)%Z then
    (CAwait KCooldown cooldown, lc,
     addLog SYSTEM StInfo
       ("Cooling down for " ++ pretty (roundSeconds cooldown)
          ++ "s to prevent spam detection...") st)
  else (CNext, lc, st).

(** Line 121, then the cooldown check. *)
Definition afterCountdown (lc : locals) (st : state) : control * locals * state :=
  if negb (sendingRef st) then (CBreak, lc, st)
  else cooldownCheck lc st.

(** Lines 115-119, entered at the test [s > 0]. *)
Definition countdown (s : Z) (lc : locals) (st : state) : control * locals * state :=
  if (0 <? s)%Z then
    if negb (sendingRef st) then afterCountdown lc st
    else (CAwait (KCountdown s) 1000, lc, st)
  else afterCountdown lc st.

(** The text of the [TypeError] raised by [message.message] when
    [messages[i]] is [undefined]. *)
Definition TypeError_message : string :=
  "Cannot read properties of undefined (reading 'message')".

(** Lines 79-141: the [try] block and its [catch]. *)
Definition attempt (c : contact) (lc : locals) (st : state)
  : control * locals * state :=
  let i := l_i lc in
  let st := addLog (contact_phone c) StSending "Preparing message..."
              (record (EvAttempt i) st) in
  match messages !! i with
  | None =>
      let lc := inc_failed lc in
      let st := addLog (contact_phone c) StFailed TypeError_message st in
      (CNext, lc, setProgress lc st)
  | Some message =>
      let '(opened, st) :=
        openWhatsAppWeb i (contact_phone c) (pv_message message) st in
      let lc := if opened then inc_sent lc else inc_failed lc in
      let st :=
        if opened
        then addLog (contact_phone c) StSent "Opened in WhatsApp Web" st
        else addLog (contact_phone c) StFailed "Popup blocked or failed to open" st in
      let st := setProgress lc st in
      if (Z.of_nat i <? len - 1)%Z then
        let '(r, st) := mathRandom st in
        let randomDelay := getRandomDelay r 5000 15000 in
        countdown (roundSeconds randomDelay) lc st
      else (CNext, lc, st)
  end.

(** Lines 72-77, entered at the test of the [while]. *)
Definition pauseLoop (c : contact) (lc : locals) (st : state)
  : control * locals * state :=
  if pausedRef st then
    if negb (sendingRef st) then (CBreak, lc, st)
    else (CAwait KPause 500, lc, st)
  else if negb (sendingRef st) then (CBreak, lc, st)
  else attempt c lc st.

(** Lines 66-70, then the rest of the body. *)
Definition loopBody (c : contact) (lc : locals) (st : state)
  : control * locals * state :=
  if negb (sendingRef st)
  then (CBreak, lc, addLog SYSTEM StInfo "Sending stopped by user" st)
  else pauseLoop c lc st.

(** Lines 147-175.  [log] is the one captured by the closure.  The
    [try] block ends at the first call that throws, [JSON.parse],
    [reports.push] or [setItem], and then nothing is stored.
    [handleStart] returns after this call, so no call is left
    suspended. *)
Definition finishSending (lc : locals) (st : state) : state :=
  let report :=
    {| rp_timestamp := clock st; rp_totalContacts := len;
       rp_sent := l_sent lc; rp_failed := l_failed lc;
       rp_log := take 50 (l_log lc) |} in
  let st :=
    match reports st with
    | Unreadable => st
    | Absent => set_reports (Saved [report]) st
    | Saved rs => set_reports (Saved (rs ++ [report])%list) st
    | Full _ => st
    end in
  let st := set_loop None (set_sendingRef false (set_sending false st)) in
  if (l_sent lc + l_failed lc =? len)%Z then
    addLog SYSTEM StInfo
      ("Batch complete: " ++ pretty (l_sent lc) ++ " sent, "
         ++ pretty (l_failed lc) ++ " failed") st
  else st.

Definition suspend (k : cont) (ms : Z) (lc : locals) (st : state) : state :=
  set_loop (Some {| f_locals := lc; f_k := k; f_ms := ms |}) st.

(** The [for] loop from its test, [rest] being [contacts] from
    index [l_i lc] on; it runs to the next [await] or to the end. *)
Fixpoint forLoop (rest : list contact) (lc : locals) (st : state) : state :=
  match rest with
  | [] => finishSending lc st
  | c :: rest' =>
      match loopBody c lc st with
      | (CAwait k ms, lc, st) => suspend k ms lc st
      | (CBreak, lc, st) => finishSending lc st
      | (CNext, lc, st) => forLoop rest' (inc_i lc) st
      end
  end.

(** Where a body that was resumed in its middle goes on. *)
Definition proceed (r : control * locals * state) : state :=
  match r with
  | (CAwait k ms, lc, st) => suspend k ms lc st
  | (CBreak, lc, st) => finishSending lc st
  | (CNext, lc, st) => forLoop (drop (S (l_i lc)) contacts) (inc_i lc) st
  end.

(** Lines 44-145, up to the first [await]. *)
Definition handleStart (st : state) : state :=
  if (len =? 0)%Z || (Z.of_nat (List.length messages) =? 0)%Z then st
  else
    let log0 := log st in
    let st := set_pausedRef false (set_sendingRef true (set_sending true st)) in
    let st := addLog SYSTEM StInfo
                ("Starting bulk send to " ++ pretty len ++ " contacts...") st in
    let sent := sent (progress st) in
    let failed := failed (progress st) in
    let startIndex := Z.to_nat (sent + failed) in
    forLoop (drop startIndex contacts)
      {| l_sent := sent; l_failed := failed; l_i := startIndex; l_log := log0 |}
      st.

Definition site_of (k : cont) : site :=
  match k with
  | KPause => PausePoll
  | KCountdown _ => Countdown
  | KCooldown => Cooldown
  end.

(** Where a call goes on once the wait of its [await] is over: it
    runs to its next [await] or to its end.  A call in the pause poll
    has passed the loop test, so [contacts[i]] is there; the empty
    case is for totality. *)
Definition after_wait (fr : frame) (st : state) : state :=
  let lc := f_locals fr in
  match f_k fr with
  | KPause =>
      match drop (l_i lc) contacts with
      | c :: _ => proceed (pauseLoop c lc st)
      | [] => finishSending lc st
      end
  | KCountdown s => proceed (countdown (s - 1) lc st)
  | KCooldown => proceed (CNext, lc, st)
  end.

(** The timer of a suspended call fires, for a call that is followed
    alone: the wait has elapsed, with the Pause and Stop clicks that
    fell into it, and the call goes on. *)
Definition resume (fr : frame) (st : state) : state :=
  after_wait fr (elapse (site_of (f_k fr)) (f_ms fr) st).

(** Line 211: [Math.round] of the exact quotient. *)
Definition progressPercent (st : state) : Z :=
  let p := progress st in
  if (0 <? total p)%Z
  then (200 * (sent p + failed p) + total p) / (2 * total p)
  else 0.

(** The Start button: rendered when not [sending], disabled at 100%. *)
Definition clickStart (st : state) : state :=
  if sending st then st
  else if (progressPercent st =? 100)%Z then st
  else handleStart st.

(** One move of a component whose calls do not overlap: a suspended
    call is resumed, or, with no call alive, Start is invoked at some
    later time with some clicks to come.  Start clicked while a
    stopped call is still suspended is an [input] of [feed], below. *)
Inductive step : state -> state -> Prop :=
| step_resume st fr :
    loop st = Some fr -> step st (resume fr st)
| step_start st t cs :
    loop st = None -> (clock st <= t)%Z ->
    step st (handleStart (set_clicks cs (set_clock t st))).

(** Iterating [resume] until the call ends or [n] timers fired. *)
Fixpoint run (n : nat) (st : state) : state :=
  match n with
  | O => st
  | S n' =>
      match loop st with
      | Some fr => run n' (resume fr st)
      | None => st
      end
  end.

(** *** Calls side by side, continued *)

(** One input to the component.  A click is handled by the handler
    of its button, as rendered at that time; Start may set off a new
    call beside those that wait.  When a timer fires, its call goes
    on where it was.  [None]: the input cannot come next. *)
Definition feed (i : input) (w : world) : option world :=
  match i with
  | Start t =>
      if in_time t w
      then Some (park (waiting w) (clickStart (set_clock t (page w))))
      else None
  | Click t c =>
      if in_time t w
      then Some {| page := onClick c (set_clock t (page w));
                   waiting := waiting w |}
      else None
  | Timer =>
      match earliest (waiting w) with
      | Some (c, others) =>
          let fr := c_frame c in
          Some (park others
                  (after_wait fr
                     (record (EvDelay (site_of (f_k fr)) (f_ms fr))
                        (set_clock (c_due c) (page w)))))
      | None => None
      end
  end.

Fixpoint feeds (inputs : list input) (w : world) : option world :=
  match inputs with
  | [] => Some w
  | i :: inputs' =>
      match feed i w with
      | Some w' => feeds inputs' w'
      | None => None
      end
  end.

(** The component as mounted, no call waiting. *)
Definition boot (store : stored) : world :=
  {| page := mount store []; waiting := [] |}.

End Component.

(** *** Reading a trace *)

Definition attempt_index (e : event) : option nat :=
  match e with
  | EvAttempt i => Some i
  | _ => None
  end.

(** The indices attempted, oldest first. *)
Definition attempts (tr : list event) : list nat :=
  omap attempt_index (rev tr).

Definition is_open (e : event) : bool :=
  match e with
  | EvOpen _ _ _ _ => true
  | _ => false
  end.

(** The calls of [openWhatsAppWeb]. *)
Definition transport_calls (tr : list event) : list event :=
  List.filter is_open tr.

Definition is_cooldown (e : event) : bool :=
  match e with
  | EvDelay Cooldown _ => true
  | _ => false
  end.

(** The cooldown waits. *)
Definition cooldowns (tr : list event) : list event :=
  List.filter is_cooldown tr.

(** The trace less the ticks of the countdown and of the pause poll. *)
Definition without_ticks (tr : list event) : list event :=
  List.filter (fun e => match e with
                        | EvDelay Countdown _ | EvDelay PausePoll _ => false
                        | _ => true
                        end) tr.

(** The clicks that [deliver] hands to their handlers during a wait
    that ends at [deadline]. *)
Fixpoint due (deadline : Z) (cs : list (Z * click)) : list (Z * click) :=
  match cs with
  | [] => []
  | (t, c) :: cs' =>
      if (t <=? deadline)%Z then (t, c) :: due deadline cs' else []
  end.

(** [Completed]: no call is alive and every contact was attempted. *)
Definition Completed (contacts : list contact) (st : state) : Prop :=
  loop st = None
  /\ (sent (progress st) + failed (progress st) = total (progress st))%Z
  /\ total (progress st) = len contacts.

End BulkSender.

(** ** Reference definitions, following the wording of the specification *)

Module Spec.
Import JsString contactUtils templateUtils.


(** "Drop every record whose phone has already appeared earlier in
    the sequence": [earlier] holds the phones of the records passed
    so far, kept or not; [usable] says which phones may be kept. *)
Fixpoint first_occurrences (usable : option string -> bool)
  (earlier : list (option string)) (l : list contact) : list contact :=
  match l with
  | [] => []
  | c :: l' =>
      (if usable (contact_phone c)
          && negb (bool_decide (contact_phone c ∈ earlier))
       then [c] else [])
        ++ first_occurrences usable (earlier ++ [contact_phone c]) l'
  end%list.

(** The rule as worded: every phone may be kept. *)
Definition dedupe_as_worded (l : list contact) : list contact :=
  first_occurrences (fun _ => true) [] l.

(** The rule with the guard of the code: only a non-empty phone may
    be kept. *)
Definition dedupe_nonempty (l : list contact) : list contact :=
  first_occurrences truthy [] l.

(** A placeholder at the head of [s]: one or two opening braces, a
    non-empty run of word and space characters, one or two closing
    braces (two whenever a second one is there); [rest] follows it. *)
Definition placeholder_at (s m key rest : string) : Prop :=
  exists ob cb : string,
    s = m ++ rest
    /\ m = "{" ++ ob ++ key ++ "}" ++ cb
    /\ (ob = "" \/ ob = "{")
    /\ key <> ""
    /\ all key_char key = true
    /\ (cb = "}" \/ (cb = "" /\ startsWith rest "}" = false)).

(** The replacement as worded: the value of the contact's field, or
    the placeholder itself when the contact has no such field. *)
Definition fill (c : contact) (m key : string) : string :=
  match c !! trim key with
  | Some v => v
  | None => m
  end.

(** "Replace each placeholder occurrence with the corresponding
    contact field value; a placeholder with no matching field is left
    verbatim": the template is read from the left, placeholder by
    placeholder, everything else being copied. *)
Inductive renders (c : contact) : string -> string -> Prop :=
| renders_end :
    renders c "" ""
| renders_field s m key rest v out :
    placeholder_at s m key rest ->
    c !! trim key = Some v ->
    renders c rest out ->
    renders c s (v ++ out)
| renders_verbatim s m key rest out :
    placeholder_at s m key rest ->
    c !! trim key = None ->
    renders c rest out ->
    renders c s (m ++ out)
| renders_char a s out :
    (forall m key rest, ~ placeholder_at (String a s) m key rest) ->
    renders c s out ->
    renders c (String a s) (String a out).

End Spec.

(** ** Invariants of the dispatch loop *)

Module DispatchInv.
Import BulkSender.

(** What ends a run of [p]-characters. *)
Definition stops (p : ascii -> bool) (s : string) : Prop :=
  match s with
  | EmptyString => True
  | String c _ => p c = false
  end.

Section WithContacts.
Variable contacts : list contact.

Local Abbreviation len := (len contacts).

(** The value handed to [setProgress]. *)
Definition progress_of (lc : locals) : Progress :=
  {| sent := l_sent lc; failed := l_failed lc;
     pending := len - l_sent lc - l_failed lc; total := len |}.

(** [counted G base start st]: since the trace read [base], the
    indices from [start] up to [sent + failed] were attempted, each
    once and in order; under [G] the progress record adds up. *)
Definition counted (G : Prop) (base : list nat) (start : Z) (st : state) : Prop :=
  let p := progress st in
  (G -> sent p + failed p + pending p = total p /\ total p = len)%Z
  /\ (0 <= sent p)%Z /\ (0 <= failed p)%Z
  /\ (0 <= start <= sent p + failed p)%Z
  /\ attempts (trace st)
     = (base ++ seq (Z.to_nat start) (Z.to_nat (sent p + failed p - start)))%list.

(** The locals agree with the progress record, and stand before
    ([ahead = 0]) or after ([ahead = 1]) the attempt of index [l_i]. *)
Definition aligned (ahead : Z) (lc : locals) (st : state) : Prop :=
  l_sent lc = sent (progress st) /\ l_failed lc = failed (progress st)
  /\ (Z.of_nat (l_i lc) + ahead = l_sent lc + l_failed lc)%Z.

(** The index the suspended call attempts next. *)
Definition next_index (fr : frame) : nat :=
  match f_k fr with
  | KPause => l_i (f_locals fr)
  | KCountdown _ | KCooldown => S (l_i (f_locals fr))
  end.

(** The invariant of the component. *)
Definition inv (G : Prop) (base : list nat) (start : Z) (st : state) : Prop :=
  counted G base start st
  /\ forall fr, loop st = Some fr ->
       l_sent (f_locals fr) = sent (progress st)
       /\ l_failed (f_locals fr) = failed (progress st)
       /\ (Z.of_nat (next_index fr) = sent (progress st) + failed (progress st))%Z.

(** What a control value promises about the locals. *)
Definition control_ok (ctl : control) (lc : locals) (st : state) : Prop :=
  match ctl with
  | CAwait KPause _ => aligned 0 lc st
  | CAwait _ _ | CNext => aligned 1 lc st
  | CBreak => True
  end.

End WithContacts.

End DispatchInv.

(** ** Sample data *)

Module Samples.
Import templateUtils whatsappUtils BulkSender.

Definition amara : contact := {[ "first_name" := "Amara" ]}.

Definition blank_phone : contact := {[ "phone" := "" ]}.

Definition numbered (n : nat) : contact :=
  {[ "phone" := "+2567000000" ++ pretty n; "first_name" := "Amara" ]}.

Definition batch (n : nat) : list contact := numbered <$> seq 0 n.

Definition greetings (cs : list contact) : list preview :=
  generatePreview "Hi {first_name}" cs (List.length cs).

(** [Math.random()] always yields 0: waits of 5 s, cooldowns of 30 s. *)
Definition no_random (_ : nat) : random := {| rnd_num := 0; rnd_den := 1 |}.

Definition always_open (_ : nat) : bool := true.

(** Every call of [window.open] but the one numbered [k] succeeds. *)
Definition all_but (k : nat) (n : nat) : bool := negb (n =? k)%nat.

(** A component over [n] contacts and its [handleStart] and [run]. *)
Definition start (n : nat) (w : nat -> bool) : state -> state :=
  handleStart (batch n) (greetings (batch n)) no_random w.
Definition go (n : nat) (w : nat -> bool) : nat -> state -> state :=
  run (batch n) (greetings (batch n)) no_random w.

(** An idle component that was stopped with the given counters. *)
Definition stopped_at (s f n : Z) : state :=
  {| sending := false; paused := false;
     progress := {| sent := s; failed := f; pending := n - s - f; total := n |};
     log := []; sendingRef := false; pausedRef := false;
     reports := Absent; clock := 0; clicks := [];
     randoms := 0; opens := 0; trace := []; loop := None |}.

(** Three contacts: freshly mounted, and after Start. *)
Definition three_idle : state := mount (batch 3) Absent [].
Definition three_started : state :=
  start 3 always_open (set_clicks [] (set_clock 0 three_idle)).

(** Ten contacts, stopped after three successes and one failure,
    and started again. *)
Definition ten_stopped : state := stopped_at 3 1 10.
Definition ten_resumed : state :=
  start 10 always_open (set_clicks [] (set_clock 0 ten_stopped)).

(** One contact, sent: the batch is complete. *)
Definition one_done : state := start 1 always_open (mount (batch 1) Absent []).

(** Twenty-two contacts, the twenty-first of which cannot be opened,
    run to the end. *)
Definition failure_after_twenty : state :=
  go 22 (all_but 20) 200 (start 22 (all_but 20) (mount (batch 22) Absent [])).

(** Twenty-one contacts, Stop clicked one millisecond into the
    cooldown that follows the twentieth success: the state at the
    start of the cooldown and the state when its timer has fired. *)
Definition in_cooldown : state :=
  go 21 always_open 100
    (start 21 always_open (mount (batch 21) Absent [(100001%Z, ClickStop)])).
Definition after_cooldown : state := go 21 always_open 1 in_cooldown.

(** A component over [n] contacts, fed the given inputs from
    mounting on. *)
Definition play (n : nat) (w : nat -> bool) (inputs : list input) : option world :=
  feeds (batch n) (greetings (batch n)) no_random w inputs (boot (batch n) Absent).

(** Start, Stop half a second later, in the wait after the first
    attempt, and Start again a tenth of a second after that, while the
    stopped call still waits for the timer of its countdown. *)
Definition stop_and_restart : list input :=
  [Start 0; Click 500 ClickStop; Start 600].

(** The call that was stopped: as it waits when Stop is clicked, and
    as it waits for the last second of its countdown. *)
Definition stopped_call : call :=
  {| c_due := 1000;
     c_frame := {| f_locals := {| l_sent := 1; l_failed := 0; l_i := 0; l_log := [] |};
                   f_k := KCountdown 5; f_ms := 1000 |} |}.
Definition stopped_call_last_second : call :=
  {| c_due := 5000;
     c_frame := {| f_locals := {| l_sent := 1; l_failed := 0; l_i := 0; l_log := [] |};
                   f_k := KCountdown 1; f_ms := 1000 |} |}.

End Samples.

(** ** Predicates and sample data of the further properties *)

Module Facts.
Import JsString phoneUtils contactUtils templateUtils whatsappUtils.
Import fileParser HomePage BulkSender DispatchInv Samples.

(** A character a cleaned phone is made of. *)
Definition phone_char (c : ascii) : bool := is_digit c || is_plus c.

(** Neither a space nor a line terminator. *)
Definition solid (c : ascii) : bool :=
  negb (Ascii.eqb c " ") && negb (is_line_terminator c).

(** A record whose phone is there and passes [validatePhone]. *)
Definition phone_ok (c : contact) : Prop :=
  exists p, contact_phone c = Some p /\ validatePhone p = true.

(** The test of [validateContacts]. *)
Definition has_valid_phone (c : contact) : bool :=
  truthy (contact_phone c) && validatePhone (default "" (contact_phone c)).

(** The fields [formatContactsForSending] sets. *)
Definition standard_fields : list string :=
  ["name"; "first_name"; "last_name"; "email"; "location"].

(** Characters other than the double quote, and those that are
    neither the quote nor the comma. *)
Definition not_quote (c : ascii) : bool := negb (Ascii.eqb c quote).
Definition plain (c : ascii) : bool := not_quote c && negb (Ascii.eqb c comma).

(** A field as a CSV writer quotes it: between double quotes, each
    double quote of the field written twice. *)
Fixpoint double_quotes (field : string) : string :=
  match field with
  | EmptyString => EmptyString
  | String c field' =>
      if Ascii.eqb c quote then String quote (String quote (double_quotes field'))
      else String c (double_quotes field')
  end.
Definition quoted (field : string) : string :=
  String quote (double_quotes field ++ String quote EmptyString).

(** What may follow a field on its line: nothing, or a comma. *)
Definition field_end (rest : string) : Prop :=
  rest = EmptyString \/ exists r, rest = String comma r.

(** The index of a call of [openWhatsAppWeb]. *)
Definition open_index (e : event) : option nat :=
  match e with
  | EvOpen i _ _ _ => Some i
  | _ => None
  end.

(** The indices for which [openWhatsAppWeb] was called, oldest first. *)
Definition opened (tr : list event) : list nat := omap open_index (rev tr).



(** The log holds at most a hundred entries. *)
Definition capped (st : state) : Prop := (List.length (log st) <= 100)%nat.

(** [reports.push(report)] on the stored item, as [finishSending]
    leaves it. *)
Definition push_report (r : Report) (store : stored) : stored :=
  match store with
  | Unreadable => Unreadable
  | Absent => Saved [r]
  | Saved rs => Saved (rs ++ [r])%list
  | Full item => Full item
  end.

(** The locals of a call still hold the log the call started with,
    and the stored reports are as they were. *)
Definition in_call (log0 : list LogEntry) (store0 : stored) (lc : locals)
  (st : state) : Prop :=
  l_log lc = log0 /\ reports st = store0.

(** The report of a call that has ended. *)
Definition reported (contacts : list contact) (log0 : list LogEntry)
  (store0 : stored) (st : state) : Prop :=
  exists r,
    reports st = push_report r store0
    /\ rp_log r = take 50 log0
    /\ rp_totalContacts r = len contacts
    /\ rp_timestamp r = clock st.

(** What a call that has just run leaves: suspended ([loop] says
    where), it has stored nothing; ended, it has stored its report. *)
Definition call_ok (contacts : list contact) (log0 : list LogEntry)
  (store0 : stored) (st : state) : Prop :=
  match loop st with
  | Some fr => in_call log0 store0 (f_locals fr) st
  | None => reported contacts log0 store0 st
  end.

(** Sending is off: Pause and Stop are not shown, and a call that
    looks at [sendingRef] leaves its loop. *)
Definition stopped (w : world) : Prop :=
  sending (page w) = false /\ sendingRef (page w) = false.

(** A state in which nothing holds the loop back: no click is to
    come, sending is on and not paused. *)
Definition free (st : state) : Prop :=
  clicks st = [] /\ sendingRef st = true /\ pausedRef st = false.

(** The progress record of a batch that went through: every contact
    counted as sent or failed, none pending. *)
Definition all_counted (contacts : list contact) (st : state) : Prop :=
  loop st = None
  /\ (sent (progress st) + failed (progress st) = len contacts)%Z
  /\ pending (progress st) = 0%Z
  /\ total (progress st) = len contacts.

(** [Q] holds once the call has ended, after some number of timers. *)
Definition ends (contacts : list contact) (messages : list preview)
  (random_source : nat -> random) (window_open : nat -> bool)
  (Q : state -> Prop) (st : state) : Prop :=
  exists n,
    loop (run contacts messages random_source window_open n st) = None
    /\ Q (run contacts messages random_source window_open n st).

(** What is left to do after the wait that follows an attempt. *)
Definition next_round (contacts : list contact) (messages : list preview)
  (random_source : nat -> random) (window_open : nat -> bool)
  (Q : state -> Prop) (lc : locals) : Prop :=
  forall st,
    free st -> progress st = progress_of contacts lc ->
    ends contacts messages random_source window_open Q
      (forLoop contacts messages random_source window_open
         (drop (S (l_i lc)) contacts) (inc_i lc) st).

(** Three contacts, Pause clicked half a second after Start: the
    state when the loop has reached the pause poll, and the call
    suspended there. *)
Definition three_paused : state :=
  go 3 always_open 5
    (start 3 always_open (mount (batch 3) Absent [(500%Z, ClickPause)])).
Definition three_paused_frame : frame :=
  {| f_locals := {| l_sent := 1; l_failed := 0; l_i := 1; l_log := [] |};
     f_k := KPause; f_ms := 500 |}.

(** A character that is no white space and that lower-casing leaves
    as it is. *)
Definition settled (c : ascii) : bool :=
  negb (is_space c) && Ascii.eqb (lower_char c) c.

End Facts.

Import JsString phoneUtils contactUtils templateUtils whatsappUtils BulkSender Spec.
Import DispatchInv Samples.

(** * Properties *)

(** ** Strings *)

Lemma falsy_true (s : string) : falsy s = true <-> s = "".
Proof. destruct s; simpl; split; congruence. Qed.

Lemma falsy_false (s : string) : falsy s = false <-> s <> "".
Proof. destruct s; simpl; split; congruence. Qed.

Lemma app_nil_s (t : string) : "" ++ t = t.
Proof. reflexivity. Qed.

Lemma app_cons_s (a : ascii) (s t : string) : String a s ++ t = String a (s ++ t).
Proof. reflexivity. Qed.

Lemma app_empty_r (s : string) : s ++ "" = s.
Proof. induction s as [|a s IH]; [done|]. by rewrite app_cons_s, IH. Qed.

Lemma app_assoc_s (a b c : string) : (a ++ b) ++ c = a ++ (b ++ c).
Proof. induction a as [|x a IH]; [done|]. by rewrite !app_cons_s, IH. Qed.

Lemma length_app_s (a b : string) :
  String.length (a ++ b) = (String.length a + String.length b)%nat.
Proof. induction a as [|x a IH]; [done|]. rewrite app_cons_s. simpl. by rewrite IH. Qed.

(** Normal form of nested appends: literals pushed out, brackets to
    the right. *)
Ltac norm_app :=
  repeat first [ rewrite app_cons_s | rewrite app_nil_s | rewrite app_assoc_s ].

Ltac norm_app_in H :=
  repeat first [ rewrite app_cons_s in H | rewrite app_nil_s in H
               | rewrite app_assoc_s in H ].

(** ** phoneUtils *)

Lemma hasValidCode_iff (s : string) :
  hasValidCode s = true <->
  exists code, code ∈ COUNTRY_CODES /\ startsWith s code = true.
Proof.
  unfold hasValidCode. rewrite existsb_exists. split.
  - intros (code & Hin & Hp). exists code. split; [ by apply list_elem_of_In | done ].
  - intros (code & Hin & Hp). exists code. split; [ by apply list_elem_of_In | done ].
Qed.

Lemma length_check (n : nat) :
  ((n <? 7)%nat || (15 <? n)%nat = false /\ (7 <= n <= 15)%nat)
  \/ ((n <? 7)%nat || (15 <? n)%nat = true /\ ~ (7 <= n <= 15)%nat).
Proof.
  destruct (Nat.ltb_spec n 7); destruct (Nat.ltb_spec 15 n); simpl;
    [ right | right | right | left ]; split; auto; lia.
Qed.




(** ** contactUtils *)

Lemma truthy_Some (v : option string) :
  truthy v = true <-> exists p, v = Some p /\ p <> "".
Proof.
  destruct v as [p|]; simpl.
  - rewrite negb_true_iff, falsy_false. split; [ eauto | by intros (q & [= ->] & H) ].
  - split; [ discriminate | by intros (q & [=] & _) ].
Qed.

(** The [forEach] loop, started with [seen] holding the non-empty
    phones met so far, yields the first occurrences of the rest. *)
Lemma fold_dedupe_step (l : list contact) :
  forall (seen : gset string) (acc : list contact) (earlier : list (option string)),
    (forall p, p ∈ seen <-> p <> "" /\ Some p ∈ earlier) ->
    (fold_left dedupe_step l (seen, acc)).2
    = (acc ++ first_occurrences truthy earlier l)%list.
Proof.
  induction l as [|c l IH]; intros seen acc earlier Hseen; simpl.
  - by rewrite app_nil_r.
  - unfold dedupe_step at 2. simpl. destruct (contact_phone c) as [phone|] eqn:Hc; simpl.
    + destruct (falsy phone) eqn:Hf; simpl.
      * apply IH. intros p. rewrite Hseen, elem_of_app, list_elem_of_singleton.
        apply falsy_true in Hf. split; [ tauto |]. intros (Hp & [H | [= ->]]); done.
      * apply falsy_false in Hf.
        assert (Hdec : bool_decide (phone ∈ seen) = bool_decide (Some phone ∈ earlier)).
        { apply bool_decide_ext. rewrite Hseen. tauto. }
        rewrite Hdec. destruct (bool_decide (Some phone ∈ earlier)) eqn:Hin; simpl.
        -- apply IH. intros p. rewrite Hseen, elem_of_app, list_elem_of_singleton.
           apply bool_decide_eq_true in Hin.
           split; [ tauto |]. intros (Hp & [H | [= ->]]); done.
        -- rewrite (IH _ _ (earlier ++ [Some phone])%list).
           ++ by rewrite <- app_assoc.
           ++ intros p. rewrite elem_of_union, elem_of_singleton, Hseen,
                elem_of_app, list_elem_of_singleton.
              split.
              ** intros [-> | [Hp H]]; auto.
              ** intros (Hp & [H | [= ->]]); auto.
    + apply IH. intros p. rewrite Hseen, elem_of_app, list_elem_of_singleton.
      split; [ tauto |]. intros (Hp & [H | [=]]); done.
Qed.

Lemma deduplicateContacts_eq (l : list contact) :
  deduplicateContacts l = dedupe_nonempty l.
Proof.
  unfold deduplicateContacts, dedupe_nonempty.
  destruct l as [|c l]; [ done |].
  change (List.length (c :: l) =? 0)%nat with false. cbv iota.
  rewrite (fold_dedupe_step _ ∅ [] []); [ done |].
  intros p. rewrite elem_of_nil, elem_of_empty. tauto.
Qed.

Lemma first_occurrences_sublist usable (l : list contact) :
  forall earlier, sublist (first_occurrences usable earlier l) l.
Proof.
  induction l as [|c l IH]; intros earlier; simpl; [ constructor |].
  destruct (_ && _); simpl.
  - apply sublist_skip, IH.
  - apply sublist_cons, IH.
Qed.

Lemma first_occurrences_fresh usable (l : list contact) :
  forall earlier c,
    c ∈ first_occurrences usable earlier l ->
    (contact_phone c ∉ earlier) /\ usable (contact_phone c) = true.
Proof.
  induction l as [|d l IH]; intros earlier c; simpl; [ by rewrite elem_of_nil |].
  rewrite elem_of_app. intros [Hin | Hin].
  - destruct (usable (contact_phone d)) eqn:Hu; simpl in Hin;
      [| by apply elem_of_nil in Hin ].
    destruct (bool_decide (contact_phone d ∈ earlier)) eqn:Hd; simpl in Hin;
      [ by apply elem_of_nil in Hin |].
    apply list_elem_of_singleton in Hin as ->.
    by apply bool_decide_eq_false in Hd.
  - apply IH in Hin as [Hno Hu]. split; [| done ].
    intros H. apply Hno. apply elem_of_app. by left.
Qed.

Lemma first_occurrences_NoDup usable (l : list contact) :
  forall earlier, NoDup (contact_phone <$> first_occurrences usable earlier l).
Proof.
  induction l as [|d l IH]; intros earlier; simpl; [ constructor |].
  rewrite fmap_app. destruct (_ && _); simpl; [| apply IH ].
  constructor; [| apply IH ].
  rewrite list_elem_of_fmap. intros (c & Heq & Hin).
  apply first_occurrences_fresh in Hin as [Hno _].
  apply Hno. rewrite Heq, elem_of_app, list_elem_of_singleton. by right.
Qed.

Lemma first_occurrences_ext (u1 u2 : option string -> bool) (l : list contact) :
  forall earlier,
    Forall (fun c => u1 (contact_phone c) = u2 (contact_phone c)) l ->
    first_occurrences u1 earlier l = first_occurrences u2 earlier l.
Proof.
  induction l as [|c l IH]; intros earlier Hall; simpl; [ done |].
  apply Forall_cons in Hall as [Hc Hall]. by rewrite Hc, IH.
Qed.

(** C7, as worded, fails: a record with an empty phone is dropped
    although no earlier record carries its phone. *)
Lemma deduplicateContacts_drops_more :
  dedupe_as_worded [blank_phone] = [blank_phone]
  /\ deduplicateContacts [blank_phone] <> dedupe_as_worded [blank_phone].
Proof. split; [ vm_compute; reflexivity | vm_compute; discriminate ]. Qed.

(** C7 (amended).  For every list of contact records,
    [deduplicateContacts] drops exactly the records whose phone is
    missing or empty and the records whose phone has already appeared
    earlier in the sequence, so the first occurrence of a non-empty
    phone wins; the kept records stand in their original order, and no
    two of them have the same phone.  On a list in which every record
    has a non-empty phone this is the rule as worded. *)
Theorem deduplicateContacts_first_wins (l : list contact) :
  deduplicateContacts l = dedupe_nonempty l
  /\ sublist (deduplicateContacts l) l
  /\ NoDup (contact_phone <$> deduplicateContacts l)
  /\ (Forall (fun c => truthy (contact_phone c) = true) l ->
      deduplicateContacts l = dedupe_as_worded l).
Proof.
  rewrite deduplicateContacts_eq. unfold dedupe_nonempty, dedupe_as_worded.
  split; [ done |]. split; [| split ].
  - apply first_occurrences_sublist.
  - apply first_occurrences_NoDup.
  - intros Hall. by apply first_occurrences_ext.
Qed.

Lemma deduplicateContacts_first_wins_witness :
  let l := [numbered 1; numbered 2; numbered 1] in
  Forall (fun c => truthy (contact_phone c) = true) l
  /\ deduplicateContacts l = dedupe_as_worded l.
Proof.
  assert (Hall : Forall (fun c => truthy (contact_phone c) = true)
                        [numbered 1; numbered 2; numbered 1])
    by (repeat constructor).
  split; [ exact Hall |].
  destruct (deduplicateContacts_first_wins [numbered 1; numbered 2; numbered 1])
    as (_ & _ & _ & H).
  exact (H Hall).
Defined.

(** C10.  Every record in the output of [deduplicateContacts] has a
    phone that is present and not empty: a record without one is
    dropped, also where it stands first. *)
Theorem deduplicateContacts_phones_nonempty (l : list contact) :
  Forall (fun c => exists p, contact_phone c = Some p /\ p <> "")
         (deduplicateContacts l)
  /\ deduplicateContacts (blank_phone :: l) = deduplicateContacts l
  /\ deduplicateContacts ((∅ : contact) :: l) = deduplicateContacts l.
Proof.
  split; [| split ].
  - rewrite deduplicateContacts_eq. apply Forall_forall. intros c Hin.
    apply first_occurrences_fresh in Hin as [_ Hu]. by apply truthy_Some.
  - unfold deduplicateContacts. destruct l as [|c l]; [ reflexivity |].
    change (fold_left dedupe_step (blank_phone :: c :: l) (∅, []))
      with (fold_left dedupe_step (c :: l) (dedupe_step (∅, []) blank_phone)).
    reflexivity.
  - unfold deduplicateContacts. destruct l as [|c l]; [ reflexivity |].
    change (fold_left dedupe_step (∅ :: c :: l) (∅, []))
      with (fold_left dedupe_step (c :: l) (dedupe_step (∅, []) ∅)).
    reflexivity.
Qed.

(** ** templateUtils *)

Lemma strip_char_Some (ch : ascii) (s s' : string) :
  strip_char ch s = Some s' <-> s = String ch s'.
Proof.
  destruct s as [|a s0]; [ split; discriminate |].
  unfold strip_char. destruct (Ascii.eqb_spec a ch) as [-> | Hne]; split; congruence.
Qed.

Lemma strip_char_None (s : string) :
  strip_char "}" s = None <-> startsWith s "}" = false.
Proof.
  destruct s as [|a s0]; [ done |].
  unfold strip_char, startsWith. destruct (Ascii.eqb a "}"); simpl; split; congruence.
Qed.

Lemma span_spec (p : ascii -> bool) (s : string) :
  forall a b, span p s = (a, b) -> s = a ++ b /\ all p a = true /\ stops p b.
Proof.
  induction s as [|c s IH]; simpl; intros a b H.
  - by injection H as <- <-.
  - destruct (p c) eqn:Hc.
    + destruct (span p s) as [a' b']. injection H as <- <-.
      destruct (IH _ _ eq_refl) as (-> & Ha & Hb).
      rewrite app_cons_s. simpl. by rewrite Hc, Ha.
    + injection H as <- <-. by rewrite app_nil_s.
Qed.

Lemma span_app (p : ascii -> bool) (a b : string) :
  all p a = true -> stops p b -> span p (a ++ b) = (a, b).
Proof.
  induction a as [|c a IH]; intros Ha Hb.
  - rewrite app_nil_s. destruct b as [|d b]; simpl in *; [ done |]. by rewrite Hb.
  - rewrite app_cons_s. simpl in *. apply andb_true_iff in Ha as [Hc Ha].
    by rewrite Hc, IH.
Qed.

Lemma brace_not_key_char_open (s : string) : stops key_char (String "{" s).
Proof. reflexivity. Qed.

Lemma brace_not_key_char_close (s : string) : stops key_char (String "}" s).
Proof. reflexivity. Qed.

Lemma exec_placeholder_sound (s m key rest : string) :
  exec_placeholder s = Some (m, key, rest) -> placeholder_at s m key rest.
Proof.
  unfold exec_placeholder, placeholder_at.
  destruct (strip_char "{" s) as [s1|] eqn:H1; [| discriminate ].
  apply strip_char_Some in H1 as ->.
  destruct (strip_char "{" s1) as [s2|] eqn:H2.
  - apply strip_char_Some in H2 as ->.
    destruct (span key_char s2) as [k s3] eqn:Hsp.
    apply span_spec in Hsp as (-> & Hk & _).
    destruct (falsy k) eqn:Hf; [ discriminate |]. apply falsy_false in Hf.
    destruct (strip_char "}" s3) as [s4|] eqn:H3; [| discriminate ].
    apply strip_char_Some in H3 as ->.
    destruct (strip_char "}" s4) as [s5|] eqn:H4.
    + apply strip_char_Some in H4 as ->. intros [= <- <- <-].
      exists "{", "}". repeat split; auto.
      by norm_app.
    + apply strip_char_None in H4. intros [= <- <- <-].
      exists "{", "". repeat split; auto.
      by norm_app.
  - destruct (span key_char s1) as [k s3] eqn:Hsp.
    apply span_spec in Hsp as (-> & Hk & _).
    destruct (falsy k) eqn:Hf; [ discriminate |]. apply falsy_false in Hf.
    destruct (strip_char "}" s3) as [s4|] eqn:H3; [| discriminate ].
    apply strip_char_Some in H3 as ->.
    destruct (strip_char "}" s4) as [s5|] eqn:H4.
    + apply strip_char_Some in H4 as ->. intros [= <- <- <-].
      exists "", "}". repeat split; auto.
      by norm_app.
    + apply strip_char_None in H4. intros [= <- <- <-].
      exists "", "". repeat split; auto.
      by norm_app.
Qed.

Lemma key_char_not_open (c : ascii) : key_char c = true -> Ascii.eqb c "{" = false.
Proof.
  intros H. destruct (Ascii.eqb_spec c "{") as [-> | _]; [| done ].
  vm_compute in H. discriminate.
Qed.

Lemma strip_open_key (key t : string) :
  key <> "" -> all key_char key = true -> strip_char "{" (key ++ t) = None.
Proof.
  destruct key as [|c key]; [ done |]. intros _ H. simpl in H.
  apply andb_true_iff in H as [Hc _]. rewrite app_cons_s. unfold strip_char.
  by rewrite (key_char_not_open _ Hc).
Qed.

Lemma strip_char_cons (ch : ascii) (s : string) : strip_char ch (String ch s) = Some s.
Proof. by apply strip_char_Some. Qed.

Lemma exec_placeholder_complete (s m key rest : string) :
  placeholder_at s m key rest -> exec_placeholder s = Some (m, key, rest).
Proof.
  intros (ob & cb & -> & -> & Hob & Hne & Hall & Hcb).
  assert (Htail : forall t,
    (let '(k, s3) := span key_char (key ++ String "}" (cb ++ rest)) in
     if falsy k then None
     else match strip_char "}" s3 with
          | None => None
          | Some s4 =>
              let '(cb', s5) := match strip_char "}" s4 with
                                | Some s5 => ("}", s5)
                                | None => ("", s4)
                                end in
              Some ("{" ++ t ++ k ++ "}" ++ cb', k, s5)
          end)
    = Some ("{" ++ t ++ key ++ "}" ++ cb, key, rest)).
  { intros t. rewrite span_app; [| done | apply brace_not_key_char_close ].
    apply falsy_false in Hne. rewrite Hne, strip_char_cons.
    destruct Hcb as [-> | [-> Hrest]].
    - by rewrite app_cons_s, app_nil_s, strip_char_cons.
    - apply strip_char_None in Hrest. by rewrite app_nil_s, Hrest. }
  unfold exec_placeholder.
  destruct Hob as [-> | ->]; norm_app; rewrite strip_char_cons.
  - rewrite strip_open_key by done. specialize (Htail ""). norm_app_in Htail. exact Htail.
  - rewrite strip_char_cons. specialize (Htail "{"). norm_app_in Htail. exact Htail.
Qed.

Lemma exec_placeholder_iff (s m key rest : string) :
  exec_placeholder s = Some (m, key, rest) <-> placeholder_at s m key rest.
Proof. split; [ apply exec_placeholder_sound | apply exec_placeholder_complete ]. Qed.

Lemma exec_placeholder_None (s : string) :
  exec_placeholder s = None <-> forall m key rest, ~ placeholder_at s m key rest.
Proof.
  split.
  - intros H m key rest Hp. apply exec_placeholder_iff in Hp. congruence.
  - intros H. destruct (exec_placeholder s) as [[[m key] rest]|] eqn:He; [| done ].
    apply exec_placeholder_iff in He. by apply H in He.
Qed.

(** A placeholder is never empty, and what follows it is shorter. *)
Lemma placeholder_at_shape (s m key rest : string) :
  placeholder_at s m key rest ->
  exists m', m = String "{" m' /\ s = String "{" (m' ++ rest).
Proof.
  intros (ob & cb & -> & -> & _). exists (ob ++ key ++ "}" ++ cb). by norm_app.
Qed.

Section Replace.
Variable f : string -> string -> string.

Lemma replace_from_skip (a rest : string) :
  replace_from f (String.length a) (a ++ rest) = replace_from f 0 rest.
Proof. induction a as [|c a IH]; [ done |]. rewrite app_cons_s. simpl. apply IH. Qed.

Lemma replace_from_nil : replace_from f 0 "" = "".
Proof. reflexivity. Qed.

Lemma replace_from_match (s m key rest : string) :
  exec_placeholder s = Some (m, key, rest) ->
  replace_from f 0 s = f m key ++ replace_from f 0 rest.
Proof.
  intros He. destruct (placeholder_at_shape s m key rest) as (m' & -> & ->);
    [ by apply exec_placeholder_iff |].
  cbn [replace_from]. rewrite He.
  replace (String.length (String "{" m') - 1)%nat with (String.length m')
    by (simpl; lia).
  by rewrite replace_from_skip.
Qed.

Lemma replace_from_char (a : ascii) (s : string) :
  exec_placeholder (String a s) = None ->
  replace_from f 0 (String a s) = String a (replace_from f 0 s).
Proof. intros He. cbn [replace_from]. by rewrite He. Qed.

End Replace.

Lemma renderMessage_replace (t : string) (c : contact) :
  renderMessage t c = replace_from (substitute c) 0 t.
Proof. by destruct t. Qed.

Lemma matches_from_skip (a rest : string) :
  matches_from (String.length a) (a ++ rest) = matches_from 0 rest.
Proof. induction a as [|c a IH]; [ done |]. rewrite app_cons_s. simpl. apply IH. Qed.

Lemma matches_from_match (s m key rest : string) :
  exec_placeholder s = Some (m, key, rest) ->
  matches_from 0 s = (m, key) :: matches_from 0 rest.
Proof.
  intros He. destruct (placeholder_at_shape s m key rest) as (m' & -> & ->);
    [ by apply exec_placeholder_iff |].
  cbn [matches_from]. rewrite He.
  replace (String.length (String "{" m') - 1)%nat with (String.length m')
    by (simpl; lia).
  by rewrite matches_from_skip.
Qed.

Lemma matches_from_char (a : ascii) (s : string) :
  exec_placeholder (String a s) = None ->
  matches_from 0 (String a s) = matches_from 0 s.
Proof. intros He. cbn [matches_from]. by rewrite He. Qed.

(** Two replacement callbacks that agree on the matches of a template
    give the same result. *)
Lemma replace_from_ext (f g : string -> string -> string) (n : nat) :
  forall t,
    (String.length t <= n)%nat ->
    (forall m key, (m, key) ∈ matches_from 0 t -> f m key = g m key) ->
    replace_from f 0 t = replace_from g 0 t.
Proof.
  induction n as [|n IH]; intros t Hlen Hfg.
  - destruct t; [ done | simpl in Hlen; lia ].
  - destruct t as [|a t]; [ done |].
    destruct (exec_placeholder (String a t)) as [[[m key] rest]|] eqn:He.
    + rewrite (replace_from_match f _ _ _ _ He), (replace_from_match g _ _ _ _ He).
      rewrite (matches_from_match _ _ _ _ He) in Hfg.
      assert (Hp := He). apply exec_placeholder_iff in Hp.
      destruct (placeholder_at_shape _ _ _ _ Hp) as (m' & -> & [= -> ->]).
      rewrite (Hfg _ _ (list_elem_of_here _ _)). f_equal.
      apply IH.
      * simpl in Hlen. rewrite length_app_s in Hlen. lia.
      * intros m key' Hin. apply Hfg. by apply list_elem_of_further.
    + rewrite (replace_from_char f _ _ He), (replace_from_char g _ _ He).
      rewrite (matches_from_char _ _ He) in Hfg. f_equal.
      apply IH; [ simpl in Hlen; lia | done ].
Qed.

(** With no match, nothing is replaced. *)
Lemma replace_from_no_match (f : string -> string -> string) (n : nat) :
  forall t,
    (String.length t <= n)%nat -> matches_from 0 t = [] -> replace_from f 0 t = t.
Proof.
  induction n as [|n IH]; intros t Hlen Hno.
  - destruct t; [ done | simpl in Hlen; lia ].
  - destruct t as [|a t]; [ done |].
    destruct (exec_placeholder (String a t)) as [[[m key] rest]|] eqn:He.
    + by rewrite (matches_from_match _ _ _ _ He) in Hno.
    + rewrite (replace_from_char f _ _ He). f_equal.
      rewrite (matches_from_char _ _ He) in Hno.
      apply IH; [ simpl in Hlen; lia | done ].
Qed.

Lemma unique_from_spec (keys : list string) :
  forall seen,
    (forall k, k ∈ unique_from seen keys <-> k ∈ keys /\ k ∉ seen)
    /\ NoDup (unique_from seen keys)
    /\ sublist (unique_from seen keys) keys.
Proof.
  induction keys as [|k keys IH]; intros seen; simpl.
  - split; [| split; constructor ]. intros k. rewrite elem_of_nil. tauto.
  - destruct (bool_decide (k ∈ seen)) eqn:Hk.
    + apply bool_decide_eq_true in Hk. destruct (IH seen) as (Hin & Hnd & Hsub).
      split; [| split; [ done | by apply sublist_cons ] ].
      intros k'. rewrite Hin, elem_of_cons. split; [ tauto |].
      intros [[-> | H] Hno]; [ done | tauto ].
    + apply bool_decide_eq_false in Hk. destruct (IH (k :: seen)) as (Hin & Hnd & Hsub).
      split; [| split ].
      * intros k'. rewrite !elem_of_cons, Hin, not_elem_of_cons.
        destruct (decide (k' = k)) as [-> | Hne]; [ tauto |]. tauto.
      * constructor; [| done ]. rewrite Hin, not_elem_of_cons. tauto.
      * by apply sublist_skip.
Qed.

Lemma extractPlaceholders_elem (template k : string) :
  k ∈ extractPlaceholders template
  <-> exists m key, (m, key) ∈ matches_from 0 template /\ k = trim key.
Proof.
  unfold extractPlaceholders. destruct template as [|a t].
  - simpl. rewrite elem_of_nil. split; [ done |].
    intros (m & key & H & _). by apply elem_of_nil in H.
  - cbn [falsy]. destruct (unique_from_spec
      (map (fun mk => trim mk.2) (matches_from 0 (String a t))) []) as (Hin & _).
    rewrite Hin. split.
    + intros [H _]. apply list_elem_of_In, in_map_iff in H as ([m key] & <- & H).
      exists m, key. split; [ by apply list_elem_of_In | done ].
    + intros (m & key & H & ->). split; [| apply not_elem_of_nil ].
      apply list_elem_of_In, in_map_iff. exists (m, key).
      split; [ done | by apply list_elem_of_In ].
Qed.

(** The rendering in the sense of [renders] is what [replace] gives
    with the replacement as worded, and nothing else. *)
Lemma renders_fill (c : contact) (n : nat) :
  forall t, (String.length t <= n)%nat -> renders c t (replace_from (fill c) 0 t).
Proof.
  induction n as [|n IH]; intros t Hlen.
  - destruct t; [ constructor | simpl in Hlen; lia ].
  - destruct t as [|a t]; [ constructor |].
    destruct (exec_placeholder (String a t)) as [[[m key] rest]|] eqn:He.
    + rewrite (replace_from_match _ _ _ _ _ He).
      assert (Hp := He). apply exec_placeholder_iff in Hp.
      destruct (placeholder_at_shape _ _ _ _ Hp) as (m' & -> & [= -> ->]).
      assert (Hrest : (String.length rest <= n)%nat).
      { simpl in Hlen. rewrite length_app_s in Hlen. lia. }
      unfold fill at 1. destruct (c !! trim key) as [v|] eqn:Hv.
      * eapply renders_field; eauto.
      * eapply renders_verbatim; eauto.
    + rewrite (replace_from_char _ _ _ He).
      apply renders_char; [ by apply exec_placeholder_None |].
      apply IH. simpl in Hlen. lia.
Qed.

Lemma renders_unique (c : contact) (t out : string) :
  renders c t out -> out = replace_from (fill c) 0 t.
Proof.
  induction 1 as [| s m key rest v out Hp Hv _ IH
                  | s m key rest out Hp Hv _ IH
                  | a s out Hno _ IH ]; [ done | | | ].
  - apply exec_placeholder_iff in Hp.
    rewrite (replace_from_match _ _ _ _ _ Hp). unfold fill at 1.
    by rewrite Hv, IH.
  - apply exec_placeholder_iff in Hp.
    rewrite (replace_from_match _ _ _ _ _ Hp). unfold fill at 1.
    by rewrite Hv, IH.
  - apply exec_placeholder_None in Hno.
    by rewrite (replace_from_char _ _ _ Hno), IH.
Qed.

(** Where no placeholder of the template names an inherited member
    that the contact lacks, the code replaces as worded. *)
Lemma renderMessage_fill (template : string) (c : contact) :
  (forall k, k ∈ extractPlaceholders template -> c !! k = None -> inherited k = None) ->
  renderMessage template c = replace_from (fill c) 0 template.
Proof.
  intros Hsafe. rewrite renderMessage_replace.
  apply (replace_from_ext _ _ (String.length template)); [ done |].
  intros m key Hin. unfold substitute, fill. cbv zeta.
  destruct (c !! trim key) as [v|] eqn:Hv; [ done |].
  rewrite (Hsafe (trim key)); [ done | | done ].
  apply extractPlaceholders_elem. eauto.
Qed.

(** C8.  [renderMessage] replaces each placeholder whose (trimmed)
    name is a field of the contact by the field's value, and copies
    all other text.  A placeholder with no such field is left verbatim
    only if its name is not that of a member of [Object.prototype]:
    [contact[trimmedKey]] is read through the prototype chain, so for
    the contact with first name Amara the template "Hi {constructor}",
    whose one rendering in the sense of [renders] is the template
    itself, comes out with the text of the function [Object] in the
    placeholder's place.  For templates without such a placeholder the
    output is the one and only rendering in the sense of [renders]; in
    particular "Hi {first_name}" renders to "Hi Amara" and
    "Hi {missing}" to itself. *)
Theorem renderMessage_inherited_member :
  renderMessage "Hi {constructor}" amara = "Hi function Object() { [native code] }"
  /\ renders amara "Hi {constructor}" "Hi {constructor}"
  /\ ~ renders amara "Hi {constructor}" (renderMessage "Hi {constructor}" amara)
  /\ (forall (template : string) (c : contact),
        (forall k, k ∈ extractPlaceholders template ->
                   c !! k = None -> inherited k = None) ->
        forall out, renders c template out <-> out = renderMessage template c)
  /\ renderMessage "Hi {first_name}" amara = "Hi Amara"
  /\ renderMessage "Hi {missing}" amara = "Hi {missing}".
Proof.
  split; [ reflexivity |]. split; [| split; [| split; [| split; reflexivity ] ] ].
  - exact (renders_fill amara (String.length "Hi {constructor}") "Hi {constructor}"
             (le_n _)).
  - intros H. apply renders_unique in H. vm_compute in H. discriminate.
  - intros template c Hsafe out. rewrite (renderMessage_fill template c Hsafe).
    split; [ apply renders_unique |].
    intros ->. by apply (renders_fill c (String.length template)).
Qed.

(** ** whatsappUtils *)

Lemma getRandomDelay_range (r : random) (min max : Z) :
  in_unit_interval r -> (min <= max)%Z ->
  (min <= getRandomDelay r min max <= max)%Z.
Proof.
  intros [Hn Hd] Hle. unfold getRandomDelay.
  assert (0 <= rnd_num r * (max - min + 1) / rnd_den r)%Z
    by (apply Z.div_pos; nia).
  assert (rnd_num r * (max - min + 1) / rnd_den r < max - min + 1)%Z
    by (apply Z.div_lt_upper_bound; nia).
  lia.
Qed.

(** A cooldown is between 30 and 60 seconds, and is due exactly when
    the count is a positive multiple of the interval. *)
Lemma getCooldownDelay_window (r : random) (messageCount : Z) :
  in_unit_interval r ->
  (cooldownDue messageCount 20 = true
   /\ (30000 <= getCooldownDelay r messageCount 20 <= 60000)%Z)
  \/ (cooldownDue messageCount 20 = false
      /\ getCooldownDelay r messageCount 20 = 0%Z).
Proof.
  intros Hr. unfold getCooldownDelay. destruct (cooldownDue messageCount 20).
  - left. split; [ done |]. by apply getRandomDelay_range.
  - by right.
Qed.

(** ** BulkSender: what each piece of [handleStart] touches *)

Section Dispatch.
Variable contacts : list contact.
Variable messages : list preview.
Variable random_source : nat -> random.
Variable window_open : nat -> bool.

Local Abbreviation len := (len contacts).
Local Abbreviation setProgress := (setProgress contacts).
Local Abbreviation cooldownCheck := (cooldownCheck random_source).
Local Abbreviation afterCountdown := (afterCountdown random_source).
Local Abbreviation countdown := (countdown random_source).
Local Abbreviation attempt := (attempt contacts messages random_source window_open).
Local Abbreviation pauseLoop := (pauseLoop contacts messages random_source window_open).
Local Abbreviation loopBody := (loopBody contacts messages random_source window_open).
Local Abbreviation finishSending := (finishSending contacts).
Local Abbreviation forLoop := (forLoop contacts messages random_source window_open).
Local Abbreviation proceed := (proceed contacts messages random_source window_open).
Local Abbreviation handleStart := (handleStart contacts messages random_source window_open).
Local Abbreviation resume := (resume contacts messages random_source window_open).
Local Abbreviation step := (step contacts messages random_source window_open).
Local Abbreviation clickStart := (clickStart contacts messages random_source window_open).
Local Abbreviation progress_of := (progress_of contacts).
Local Abbreviation counted := (counted contacts).
Local Abbreviation inv := (inv contacts).

(** The waits between attempts leave the counters, the trace and
    the refs alone; they end in a wait of their own, in the next
    iteration, or in [break] when sending was stopped. *)
Lemma countdown_frame (s : Z) (lc : locals) (st : state) :
  match countdown s lc st with
  | (ctl, lc', st') =>
      lc' = lc /\ progress st' = progress st /\ trace st' = trace st
      /\ sendingRef st' = sendingRef st /\ sending st' = sending st
      /\ reports st' = reports st /\ clock st' = clock st
      /\ (ctl = CBreak \/ ctl = CNext
          \/ (exists ms, ctl = CAwait KCooldown ms)
          \/ (exists s', ctl = CAwait (KCountdown s') 1000))
      /\ (sendingRef st = false -> ctl = CBreak /\ st' = st)
  end.
Proof.
  unfold BulkSender.countdown, BulkSender.afterCountdown, BulkSender.cooldownCheck.
  destruct (sendingRef st) eqn:Href; simpl.
  - destruct (0 <? s)%Z.
    + repeat split; eauto 10. discriminate.
    + destruct (0 <? getCooldownDelay _ _ _)%Z; destruct (cooldownDue _ _);
        simpl; repeat split; eauto 10; discriminate.
  - destruct (0 <? s)%Z; repeat split; eauto.
Qed.

(** Clicks reach only the flags, the log and the clock. *)
Lemma onClick_frame (c : click) (st : state) :
  progress (onClick c st) = progress st /\ trace (onClick c st) = trace st
  /\ reports (onClick c st) = reports st /\ loop (onClick c st) = loop st.
Proof.
  unfold onClick. destruct (sending st); [| done ].
  destruct c; unfold handlePause, handleStop; [ destruct (paused st) |]; done.
Qed.

Lemma deliver_frame (d : Z) (cs : list (Z * click)) :
  forall st,
    progress (deliver d cs st) = progress st /\ trace (deliver d cs st) = trace st
    /\ reports (deliver d cs st) = reports st /\ loop (deliver d cs st) = loop st.
Proof.
  induction cs as [|[t c] cs IH]; intros st; simpl; [ done |].
  destruct (t <=? d)%Z; [| done ].
  destruct (IH (onClick c (set_clock (Z.max (clock st) t) st))) as (-> & -> & -> & ->).
  by destruct (onClick_frame c (set_clock (Z.max (clock st) t) st)) as (-> & -> & -> & ->).
Qed.

Lemma elapse_frame (w : site) (ms : Z) (st : state) :
  progress (elapse w ms st) = progress st
  /\ trace (elapse w ms st) = EvDelay w ms :: trace st
  /\ reports (elapse w ms st) = reports st
  /\ loop (elapse w ms st) = loop st
  /\ clock (elapse w ms st) = (clock st + ms)%Z.
Proof.
  unfold elapse. simpl.
  destruct (deliver_frame (clock st + ms) (clicks st) (record (EvDelay w ms) st))
    as (-> & -> & -> & ->).
  done.
Qed.

Lemma openWhatsAppWeb_effect (i : nat) (p : option string) (m : string) (st : state) :
  match openWhatsAppWeb window_open i p m st with
  | (o, st') =>
      trace st' = EvOpen i p m o :: trace st /\ progress st' = progress st
      /\ reports st' = reports st
  end.
Proof.
  unfold openWhatsAppWeb. destruct (negb (truthy p)); done.
Qed.

(** One pass through the [try] block: the attempt is recorded, at
    most one transport call is made, one of the two counters goes up
    by one and the progress is set from the counters. *)
Lemma attempt_effect (c : contact) (lc : locals) (st : state) :
  match attempt c lc st with
  | (ctl, lc', st') =>
      (lc' = inc_sent lc \/ lc' = inc_failed lc)
      /\ progress st' = progress_of lc'
      /\ (trace st' = EvAttempt (l_i lc) :: trace st
          \/ exists p m o, trace st' = EvOpen (l_i lc) p m o :: EvAttempt (l_i lc) :: trace st)
      /\ reports st' = reports st
      /\ (ctl = CBreak \/ ctl = CNext
          \/ (exists ms, ctl = CAwait KCooldown ms)
          \/ (exists s', ctl = CAwait (KCountdown s') 1000))
  end.
Proof.
  unfold BulkSender.attempt.
  destruct (messages !! l_i lc) as [message|]; [| simpl; repeat split; eauto 10 ].
  set (st0 := addLog _ StSending _ _).
  pose proof (openWhatsAppWeb_effect (l_i lc) (contact_phone c)
                (pv_message message) st0) as Ho.
  destruct (openWhatsAppWeb _ _ _ _ st0) as [opened st1].
  destruct Ho as (Htr & Hpr & Hrep).
  set (lc1 := if opened then inc_sent lc else inc_failed lc).
  set (st2 := setProgress lc1 _).
  assert (H2 : progress st2 = progress_of lc1 /\ trace st2 = trace st1
               /\ reports st2 = reports st1).
  { subst st2. by destruct opened. }
  destruct H2 as (Hp2 & Ht2 & Hr2).
  assert (Hlc : lc1 = inc_sent lc \/ lc1 = inc_failed lc).
  { subst lc1. destruct opened; auto. }
  assert (Htrace : exists p m o,
             trace st2 = EvOpen (l_i lc) p m o :: EvAttempt (l_i lc) :: trace st).
  { rewrite Ht2, Htr. eauto. }
  clearbody st2 lc1.
  destruct (Z.of_nat (l_i lc) <? len - 1)%Z.
  - unfold mathRandom. cbv beta iota zeta.
    match goal with
    | |- context [countdown ?s ?l ?t] =>
        pose proof (countdown_frame s l t) as Hf;
        destruct (countdown s l t) as [[ctl lc'] st']
    end.
    destruct Hf as (-> & -> & -> & _ & _ & -> & _ & Hctl & _).
    simpl. rewrite Hr2, Hrep. repeat split; auto.
  - rewrite Hr2, Hrep. repeat split; auto.
Qed.

(** The head of the loop body either leaves without an attempt, on
    [break] or into the pause poll, or makes the attempt. *)
Lemma loopBody_effect (c : contact) (lc : locals) (st : state) :
  match loopBody c lc st with
  | (ctl, lc', st') =>
      (lc' = lc /\ progress st' = progress st /\ trace st' = trace st
       /\ reports st' = reports st
       /\ (ctl = CBreak \/ ctl = CAwait KPause 500))
      \/ (sendingRef st = true /\ (ctl, lc', st') = attempt c lc st)
  end.
Proof.
  unfold BulkSender.loopBody, BulkSender.pauseLoop.
  destruct (sendingRef st); cbn [negb]; [| left; repeat split; auto ].
  destruct (pausedRef st); [ left; repeat split; auto |].
  destruct (attempt c lc st) as [[ctl lc'] st']. by right.
Qed.

Lemma pauseLoop_effect (c : contact) (lc : locals) (st : state) :
  match pauseLoop c lc st with
  | (ctl, lc', st') =>
      (lc' = lc /\ st' = st /\ (ctl = CBreak \/ ctl = CAwait KPause 500))
      \/ (sendingRef st = true /\ (ctl, lc', st') = attempt c lc st)
  end.
Proof.
  unfold BulkSender.pauseLoop.
  destruct (pausedRef st); destruct (sendingRef st); cbn [negb]; auto 10.
  destruct (attempt c lc st) as [[ctl lc'] st']. by right.
Qed.

Lemma finishSending_frame (lc : locals) (st : state) :
  progress (finishSending lc st) = progress st
  /\ trace (finishSending lc st) = trace st
  /\ loop (finishSending lc st) = None
  /\ sendingRef (finishSending lc st) = false
  /\ sending (finishSending lc st) = false.
Proof.
  unfold BulkSender.finishSending.
  destruct (reports st); destruct (l_sent lc + l_failed lc =? len)%Z;
    repeat split; reflexivity.
Qed.

(** *** What the trace and the counters say about each other *)

Lemma attempts_cons (e : event) (tr : list event) :
  attempts (e :: tr)
  = (attempts tr ++ match attempt_index e with Some i => [i] | None => [] end)%list.
Proof.
  unfold attempts. simpl. rewrite omap_app. simpl.
  by destruct (attempt_index e).
Qed.

Lemma counted_frame G base start (st st' : state) :
  progress st' = progress st ->
  attempts (trace st') = attempts (trace st) ->
  counted G base start st -> counted G base start st'.
Proof. unfold counted. by intros -> ->. Qed.

Lemma counted_attempt G base start (c : contact) (lc : locals) (st : state) :
  counted G base start st ->
  aligned 0 lc st ->
  match attempt c lc st with
  | (ctl, lc', st') =>
      counted G base start st' /\ aligned 1 lc' st' /\ l_i lc' = l_i lc
      /\ forall ms, ctl <> CAwait KPause ms
  end.
Proof.
  intros (Hg & Hs & Hf & Hst & Hatt) (Hls & Hlf & Hi).
  pose proof (attempt_effect c lc st) as He.
  destruct (attempt c lc st) as [[ctl lc'] st'].
  destruct He as (Hlc & Hp & Htr & _ & Hctl).
  assert (Hatt' : attempts (trace st') = (attempts (trace st) ++ [l_i lc])%list).
  { destruct Htr as [-> | (p & m & o & ->)]; rewrite !attempts_cons; simpl;
      by rewrite ?app_nil_r. }
  assert (Hseq : forall n : Z,
    (n = sent (progress st) + failed (progress st))%Z ->
    (seq (Z.to_nat start) (Z.to_nat (n + 1 - start))
     = seq (Z.to_nat start) (Z.to_nat (n - start)) ++ [l_i lc])%list).
  { intros n ->. replace (Z.to_nat (_ + 1 - start)) with (S (Z.to_nat
      (sent (progress st) + failed (progress st) - start))) by lia.
    rewrite seq_S. do 2 f_equal. lia. }
  unfold counted, aligned. rewrite Hp, Hatt', Hatt.
  split; [| split; [| split ] ].
  - destruct Hlc as [-> | ->]; simpl; (split; [ intros _; lia |]);
      (split; [ lia |]); (split; [ lia |]); (split; [ lia |]);
      rewrite <- app_assoc; f_equal; rewrite Hls, Hlf.
    + rewrite <- (Hseq _ eq_refl). f_equal. lia.
    + rewrite <- (Hseq _ eq_refl). f_equal. lia.
  - destruct Hlc as [-> | ->]; simpl; repeat split; lia.
  - by destruct Hlc as [-> | ->].
  - intros ms ->. destruct Hctl as [? | [? | [[? ?] | [? ?]]]]; discriminate.
Qed.

Lemma finishSending_inv G base start (lc : locals) (st : state) :
  counted G base start st -> inv G base start (finishSending lc st).
Proof.
  intros Hc. destruct (finishSending_frame lc st) as (Hp & Ht & Hl & _).
  split.
  - apply (counted_frame _ _ _ st); [ done | by rewrite Ht | done ].
  - intros fr. rewrite Hl. discriminate.
Qed.

Lemma suspend_inv G base start (k : cont) (ms : Z) (lc : locals) (st : state) :
  counted G base start st ->
  control_ok (CAwait k ms) lc st ->
  inv G base start (suspend k ms lc st).
Proof.
  intros Hc Hok. split; [ exact Hc |].
  intros fr [= <-]. unfold next_index. simpl.
  destruct k; destruct Hok as (? & ? & ?); repeat split; auto; lia.
Qed.

Lemma aligned_next (lc : locals) (st : state) :
  aligned 1 lc st -> aligned 0 (inc_i lc) st.
Proof. intros (? & ? & ?). repeat split; simpl; auto; lia. Qed.

Lemma loopBody_inv G base start (c : contact) (lc : locals) (st : state) :
  counted G base start st ->
  aligned 0 lc st ->
  match loopBody c lc st with
  | (ctl, lc', st') => counted G base start st' /\ control_ok ctl lc' st'
  end.
Proof.
  intros Hc Ha. pose proof (loopBody_effect c lc st) as He.
  pose proof (counted_attempt G base start c lc st Hc Ha) as Hatt.
  destruct (loopBody c lc st) as [[ctl lc'] st'].
  destruct He as [(-> & Hp & Ht & _ & Hctl) | (_ & Heq)].
  - split; [ apply (counted_frame _ _ _ st); auto; by rewrite Ht |].
    destruct Hctl as [-> | ->]; [ done |].
    unfold control_ok, aligned. by rewrite Hp.
  - rewrite <- Heq in Hatt.
    destruct Hatt as (Hc' & Ha' & _ & Hk). split; [ done |].
    destruct ctl as [[] ms| |]; simpl; auto. by destruct (Hk ms).
Qed.

Lemma forLoop_inv G base start (rest : list contact) :
  forall lc st,
    counted G base start st ->
    aligned 0 lc st ->
    inv G base start (forLoop rest lc st).
Proof.
  induction rest as [|c rest IH]; intros lc st Hc Ha; simpl.
  - by apply finishSending_inv.
  - pose proof (loopBody_inv G base start c lc st Hc Ha) as Hb.
    destruct (loopBody c lc st) as [[ctl lc'] st'].
    destruct Hb as [Hc' Hok]. destruct ctl as [k ms| |].
    + by apply suspend_inv.
    + apply IH; [ done | by apply aligned_next ].
    + by apply finishSending_inv.
Qed.

Lemma proceed_inv G base start (ctl : control) (lc : locals) (st : state) :
  counted G base start st ->
  control_ok ctl lc st ->
  inv G base start (proceed (ctl, lc, st)).
Proof.
  intros Hc Hok. unfold BulkSender.proceed. destruct ctl as [k ms| |].
  - by apply suspend_inv.
  - apply forLoop_inv; [ done | by apply aligned_next ].
  - by apply finishSending_inv.
Qed.

Lemma resume_inv G base start (fr : frame) (st : state) :
  inv G base start st -> loop st = Some fr ->
  inv G base start (resume fr st).
Proof.
  intros [Hc Hfr] Hl. destruct (Hfr fr Hl) as (Hs & Hf & Hn).
  unfold BulkSender.resume, BulkSender.after_wait.
  destruct (elapse_frame (site_of (f_k fr)) (f_ms fr) st) as (Hp & Ht & _).
  set (st1 := elapse _ _ st) in *.
  assert (Hc1 : counted G base start st1).
  { apply (counted_frame _ _ _ st); [ done | | done ].
    by rewrite Ht, attempts_cons, app_nil_r. }
  clearbody st1. unfold next_index in Hn.
  destruct (f_k fr) as [| s |].
  - assert (Ha : aligned 0 (f_locals fr) st1).
    { unfold aligned. rewrite Hp. repeat split; auto; lia. }
    destruct (drop _ contacts) as [|c rest]; [ by apply finishSending_inv |].
    pose proof (pauseLoop_effect c (f_locals fr) st1) as He.
    pose proof (counted_attempt G base start c (f_locals fr) st1 Hc1 Ha) as Hatt.
    destruct (pauseLoop c (f_locals fr) st1) as [[ctl lc'] st'].
    apply proceed_inv.
    + destruct He as [(-> & -> & _) | (_ & Heq)]; [ done |].
      rewrite <- Heq in Hatt. by destruct Hatt.
    + destruct He as [(-> & -> & [-> | ->]) | (_ & Heq)]; [ done | done |].
      rewrite <- Heq in Hatt. destruct Hatt as (_ & Ha' & _ & Hk).
      destruct ctl as [[] ms| |]; simpl; auto. by destruct (Hk ms).
  - assert (Ha : aligned 1 (f_locals fr) st1).
    { unfold aligned. rewrite Hp. repeat split; auto; lia. }
    pose proof (countdown_frame (s - 1) (f_locals fr) st1) as He.
    destruct (countdown (s - 1) (f_locals fr) st1) as [[ctl lc'] st'].
    destruct He as (-> & Hp' & Ht' & _ & _ & _ & _ & Hctl & _).
    apply proceed_inv.
    + apply (counted_frame _ _ _ st1); auto. by rewrite Ht'.
    + assert (Ha' : aligned 1 (f_locals fr) st') by (unfold aligned; by rewrite Hp').
      destruct Hctl as [-> | [-> | [[ms ->] | [s' ->]]]]; done.
  - apply proceed_inv; [ done |].
    unfold control_ok, aligned. rewrite Hp. repeat split; auto; lia.
Qed.

Lemma handleStart_inv G base start (st : state) :
  counted G base start st -> loop st = None ->
  inv G base start (handleStart st).
Proof.
  intros Hc Hl. unfold BulkSender.handleStart.
  destruct (_ || _).
  - split; [ done |]. intros fr. rewrite Hl. discriminate.
  - apply forLoop_inv; [ exact Hc |].
    destruct Hc as (_ & Hs & Hf & _). unfold aligned. simpl.
    repeat split. lia.
Qed.

Lemma step_inv G base start (st st' : state) :
  inv G base start st -> step st st' -> inv G base start st'.
Proof.
  intros Hinv Hstep. destruct Hstep as [st fr Hl | st t cs Hl Ht].
  - by apply resume_inv.
  - apply handleStart_inv; [| done ]. by destruct Hinv.
Qed.

Lemma rtc_inv G base start (st st' : state) :
  inv G base start st -> rtc step st st' -> inv G base start st'.
Proof. intros Hinv Hr. induction Hr; eauto using step_inv. Qed.

(** The invariant holds at an idle state from which the count
    starts afresh. *)
Lemma inv_start (G : Prop) (st : state) :
  loop st = None ->
  (0 <= sent (progress st))%Z -> (0 <= failed (progress st))%Z ->
  (G -> sent (progress st) + failed (progress st) + pending (progress st)
        = total (progress st) /\ total (progress st) = len)%Z ->
  inv G (attempts (trace st)) (sent (progress st) + failed (progress st)) st.
Proof.
  intros Hl Hs Hf Hg. split.
  - repeat split; try lia; try (by apply Hg).
    rewrite Z.sub_diag. simpl. by rewrite app_nil_r.
  - intros fr. rewrite Hl. discriminate.
Qed.

(** C1.  At every state the component can be observed in, from
    mounting on and through any sequence of starts, waits, pause and
    stop clicks, [sent + failed + pending = total] and [total] is the
    length of the contact list; the same holds of the record written
    by every call of [setProgress], after successful and failed
    attempts alike. *)
Theorem progress_adds_up (store : stored) (cs : list (Z * click)) (st : state) :
  rtc step (mount contacts store cs) st ->
  (sent (progress st) + failed (progress st) + pending (progress st)
   = total (progress st) /\ total (progress st) = len)%Z
  /\ forall lc st0,
       let p := progress (setProgress lc st0) in
       (sent p + failed p + pending p = total p /\ total p = len)%Z.
Proof.
  intros Hr. split.
  - assert (Hinv : inv True [] 0 (mount contacts store cs)).
    { apply (inv_start True (mount contacts store cs)); simpl; try done; lia. }
    apply (rtc_inv _ _ _ _ _ Hinv) in Hr. destruct Hr as [(Hg & _) _]. by apply Hg.
  - intros lc st0. simpl. lia.
Qed.

(** Where calls do not overlap, that is, where Start is not clicked
    while a stopped call is still suspended: let the component be idle
    with counters [sent] and [failed].  However it goes on from there,
    the contacts attempted since are those of index [sent + failed],
    [sent + failed + 1], ... in this order, each once, up to the
    current value of [sent + failed]; and whenever a call is suspended,
    the index it attempts next is the current [sent + failed].  In
    particular a component over ten contacts that was stopped at
    [sent = 3], [failed = 1] attempts index 4 when it is started
    again. *)
Lemma next_attempt_is_sent_plus_failed (st0 st : state) :
  loop st0 = None ->
  (0 <= sent (progress st0))%Z -> (0 <= failed (progress st0))%Z ->
  rtc step st0 st ->
  let n0 := (sent (progress st0) + failed (progress st0))%Z in
  let n := (sent (progress st) + failed (progress st))%Z in
  (n0 <= n)%Z
  /\ attempts (trace st)
     = (attempts (trace st0) ++ seq (Z.to_nat n0) (Z.to_nat (n - n0)))%list
  /\ (forall fr, loop st = Some fr -> Z.of_nat (next_index fr) = n)
  /\ attempts (trace ten_resumed) = [4%nat].
Proof.
  intros Hl Hs Hf Hr n0 n.
  assert (Hinv : inv False (attempts (trace st0)) n0 st0).
  { by apply inv_start. }
  apply (rtc_inv _ _ _ _ _ Hinv) in Hr.
  destruct Hr as [(_ & _ & _ & Hn & Hatt) Hfr].
  split; [ lia |]. split; [ exact Hatt |]. split; [| reflexivity ].
  intros fr Hfr'. by destruct (Hfr fr Hfr') as (_ & _ & ?).
Qed.

(** C6.  Once every contact was attempted, invoking start again does
    nothing: the Start button, the one place from which [handleStart]
    is called, is disabled at 100%, so that the state, with its
    progress counters, its log and the stored reports, stays as it is
    and no transport call is made.  [handleStart] itself, were it
    entered, would make no attempt and no transport call either, leave
    the trace and the progress counters as they are and suspend
    nothing. *)
Theorem start_when_completed (st : state) :
  Completed contacts st ->
  trace (handleStart st) = trace st
  /\ transport_calls (trace (handleStart st)) = transport_calls (trace st)
  /\ progress (handleStart st) = progress st
  /\ loop (handleStart st) = None
  /\ clickStart st = st.
Proof.
  intros (Hl & Hsf & Htot).
  assert (Hstart : trace (handleStart st) = trace st
                   /\ progress (handleStart st) = progress st
                   /\ loop (handleStart st) = None).
  { unfold BulkSender.handleStart. destruct (_ || _); [ done |]. simpl.
    rewrite Hsf, Htot. unfold BulkSender.len. rewrite Nat2Z.id, drop_all. simpl.
    match goal with
    | |- context [finishSending ?l ?t] =>
        destruct (finishSending_frame l t) as (-> & -> & -> & _)
    end. done. }
  destruct Hstart as (Ht & Hp & Hl'). rewrite Ht.
  repeat split; auto.
  unfold BulkSender.clickStart. destruct (sending st); [ done |].
  destruct (Z.eqb_spec (progressPercent st) 100) as [_ | Hne]; [ done |].
  unfold BulkSender.handleStart.
  destruct (Z.eqb_spec len 0) as [_ | Hlen]; [ done |].
  exfalso. apply Hne. unfold progressPercent. rewrite Hsf, Htot.
  assert (0 < len)%Z by (unfold BulkSender.len in *; lia).
  destruct (Z.ltb_spec 0 len); [| lia ].
  symmetry. apply Z.div_unique with (r := len); lia.
Qed.

End Dispatch.

(** ** The theorems at work on sample runs *)

Lemma progress_adds_up_witness :
  rtc (step (batch 3) (greetings (batch 3)) no_random always_open)
      three_idle three_started
  /\ (sent (progress three_started) + failed (progress three_started)
        + pending (progress three_started) = total (progress three_started))%Z.
Proof.
  assert (Hr : rtc (step (batch 3) (greetings (batch 3)) no_random always_open)
                   three_idle three_started).
  { apply rtc_once. apply step_start; [ reflexivity | simpl; lia ]. }
  split; [ exact Hr |].
  exact (proj1 (proj1 (progress_adds_up (batch 3) (greetings (batch 3)) no_random
                         always_open Absent [] three_started Hr))).
Defined.

Lemma next_attempt_is_sent_plus_failed_witness :
  loop ten_stopped = None
  /\ rtc (step (batch 10) (greetings (batch 10)) no_random always_open)
         ten_stopped ten_resumed
  /\ attempts (trace ten_resumed) = (attempts (trace ten_stopped) ++ seq 4 1)%list.
Proof.
  assert (Hr : rtc (step (batch 10) (greetings (batch 10)) no_random always_open)
                   ten_stopped ten_resumed).
  { apply rtc_once. apply step_start; [ reflexivity | simpl; lia ]. }
  split; [ reflexivity |]. split; [ exact Hr |].
  destruct (next_attempt_is_sent_plus_failed (batch 10) (greetings (batch 10))
              no_random always_open ten_stopped ten_resumed) as (_ & H & _);
    [ reflexivity | simpl; lia | simpl; lia | exact Hr | exact H ].
Defined.

Lemma start_when_completed_witness :
  Completed (batch 1) one_done
  /\ progress (start 1 always_open one_done) = progress one_done
  /\ clickStart (batch 1) (greetings (batch 1)) no_random always_open one_done
     = one_done.
Proof.
  assert (Hc : Completed (batch 1) one_done) by (repeat split; reflexivity).
  split; [ exact Hc |].
  destruct (start_when_completed (batch 1) (greetings (batch 1)) no_random
              always_open one_done Hc) as (_ & _ & Hp & _ & Hk).
  split; [ exact Hp | exact Hk ].
Defined.

(** C2, on three contacts: Start, Stop in the wait after the first
    attempt, and Start again before the timer of the stopped call has
    fired.  The second call sets out at index [sent + failed = 1] and
    attempts it; the stopped call is still suspended beside it, and
    the index it attempts next, 1, is below [sent + failed = 2].  It
    finds [sendingRef] true again when its timer fires and goes on.
    Eleven timers later both calls have ended: index 1 was attempted
    twice, and four transport calls were made for three contacts. *)
Theorem restart_repeats_an_attempt :
  (fun w => (progress (page w), map (fun c => next_index (c_frame c)) (waiting w)))
    <$> play 3 always_open stop_and_restart
  = Some ({| sent := 2; failed := 0; pending := 1; total := 3 |}, [1%nat; 2%nat])
  /\ (fun w => (attempts (trace (page w)), waiting w, progress (page w),
                List.length (transport_calls (trace (page w)))))
       <$> play 3 always_open (stop_and_restart ++ replicate 11 Timer)
     = Some ([0%nat; 1%nat; 1%nat; 2%nat], [],
             {| sent := 3; failed := 0; pending := 0; total := 3 |}, 4%nat).
Proof. split; vm_compute; reflexivity. Qed.

(** C5, on three contacts: Stop is clicked in the wait between the
    first attempt and the second, and Start again a tenth of a second
    later.  When Stop has been handled [sendingRef] is false and the
    call waits in its countdown; the second Start sets it to true
    before the timer of that call fires, so the countdown runs on to
    its last second, and when that timer fires the stopped call opens
    WhatsApp for the contact of index 1. *)
Theorem stopped_call_goes_on :
  (fun w => (sendingRef (page w), waiting w))
    <$> play 3 always_open [Start 0; Click 500 ClickStop]
  = Some (false, [stopped_call])
  /\ (fun w => (fst <$> earliest (waiting w), transport_calls (trace (page w))))
       <$> play 3 always_open (stop_and_restart ++ replicate 8 Timer)
     = Some (Some stopped_call_last_second,
             [ EvOpen 1 (Some "+25670000001") "Hi Amara" true;
               EvOpen 0 (Some "+25670000000") "Hi Amara" true ])
  /\ (fun w => take 3 (trace (page w)))
       <$> play 3 always_open (stop_and_restart ++ replicate 9 Timer)
     = Some [ EvOpen 1 (Some "+25670000001") "Hi Amara" true; EvAttempt 1;
              EvDelay Countdown 1000 ].
Proof. repeat split; vm_compute; reflexivity. Qed.

(** C3, on twenty-two contacts of which the twenty-first cannot be
    opened: twenty-one sends succeed, yet the cooldown is inserted
    twice, after the twentieth success and again after the failure that
    follows it, while [sent] stands at 20. *)
Theorem cooldown_repeats_after_failure :
  loop failure_after_twenty = None
  /\ progress failure_after_twenty
     = {| sent := 21; failed := 1; pending := 0; total := 22 |}
  /\ List.length (cooldowns (trace failure_after_twenty)) = 2%nat
  /\ take 8 (without_ticks (trace failure_after_twenty))
     = [ EvOpen 21 (Some "+256700000021") "Hi Amara" true; EvAttempt 21;
         EvDelay Cooldown 30000;
         EvOpen 20 (Some "+256700000020") "Hi Amara" false; EvAttempt 20;
         EvDelay Cooldown 30000;
         EvOpen 19 (Some "+256700000019") "Hi Amara" true; EvAttempt 19 ].
Proof. repeat split; vm_compute; reflexivity. Qed.

(** C4, on twenty-one contacts with Stop clicked one millisecond into
    the cooldown: the cooldown is one wait of 30 s, the click at
    100001 ms is first looked at when that wait is over, at 130000 ms,
    and only then does the call end. *)
Theorem cooldown_runs_to_its_end :
  loop in_cooldown
  = Some {| f_locals := {| l_sent := 20; l_failed := 0; l_i := 19; l_log := [] |};
            f_k := KCooldown; f_ms := 30000 |}
  /\ clock in_cooldown = 100000%Z
  /\ clicks in_cooldown = [(100001%Z, ClickStop)]
  /\ sending in_cooldown = true
  /\ step (batch 21) (greetings (batch 21)) no_random always_open
          in_cooldown after_cooldown
  /\ head (trace after_cooldown) = Some (EvDelay Cooldown 30000)
  /\ clock after_cooldown = 130000%Z
  /\ head (log after_cooldown)
     = Some {| le_phone := SYSTEM; le_status := StInfo;
               le_message := "Sending stopped by user";
               le_timestamp := 130000 |}
  /\ loop after_cooldown = None.
Proof.
  assert (Hl : loop in_cooldown
    = Some {| f_locals := {| l_sent := 20; l_failed := 0; l_i := 19; l_log := [] |};
              f_k := KCooldown; f_ms := 30000 |}) by (vm_compute; reflexivity).
  split; [ exact Hl |].
  do 3 (split; [ vm_compute; reflexivity |]).
  split.
  - unfold after_cooldown, go. cbn [run]. rewrite Hl. by apply step_resume.
  - do 3 (split; [ vm_compute; reflexivity |]). vm_compute; reflexivity.
Qed.

(** * Further properties *)

Import fileParser HomePage Facts.

(** ** Strings, continued *)

Lemma all_app (p : ascii -> bool) (a b : string) :
  all p (a ++ b) = all p a && all p b.
Proof.
  induction a as [|c a IH]; [ done |].
  rewrite app_cons_s. simpl. rewrite IH. by rewrite andb_assoc.
Qed.

Lemma keep_app (p : ascii -> bool) (a b : string) :
  keep p (a ++ b) = keep p a ++ keep p b.
Proof.
  induction a as [|c a IH]; [ done |].
  rewrite app_cons_s. simpl. destruct (p c); by rewrite IH.
Qed.

Lemma keep_all_id (p : ascii -> bool) (s : string) :
  all p s = true -> keep p s = s.
Proof.
  induction s as [|c s IH]; simpl; [ done |].
  intros [Hc Hs]%andb_true_iff. by rewrite Hc, IH.
Qed.

Lemma all_keep (p : ascii -> bool) (s : string) : all p (keep p s) = true.
Proof.
  induction s as [|c s IH]; simpl; [ done |].
  destruct (p c) eqn:Hc; simpl; by rewrite ?Hc, ?IH.
Qed.

Lemma all_impl (p q : ascii -> bool) (s : string) :
  (forall c, p c = true -> q c = true) -> all p s = true -> all q s = true.
Proof.
  intros Hpq. induction s as [|c s IH]; simpl; [ done |].
  intros [Hc Hs]%andb_true_iff. by rewrite (Hpq _ Hc), IH.
Qed.

Lemma startsWith_app (p s : string) : startsWith (p ++ s) p = true.
Proof.
  induction p as [|c p IH]; [ done |].
  rewrite app_cons_s. simpl. by rewrite Ascii.eqb_refl, IH.
Qed.

Lemma startsWith_split (s p : string) :
  startsWith s p = true <-> exists t, s = p ++ t.
Proof.
  split.
  - revert s. induction p as [|c p IH]; intros s H; [ by exists s |].
    destruct s as [|a s]; simpl in H; [ done |].
    apply andb_true_iff in H as [Hc Hp]. apply Ascii.eqb_eq in Hc as ->.
    destruct (IH _ Hp) as [t ->]. by exists t.
  - intros [t ->]. apply startsWith_app.
Qed.

Lemma startsWith_comparable (s a b : string) :
  startsWith s a = true -> startsWith s b = true ->
  startsWith a b = true \/ startsWith b a = true.
Proof.
  revert s b. induction a as [|x a IH]; intros s b Ha Hb; [ by right |].
  destruct b as [|y b]; [ by left |].
  destruct s as [|c s]; simpl in *; [ done |].
  apply andb_true_iff in Ha as [Hx Ha]. apply andb_true_iff in Hb as [Hy Hb].
  apply Ascii.eqb_eq in Hx as ->. apply Ascii.eqb_eq in Hy as ->.
  rewrite Ascii.eqb_refl. simpl. by apply (IH s).
Qed.

Lemma substring_from_app (a b : string) :
  substring_from (String.length a) (a ++ b) = b.
Proof. induction a as [|c a IH]; [ by destruct b | by rewrite app_cons_s ]. Qed.

Lemma remove_first_prefix (p s : string) :
  remove_first p (p ++ s) = s.
Proof.
  destruct (p ++ s) as [|c t] eqn:E.
  - destruct p as [|x p]; [| by rewrite app_cons_s in E ].
    rewrite app_nil_s in E. by subst s.
  - cbn [remove_first]. rewrite <- E. by rewrite startsWith_app, substring_from_app.
Qed.

(** ** phoneUtils, continued *)

Lemma clean_phone_chars (phone : string) : all phone_char (clean phone) = true.
Proof. apply all_keep. Qed.

Lemma digitsOnly_digits (s : string) :
  all phone_char s = true <-> all is_digit (digitsOnly s) = true.
Proof.
  unfold digitsOnly. induction s as [|c s IH]; simpl; [ done |].
  unfold phone_char at 1. destruct (is_plus c) eqn:Hp; simpl.
  - rewrite orb_true_r. simpl. exact IH.
  - rewrite orb_false_r. rewrite !andb_true_iff. by rewrite IH.
Qed.

Lemma COUNTRY_CODES_shape (code : string) :
  code ∈ COUNTRY_CODES ->
  startsWith code "+" = true /\ all phone_char code = true.
Proof.
  unfold COUNTRY_CODES. rewrite !elem_of_cons, elem_of_nil.
  intros [-> | [-> | [-> | [-> | [-> | [-> | [-> | [-> | []]]]]]]]]; by vm_compute.
Qed.

Lemma startsWith_trans (s a b : string) :
  startsWith s a = true -> startsWith a b = true -> startsWith s b = true.
Proof.
  intros [t ->]%startsWith_split [u ->]%startsWith_split.
  rewrite app_assoc_s. apply startsWith_app.
Qed.

Lemma hasValidCode_plus (s : string) :
  hasValidCode s = true -> startsWith s "+" = true.
Proof.
  intros (code & Hin & Hp)%hasValidCode_iff.
  apply (startsWith_trans _ _ _ Hp). by apply COUNTRY_CODES_shape.
Qed.

Lemma digitsOnly_nonempty (s : string) :
  (7 <= String.length (digitsOnly s))%nat -> falsy s = false /\ falsy (digitsOnly s) = false.
Proof.
  intros H. split.
  - destruct s; [ simpl in H; lia | done ].
  - destruct (digitsOnly s); [ simpl in H; lia | done ].
Qed.

Lemma strip_zero_phone_chars (s : string) :
  all phone_char s = true ->
  all phone_char (if startsWith s "0" then substring1 s else s) = true.
Proof.
  intros Hs. destruct (startsWith s "0"); [| done ].
  destruct s as [|c s]; [ done |]. simpl in Hs.
  by apply andb_true_iff in Hs as [_ ?].
Qed.

Lemma normalizePhone_Some_valid (phone cc r : string) :
  cc ∈ COUNTRY_CODES ->
  normalizePhone phone cc = Some r ->
  validatePhone r = true.
Proof.
  intros Hcc. unfold normalizePhone.
  destruct (falsy phone); [ discriminate |].
  destruct (withCountryCode phone cc) as [cleaned|] eqn:Hw; [| discriminate ].
  destruct (length_check (String.length (digitsOnly cleaned))) as [[Hr Hn]|[Hr Hn]];
    cbv zeta; rewrite Hr; [| discriminate ].
  intros [= <-].
  assert (Hshape : hasValidCode cleaned = true /\ all phone_char cleaned = true).
  { unfold withCountryCode in Hw.
    destruct (startsWith (clean phone) "+").
    - destruct (hasValidCode (clean phone)) eqn:Hv; [| discriminate ].
      injection Hw as <-. split; [ done | apply clean_phone_chars ].
    - injection Hw as <-. split.
      + apply hasValidCode_iff. exists cc. split; [ done | apply startsWith_app ].
      + rewrite all_app. apply andb_true_iff. split; [ by apply COUNTRY_CODES_shape |].
        exact (strip_zero_phone_chars _ (clean_phone_chars phone)). }
  destruct Hshape as [Hv Hall].
  destruct (digitsOnly_nonempty cleaned) as [Hf Hfd]; [ lia |].
  unfold validatePhone, all_digits. rewrite Hf, Hv, Hfd.
  apply digitsOnly_digits in Hall. rewrite Hall. cbn [negb andb].
  apply andb_true_iff. split; apply Nat.leb_le; lia.
Qed.

(** X1.  Whatever [normalizePhone] returns under a supported default
    country code passes [validatePhone]. *)
Theorem normalizePhone_valid (phone cc r : string) :
  cc ∈ COUNTRY_CODES ->
  normalizePhone phone cc = Some r ->
  validatePhone r = true.
Proof. apply normalizePhone_Some_valid. Qed.

Lemma normalizePhone_valid_witness :
  "+256" ∈ COUNTRY_CODES
  /\ normalizePhone "0712 345-678" "+256" = Some "+256712345678"
  /\ validatePhone "+256712345678" = true.
Proof.
  assert (Hin : "+256" ∈ COUNTRY_CODES) by (vm_compute; set_solver).
  split; [ exact Hin |]. split; [ reflexivity |].
  exact (normalizePhone_valid "0712 345-678" "+256" "+256712345678" Hin eq_refl).
Defined.

Lemma valid_normalizePhone (phone cc : string) :
  validatePhone phone = true ->
  normalizePhone phone cc = Some phone.
Proof.
  unfold validatePhone, all_digits.
  destruct (falsy phone) eqn:Hf; [ discriminate |].
  destruct (hasValidCode phone) eqn:Hv; [| discriminate ]. cbn [negb andb].
  destruct (falsy (digitsOnly phone)); [ discriminate |]. cbn [negb andb].
  destruct (all is_digit (digitsOnly phone)) eqn:Hd; [| discriminate ]. cbn [negb andb].
  intros [H7 H15]%andb_true_iff. apply Nat.leb_le in H7, H15.
  apply digitsOnly_digits in Hd.
  assert (Hclean : clean phone = phone) by (by apply keep_all_id).
  unfold normalizePhone, withCountryCode. rewrite Hf, Hclean, Hv.
  rewrite (hasValidCode_plus _ Hv).
  destruct (length_check (String.length (digitsOnly phone))) as [[Hr Hn]|[Hr Hn]];
    cbv zeta; rewrite Hr; [ done | lia ].
Qed.

(** X2.  A phone that passes [validatePhone] is a fixed point of
    [normalizePhone], whatever the default country code; so normalising
    twice under supported codes gives what normalising once gives. *)
Theorem normalizePhone_fixes_valid (phone cc : string) :
  validatePhone phone = true ->
  normalizePhone phone cc = Some phone
  /\ forall raw cc', cc' ∈ COUNTRY_CODES ->
       normalizePhone raw cc' = Some phone ->
       normalizePhone phone cc = normalizePhone raw cc'.
Proof.
  intros Hv. split; [ by apply valid_normalizePhone |].
  intros raw cc' _ ->. by apply valid_normalizePhone.
Qed.

Lemma normalizePhone_fixes_valid_witness :
  validatePhone "+254700000001" = true
  /\ normalizePhone "+254700000001" "+1" = Some "+254700000001".
Proof.
  split; [ reflexivity |].
  exact (proj1 (normalizePhone_fixes_valid "+254700000001" "+1" eq_refl)).
Defined.

Lemma COUNTRY_CODES_apart (a b : string) :
  a ∈ COUNTRY_CODES -> b ∈ COUNTRY_CODES -> startsWith a b = true -> a = b.
Proof.
  unfold COUNTRY_CODES. rewrite !elem_of_cons, !elem_of_nil.
  intros [-> | [-> | [-> | [-> | [-> | [-> | [-> | [-> | []]]]]]]]]
         [-> | [-> | [-> | [-> | [-> | [-> | [-> | [-> | []]]]]]]]];
    vm_compute; congruence.
Qed.

Lemma COUNTRY_CODES_one_prefix (phone code code' : string) :
  code ∈ COUNTRY_CODES -> startsWith phone code = true ->
  code' ∈ COUNTRY_CODES -> startsWith phone code' = true -> code' = code.
Proof.
  intros Hin Hp Hin' Hp'.
  destruct (startsWith_comparable phone code code' Hp Hp') as [H | H].
  - symmetry. by apply COUNTRY_CODES_apart.
  - by apply COUNTRY_CODES_apart.
Qed.

Lemma getCountryCodeFromPhone_prefix (phone code : string) :
  code ∈ COUNTRY_CODES -> startsWith phone code = true ->
  getCountryCodeFromPhone phone = code.
Proof.
  intros Hin Hp. unfold getCountryCodeFromPhone.
  destruct phone as [|c phone]; [ by destruct code |]. cbn [falsy].
  destruct (List.find _ COUNTRY_CODES) as [code'|] eqn:Hf.
  - apply find_some in Hf as [Hin' Hp']. apply list_elem_of_In in Hin'.
    by apply (COUNTRY_CODES_one_prefix (String c phone)).
  - apply list_elem_of_In in Hin. by rewrite (find_none _ _ Hf _ Hin) in Hp.
Qed.

(** X3.  [getCountryCodeFromPhone] returns the supported country code
    the phone starts with: there is never more than one, so the order
    of the table plays no part; it returns the empty string exactly
    when the phone starts with none. *)
Theorem getCountryCodeFromPhone_unique (phone : string) :
  (forall code, code ∈ COUNTRY_CODES -> startsWith phone code = true ->
                getCountryCodeFromPhone phone = code)
  /\ (getCountryCodeFromPhone phone = "" <-> hasValidCode phone = false).
Proof.
  split; [ intros code; apply getCountryCodeFromPhone_prefix |].
  split.
  - intros He. destruct (hasValidCode phone) eqn:Hv; [| done ].
    apply hasValidCode_iff in Hv as (code & Hin & Hp).
    rewrite (getCountryCodeFromPhone_prefix _ _ Hin Hp) in He. subst code.
    by apply COUNTRY_CODES_shape in Hin as [? _].
  - intros Hv. unfold getCountryCodeFromPhone. destruct (falsy phone); [ done |].
    destruct (List.find _ COUNTRY_CODES) as [code|] eqn:Hf; [| done ].
    apply find_some in Hf as [Hin Hp]. apply list_elem_of_In in Hin.
    assert (hasValidCode phone = true) by (apply hasValidCode_iff; eauto). congruence.
Qed.

Lemma getCountryCodeFromPhone_unique_witness :
  "+44" ∈ COUNTRY_CODES
  /\ startsWith "+447911123456" "+44" = true
  /\ getCountryCodeFromPhone "+447911123456" = "+44".
Proof.
  assert (Hin : "+44" ∈ COUNTRY_CODES) by (vm_compute; set_solver).
  split; [ exact Hin |]. split; [ reflexivity |].
  exact (proj1 (getCountryCodeFromPhone_unique "+447911123456") "+44" Hin eq_refl).
Defined.

(** ** Display of a phone *)

Lemma phone_char_solid (c : ascii) : phone_char c = true -> solid c = true.
Proof.
  unfold phone_char, is_digit, is_plus, solid, is_line_terminator, code.
  destruct (Ascii.eqb_spec c " ") as [-> | _]; [ by vm_compute |].
  intros H. cbn [negb andb]. apply negb_true_iff, orb_false_iff.
  split; apply Nat.eqb_neq; intros E; rewrite E in H; by vm_compute in H.
Qed.

Lemma concat_cons (a : string) (l : list string) :
  String.concat "" (a :: l) = a ++ String.concat "" l.
Proof. destruct l; [ by rewrite app_empty_r | reflexivity ]. Qed.

Lemma keep_unsolid_join (groups : list string) :
  Forall (fun g => all solid g = true) groups ->
  keep (fun c => negb (Ascii.eqb c " ")) (join " " groups)
  = String.concat "" groups.
Proof.
  assert (Hk : forall g, all solid g = true ->
                 keep (fun c => negb (Ascii.eqb c " ")) g = g).
  { intros g Hg. apply keep_all_id. revert Hg. apply all_impl.
    unfold solid. by intros c [? _]%andb_true_iff. }
  induction 1 as [|g groups Hg Hall IH]; [ done |].
  destruct groups as [|g' groups].
  - simpl. rewrite Hk by done. done.
  - change (join " " (g :: g' :: groups)) with (g ++ " " ++ join " " (g' :: groups)).
    rewrite !keep_app, IH, Hk by done.
    change (String.concat "" (g :: g' :: groups))
      with (g ++ "" ++ String.concat "" (g' :: groups)).
    done.
Qed.

Lemma groups_of_three_concat (s : string) :
  forall cur,
    all solid s = true -> all solid cur = true ->
    String.concat "" (groups_of_three cur s) = cur ++ s
    /\ Forall (fun g => all solid g = true) (groups_of_three cur s).
Proof.
  induction s as [|c s IH]; intros cur Hs Hcur.
  - simpl. destruct cur as [|x cur]; [ done |]. cbn [falsy].
    split; [ by rewrite app_empty_r | by constructor ].
  - simpl in Hs. apply andb_true_iff in Hs as [Hc Hs].
    cbn [groups_of_three].
    assert (Ht : is_line_terminator c = false).
    { unfold solid in Hc. apply andb_true_iff in Hc as [_ Hc]. by apply negb_true_iff. }
    rewrite Ht. cbv zeta.
    assert (Hcur' : all solid (cur ++ String c "") = true).
    { rewrite all_app, Hcur. simpl. by rewrite Hc. }
    assert (Happ : (cur ++ String c "") ++ s = cur ++ String c s).
    { by rewrite app_assoc_s, app_cons_s, app_nil_s. }
    destruct (String.length (cur ++ String c "") =? 3)%nat.
    + destruct (IH "" Hs eq_refl) as [Hcat Hall]. split; [| by constructor ].
      rewrite app_nil_s in Hcat. by rewrite concat_cons, Hcat, Happ.
    + destruct (IH _ Hs Hcur') as [Hcat Hall]. by rewrite Hcat, Happ.
Qed.

Lemma groups_of_three_sizes (s : string) :
  forall cur,
    (String.length cur < 3)%nat ->
    Forall (fun g => (1 <= String.length g <= 3)%nat) (groups_of_three cur s).
Proof.
  induction s as [|c s IH]; intros cur Hcur.
  - simpl. destruct cur as [|x cur]; [ constructor |]. cbn [falsy].
    constructor; [| constructor ]. simpl in *. lia.
  - cbn [groups_of_three]. cbv zeta.
    assert (Hlen : String.length (cur ++ String c "") = S (String.length cur)).
    { rewrite length_app_s. simpl. lia. }
    destruct (is_line_terminator c).
    + apply Forall_app. split; [| apply IH; simpl; lia ].
      destruct cur as [|x cur]; [ constructor |]. cbn [falsy].
      constructor; [| constructor ]. simpl in *. lia.
    + destruct (Nat.eqb_spec (String.length (cur ++ String c "")) 3) as [E | E].
      * constructor; [ lia | apply IH; simpl; lia ].
      * apply IH. lia.
Qed.

Lemma join_nonempty (sep g : string) (gs : list string) :
  (1 <= String.length g)%nat -> falsy (join sep (g :: gs)) = false.
Proof.
  intros Hg. destruct g as [|x g]; [ simpl in Hg; lia |].
  destruct gs; [ done |]. change (join sep (String x g :: s :: gs))
    with (String x g ++ sep ++ join sep (s :: gs)). by rewrite app_cons_s.
Qed.

(** X4.  [formatPhoneForDisplay] hands back a phone that does not pass
    [validatePhone] as it is.  For one that passes, the display is the
    country code, a space, and the rest of the phone cut into groups of
    at most three characters set apart by spaces; taking the spaces out
    of the display gives the phone back. *)
Theorem formatPhoneForDisplay_lossless (phone : string) :
  (validatePhone phone = false /\ formatPhoneForDisplay phone = phone)
  \/ (validatePhone phone = true
      /\ exists groups,
           formatPhoneForDisplay phone
           = getCountryCodeFromPhone phone ++ " " ++ join " " groups
           /\ Forall (fun g => (1 <= String.length g <= 3)%nat) groups
           /\ getCountryCodeFromPhone phone ++ String.concat "" groups = phone
           /\ keep (fun c => negb (Ascii.eqb c " ")) (formatPhoneForDisplay phone)
              = phone).
Proof.
  unfold formatPhoneForDisplay.
  destruct (validatePhone phone) eqn:Hv.
  2: { left. split; [ done |]. destruct phone; done. }
  right. split; [ done |].
  assert (Hshape : hasValidCode phone = true /\ all phone_char phone = true
                   /\ falsy phone = false).
  { unfold validatePhone, all_digits in Hv.
    destruct (falsy phone); [ discriminate |].
    destruct (hasValidCode phone); [| discriminate ]. cbn [negb andb] in Hv.
    destruct (falsy (digitsOnly phone)); [ discriminate |]. cbn [negb andb] in Hv.
    destruct (all is_digit (digitsOnly phone)) eqn:Hd; [| discriminate ].
    by apply digitsOnly_digits in Hd. }
  destruct Hshape as (Hcode & Hall & Hf). rewrite Hf. cbn [negb].
  apply hasValidCode_iff in Hcode as (code & Hin & Hp).
  rewrite (getCountryCodeFromPhone_prefix _ _ Hin Hp).
  apply startsWith_split in Hp as [number ->].
  rewrite remove_first_prefix.
  rewrite all_app in Hall. apply andb_true_iff in Hall as [Hc Hn].
  assert (Hsolid : forall s, all phone_char s = true -> all solid s = true).
  { intros s. apply all_impl, phone_char_solid. }
  destruct (groups_of_three_concat number "" (Hsolid _ Hn) eq_refl) as [Hcat Hgs].
  pose proof (groups_of_three_sizes number "" ltac:(simpl; lia)) as Hsz.
  rewrite app_nil_s in Hcat.
  assert (Hkc : keep (fun c => negb (Ascii.eqb c " ")) code = code).
  { apply keep_all_id. apply (all_impl solid); [| by apply Hsolid ].
    unfold solid. by intros c [? _]%andb_true_iff. }
  destruct (groups_of_three "" number) as [|g gs] eqn:Eg.
  - exists []. simpl in Hcat. subst number. cbn [join]. repeat split; try done.
    by rewrite !keep_app, Hkc.
  - exists (g :: gs). assert (Hg := Hsz). apply Forall_cons in Hg as [Hg _].
    rewrite join_nonempty by lia. split; [ done |]. split; [ done |].
    split; [ by rewrite Hcat |].
    by rewrite !keep_app, keep_unsolid_join, Hcat, Hkc, app_nil_s.
Qed.

Lemma default_code_supported : "+256" ∈ COUNTRY_CODES.
Proof. unfold COUNTRY_CODES. set_solver. Qed.

Lemma validatePhone_nonempty (p : string) : validatePhone p = true -> falsy p = false.
Proof. unfold validatePhone. by destruct (falsy p). Qed.

Lemma omap_length_le {A B : Type} (f : A -> option B) (l : list A) :
  (List.length (omap f l) <= List.length l)%nat.
Proof. induction l as [|x l IH]; csimpl; [ lia |]. destruct (f x); csimpl; lia. Qed.

Lemma extractPhonesFromText_lines (text cc : string) :
  cc ∈ COUNTRY_CODES ->
  Forall (fun p => validatePhone p = true
                   /\ exists line, line ∈ split_on newline text
                        /\ trim line <> ""
                        /\ normalizePhone (trim line) cc = Some p)
         (extractPhonesFromText text cc)
  /\ (List.length (extractPhonesFromText text cc)
      <= List.length (split_on newline text))%nat.
Proof.
  intros Hcc. unfold extractPhonesFromText, nonblank_lines.
  destruct (falsy text); [ split; [ constructor | simpl; lia ] |].
  change "010"%char with newline.
  split.
  - apply Forall_forall. intros p Hp.
    apply list_elem_of_omap in Hp as (l & Hl & Hn).
    apply list_elem_of_In, filter_In in Hl as [Hl Hne].
    apply in_map_iff in Hl as (line & <- & Hline).
    split; [ by apply (normalizePhone_Some_valid (trim line) cc) |].
    exists line. split; [ by apply list_elem_of_In |]. split; [| done ].
    by apply falsy_false, negb_true_iff.
  - etransitivity; [ apply omap_length_le |].
    etransitivity; [ apply filter_length_le |]. by rewrite length_map.
Qed.

(** X5.  Under a supported default country code every number
    [extractPhonesFromText] returns passes [validatePhone], and is what
    [normalizePhone] makes of one of the lines of the text, trimmed and
    not blank; there are no more numbers than lines. *)
Theorem extractPhonesFromText_valid (text cc : string) :
  cc ∈ COUNTRY_CODES ->
  Forall (fun p => validatePhone p = true
                   /\ exists line, line ∈ split_on newline text
                        /\ trim line <> ""
                        /\ normalizePhone (trim line) cc = Some p)
         (extractPhonesFromText text cc)
  /\ (List.length (extractPhonesFromText text cc)
      <= List.length (split_on newline text))%nat.
Proof. apply extractPhonesFromText_lines. Qed.

Lemma extractPhonesFromText_valid_witness :
  "+256" ∈ COUNTRY_CODES
  /\ Forall (fun p => validatePhone p = true)
            (extractPhonesFromText "0712345678" "+256").
Proof.
  split; [ exact default_code_supported |].
  destruct (extractPhonesFromText_valid "0712345678" "+256" default_code_supported)
    as [H _].
  eapply Forall_impl; [ exact H |]. by intros p [? _].
Defined.

(** ** contactUtils, continued *)

Lemma fold_merge_phone (phones : list string) :
  forall acc,
    fold_left merge_phone phones acc
    = (acc ++ map phone_only (omap normalizePhone_default phones))%list.
Proof.
  induction phones as [|p phones IH]; intros acc; csimpl; [ by rewrite app_nil_r |].
  rewrite IH. unfold merge_phone.
  destruct (normalizePhone_default p) as [n|] eqn:Hn; [| done ].
  assert (Hf : falsy n = false).
  { apply validatePhone_nonempty.
    apply (normalizePhone_Some_valid p "+256" n default_code_supported Hn). }
  rewrite Hf. csimpl. by rewrite <- app_assoc.
Qed.

Lemma omap_normalize_valid (phones : list string) :
  Forall (fun p => validatePhone p = true) phones ->
  omap normalizePhone_default phones = phones.
Proof.
  induction 1 as [|p phones Hp _ IH]; [ done |]. csimpl.
  unfold normalizePhone_default at 1. rewrite valid_normalizePhone by done.
  by rewrite IH.
Qed.

(** X6.  Given pasted phones and no rows, [mergeContactData] returns one
    record for each phone that [normalizePhone] accepts, in order, with
    the normalised phone and the five other fields empty.  Numbers that
    come from [extractPhonesFromText] are already normalised, so each
    of them gets its record and none is changed or lost. *)
Theorem mergeContactData_pasted (phones : list string) (headerMapping : object)
  (text : string) :
  mergeContactData phones [] headerMapping
  = map phone_only (omap normalizePhone_default phones)
  /\ mergeContactData (extractPhonesFromText text "+256") [] headerMapping
     = map phone_only (extractPhonesFromText text "+256").
Proof.
  assert (H : forall ps, mergeContactData ps [] headerMapping
                         = map phone_only (omap normalizePhone_default ps)).
  { intros ps. unfold mergeContactData. destruct ps as [|p ps]; [ done |].
    change (_ && _) with true. cbv iota. by rewrite fold_merge_phone. }
  split; [ apply H |]. rewrite H. f_equal. apply omap_normalize_valid.
  destruct (extractPhonesFromText_lines text "+256" default_code_supported) as [Hv _].
  eapply Forall_impl; [ exact Hv |]. by intros p [? _].
Qed.

Lemma has_valid_phone_ok (c : contact) : has_valid_phone c = true <-> phone_ok c.
Proof.
  unfold has_valid_phone, phone_ok. destruct (contact_phone c) as [p|]; simpl.
  - split.
    + intros [_ H]%andb_true_iff. eauto.
    + intros (q & [= <-] & H). rewrite H, (validatePhone_nonempty _ H). done.
  - split; [ done | by intros (q & [=] & _) ].
Qed.

Lemma phone_only_ok (n : string) : validatePhone n = true -> phone_ok (phone_only n).
Proof.
  intros H. exists n. split; [| done ].
  unfold contact_phone, phone_only. by rewrite lookup_insert_eq.
Qed.

Lemma merge_row_ok (headerMapping row : object) (acc : list contact) :
  Forall phone_ok acc -> Forall phone_ok (merge_row headerMapping acc row).
Proof.
  intros Hacc. unfold merge_row. cbv zeta.
  destruct (_ !! "phone") as [phone|]; [| done ].
  destruct (falsy phone); [ done |].
  destruct (normalizePhone_default phone) as [n|]; [| done ].
  destruct (negb (falsy n)); [| done ]. cbn [andb].
  destruct (validatePhone n) eqn:Hv; [| done ].
  apply Forall_app. split; [ done |]. constructor; [| constructor ].
  exists n. split; [| done ]. unfold contact_phone. by rewrite lookup_insert_eq.
Qed.

(** X7.  Every contact [mergeContactData] returns, from pasted phones
    or from rows under any header mapping, has a phone that passes
    [validatePhone]; no record is returned for an input that has none. *)
Theorem mergeContactData_phones_valid (phones : list string) (csvData : list object)
  (headerMapping : object) :
  Forall phone_ok (mergeContactData phones csvData headerMapping)
  /\ (List.length (mergeContactData phones csvData headerMapping)
      <= List.length phones + List.length csvData)%nat.
Proof.
  unfold mergeContactData.
  destruct ((0 <? List.length phones)%nat && (List.length csvData =? 0)%nat) eqn:Hc.
  - rewrite fold_merge_phone. csimpl. split.
    + apply Forall_forall. intros c Hin.
      apply list_elem_of_fmap in Hin as (n & -> & Hn).
      apply list_elem_of_omap in Hn as (p & _ & Hp).
      apply phone_only_ok.
      apply (normalizePhone_Some_valid p "+256" n default_code_supported Hp).
    + rewrite length_map. pose proof (omap_length_le normalizePhone_default phones). lia.
  - destruct (0 <? List.length csvData)%nat; [| split; [ constructor | simpl; lia ] ].
    assert (H : forall rows acc, Forall phone_ok acc ->
              Forall phone_ok (fold_left (merge_row headerMapping) rows acc)
              /\ (List.length (fold_left (merge_row headerMapping) rows acc)
                  <= List.length acc + List.length rows)%nat).
    { induction rows as [|row rows IH]; intros acc Hacc; simpl; [ split; [ done | lia ] |].
      destruct (IH _ (merge_row_ok headerMapping row acc Hacc)) as [H1 H2].
      split; [ done |]. etransitivity; [ exact H2 |].
      assert (List.length (merge_row headerMapping acc row) <= S (List.length acc))%nat;
        [| lia ].
      unfold merge_row. cbv zeta. repeat case_match; rewrite ?length_app; simpl; lia. }
    destruct (H csvData [] ltac:(constructor)) as [H1 H2]. split; [ done |]. simpl in H2. lia.
Qed.

Lemma fold_validate_step (l : list contact) :
  forall acc,
    fold_left validate_step l acc
    = ((acc.1 ++ List.filter has_valid_phone l)%list,
       (acc.2 ++ map (insert "error" invalid_phone_error)
                     (List.filter (fun c => negb (has_valid_phone c)) l))%list).
Proof.
  induction l as [|c l IH]; intros [v i]; simpl.
  - by rewrite !app_nil_r.
  - rewrite IH. unfold validate_step. fold (has_valid_phone c).
    destruct (has_valid_phone c); simpl; by rewrite <- app_assoc.
Qed.

Lemma validateContacts_filter (l : list contact) :
  validateContacts l
  = (List.filter has_valid_phone l,
     map (insert "error" invalid_phone_error)
         (List.filter (fun c => negb (has_valid_phone c)) l)).
Proof.
  unfold validateContacts. destruct l as [|c l]; [ done |].
  change (List.length (c :: l) =? 0)%nat with false. cbv iota.
  by rewrite fold_validate_step.
Qed.

Lemma filter_all {A : Type} (f : A -> bool) (l : list A) :
  Forall (fun x => f x = true) l ->
  List.filter f l = l /\ List.filter (fun x => negb (f x)) l = [].
Proof.
  induction 1 as [|x l Hx _ [IH1 IH2]]; [ done |]. simpl. by rewrite Hx, IH1, IH2.
Qed.

(** X8.  [validateContacts] splits its input without loss: [valid] is
    the records whose phone is there and passes [validatePhone], in
    their order and unchanged; [invalid] is the others, in their order,
    each with the field [error] set; the two counts add up to the
    input's; and the valid records validate again with none rejected. *)
Theorem validateContacts_partition (l : list contact) :
  let r := validateContacts l in
  r.1 = List.filter has_valid_phone l
  /\ r.2 = map (insert "error" invalid_phone_error)
              (List.filter (fun c => negb (has_valid_phone c)) l)
  /\ Forall phone_ok r.1
  /\ (List.length r.1 + List.length r.2 = List.length l)%nat
  /\ validateContacts r.1 = (r.1, []).
Proof.
  cbv zeta. rewrite validateContacts_filter. cbn [fst snd].
  split; [ done |]. split; [ done |]. split; [| split ].
  - apply Forall_forall. intros c Hin. apply has_valid_phone_ok.
    by apply list_elem_of_In, filter_In in Hin as [_ ?].
  - rewrite length_map. apply filter_length.
  - rewrite validateContacts_filter.
    destruct (filter_all has_valid_phone (List.filter has_valid_phone l)) as [-> ->]; [| done ].
    apply Forall_forall. intros c Hin.
    by apply list_elem_of_In, filter_In in Hin as [_ ?].
Qed.

Lemma formatContact_frame (c : contact) (k : string) :
  k ∉ standard_fields -> formatContact c !! k = c !! k.
Proof.
  unfold standard_fields. rewrite !not_elem_of_cons.
  intros (H1 & H2 & H3 & H4 & H5 & _). unfold formatContact. cbv zeta.
  destruct (_ && _); by rewrite !lookup_insert_ne by done.
Qed.

Lemma formatContact_defined (c : contact) (k : string) :
  k ∈ standard_fields -> is_Some (formatContact c !! k).
Proof.
  unfold standard_fields. rewrite !elem_of_cons, elem_of_nil.
  unfold formatContact. cbv zeta.
  intros [-> | [-> | [-> | [-> | [-> | []]]]]]; destruct (_ && _);
    repeat first [ rewrite lookup_insert_eq | rewrite lookup_insert_ne by done ]; eauto.
Qed.

Lemma formatContact_greeting (c : contact) :
  truthy (formatContact c !! "first_name") || truthy (formatContact c !! "name") = true.
Proof.
  unfold formatContact. cbv zeta.
  repeat first [ rewrite lookup_insert_eq | rewrite lookup_insert_ne by done ].
  destruct (negb (truthy (Some _)) && negb (truthy (Some _))) eqn:E.
  - by rewrite lookup_insert_eq.
  - repeat first [ rewrite lookup_insert_eq | rewrite lookup_insert_ne by done ].
    apply andb_false_iff in E as [E | E]; apply negb_false_iff in E; rewrite E;
      [ done | apply orb_true_r ].
Qed.

(** X9.  [formatContactsForSending] returns one record for each contact,
    in order.  In it the fields [name], [first_name], [last_name],
    [email] and [location] are always there; every other field, the
    phone among them, is as in the contact; and [first_name] or [name]
    is not empty. *)
Theorem formatContactsForSending_fields (contacts : list contact) :
  Forall2 (fun c f =>
             (forall k, k ∈ standard_fields -> is_Some (f !! k))
             /\ (forall k, k ∉ standard_fields -> f !! k = c !! k)
             /\ truthy (f !! "first_name") || truthy (f !! "name") = true)
          contacts (formatContactsForSending contacts).
Proof.
  unfold formatContactsForSending. destruct contacts as [|c0 cs]; [ constructor |].
  change (List.length (c0 :: cs) =? 0)%nat with false. cbv iota.
  generalize (c0 :: cs). intros l. induction l as [|c l IH]; [ constructor |].
  simpl. constructor; [| exact IH ].
  split; [ apply formatContact_defined |].
  split; [ apply formatContact_frame | apply formatContact_greeting ].
Qed.

(** *** Names *)

Lemma split_on_nonempty (sep : ascii) (s : string) : split_on sep s <> [].
Proof.
  destruct s as [|c s]; [ done |]. simpl.
  destruct (Ascii.eqb c sep); [ done |]. by destruct (split_on sep s).
Qed.

Lemma join_cons (sep g : string) (gs : list string) :
  gs <> [] -> join sep (g :: gs) = g ++ sep ++ join sep gs.
Proof. by destruct gs. Qed.

Lemma join_split_on (sep : ascii) (s : string) :
  join (String sep "") (split_on sep s) = s.
Proof.
  induction s as [|c s IH]; [ done |]. simpl.
  destruct (Ascii.eqb_spec c sep) as [-> | Hne].
  - rewrite join_cons by apply split_on_nonempty. by rewrite IH.
  - pose proof (split_on_nonempty sep s) as Hn.
    destruct (split_on sep s) as [|piece pieces]; [ done |].
    destruct pieces as [|p ps]; simpl in *; [ by rewrite IH |].
    change (join (String sep "") (piece :: p :: ps))
      with (piece ++ String sep "" ++ join (String sep "") (p :: ps)) in IH.
    change (join (String sep "") (String c piece :: p :: ps))
      with (String c piece ++ String sep "" ++ join (String sep "") (p :: ps)).
    by rewrite app_cons_s, IH.
Qed.

Lemma head_split_on (sep : ascii) (s : string) :
  forall w, head (split_on sep s) = Some w ->
            all (fun c => negb (Ascii.eqb c sep)) w = true
            /\ (includes s (String sep "") = false -> w = s
                /\ tail (split_on sep s) = []).
Proof.
  induction s as [|c s IH]; intros w; simpl.
  - intros [= <-]. done.
  - destruct (Ascii.eqb c sep) eqn:Hc.
    + intros [= <-]. split; [ done |]. simpl. done.
    + pose proof (split_on_nonempty sep s) as Hn.
      destruct (split_on sep s) as [|piece pieces]; [ done |].
      intros [= <-]. destruct (IH piece eq_refl) as [Hall Hno].
      simpl. rewrite Hc. simpl. split; [ done |].
      intros Hinc. destruct (Hno Hinc) as [-> Htl]. simpl in Htl. by subst pieces.
Qed.

Lemma includes_none (sep : ascii) (s : string) :
  all (fun c => negb (Ascii.eqb c sep)) s = true -> includes s (String sep "") = false.
Proof.
  induction s as [|c s IH]; [ done |]. cbn [all includes startsWith].
  intros [Hc Hs]%andb_true_iff. apply negb_true_iff in Hc. rewrite Hc. cbn [andb orb].
  by apply IH.
Qed.

(** X10.  For a contact with a name and neither first nor last name,
    [formatContactsForSending] keeps the name, takes the first name to
    be the name up to its first space and the last name to be what
    follows that space: first name, a space and last name make up the
    name again, and a name without a space is the first name. *)
Theorem formatContact_splits_name (c : contact) (name : string) :
  c !! "name" = Some name -> name <> "" ->
  truthy (c !! "first_name") = false ->
  truthy (c !! "last_name") = false ->
  let f := formatContact c in
  exists first last,
    f !! "name" = Some name
    /\ f !! "first_name" = Some first
    /\ f !! "last_name" = Some last
    /\ all (fun ch => negb (Ascii.eqb ch " ")) first = true
    /\ (includes name " " = true -> name = first ++ " " ++ last)
    /\ (includes name " " = false -> name = first /\ last = "").
Proof.
  intros Hname Hne Hfirst Hlast. cbv zeta.
  assert (Ht : truthy (Some name) = true).
  { simpl. by apply negb_true_iff, falsy_false. }
  assert (Hor : forall a d, truthy a = false -> or_else a d = d).
  { intros [v|] d; simpl; [| done ]. by intros ->%negb_false_iff. }
  exists (first_word name), (other_words name).
  unfold formatContact. cbv zeta. rewrite Hname, Ht.
  rewrite (Hor (c !! "first_name")), (Hor (c !! "last_name")) by done.
  assert (Hn : or_else (Some name) (or_else (c !! "first_name") "") = name).
  { simpl. apply falsy_false in Hne. by rewrite Hne. }
  rewrite Hn. change (default "" (Some name)) with name.
  repeat first [ rewrite lookup_insert_eq | rewrite lookup_insert_ne by done ].
  assert (Hno : negb (truthy (Some (first_word name))) && negb (truthy (Some name)) = false).
  { rewrite Ht. apply andb_false_r. }
  rewrite Hno.
  repeat first [ rewrite lookup_insert_eq | rewrite lookup_insert_ne by done ].
  split; [ done |]. split; [ done |]. split; [ done |].
  unfold first_word, other_words.
  pose proof (split_on_nonempty " " name) as Hsplit.
  pose proof (join_split_on " " name) as Hjoin.
  destruct (split_on " " name) as [|w ws] eqn:Es; [ done |]. cbn [head tail default].
  assert (Hs : head (split_on " " name) = Some w) by (by rewrite Es).
  destruct (head_split_on " " name w Hs) as [Hall Hnone].
  split; [ done |]. split.
  - intros Hinc. destruct ws as [|w' ws'].
    + simpl in Hjoin. subst w. by rewrite (includes_none " " name Hall) in Hinc.
    + by rewrite join_cons in Hjoin.
  - intros Hinc. destruct (Hnone Hinc) as [-> Htl]. rewrite Es in Htl.
    simpl in Htl. by subst ws.
Qed.

Lemma formatContact_splits_name_witness :
  let c : contact := {[ "phone" := "+256712345678"; "name" := "Amara Okafor Jr" ]} in
  formatContact c !! "first_name" = Some "Amara"
  /\ exists first last,
       formatContact c !! "first_name" = Some first
       /\ formatContact c !! "last_name" = Some last
       /\ "Amara Okafor Jr" = first ++ " " ++ last.
Proof.
  split; [ vm_compute; reflexivity |].
  destruct (formatContact_splits_name
              {[ "phone" := "+256712345678"; "name" := "Amara Okafor Jr" ]}
              "Amara Okafor Jr")
    as (first & last & _ & H1 & H2 & _ & H3 & _);
    [ vm_compute; reflexivity | discriminate | vm_compute; reflexivity
    | vm_compute; reflexivity |].
  exists first, last. split; [ exact H1 |]. split; [ exact H2 |].
  apply H3. vm_compute. reflexivity.
Defined.

Lemma List_filter_sublist {A : Type} (f : A -> bool) (l : list A) :
  sublist (List.filter f l) l.
Proof.
  induction l as [|x l IH]; simpl; [ constructor |].
  destruct (f x); [ by apply sublist_skip | by apply sublist_cons ].
Qed.

Lemma formatContactsForSending_map (l : list contact) :
  formatContactsForSending l = map formatContact l.
Proof. by destruct l. Qed.

Lemma formatContact_phone (c : contact) :
  contact_phone (formatContact c) = contact_phone c.
Proof.
  apply formatContact_frame. unfold standard_fields.
  rewrite !not_elem_of_cons. repeat split; try done. apply not_elem_of_nil.
Qed.

(** X11.  The contacts [handleContactsLoaded] sets, after
    de-duplication, validation and formatting, all have a phone that
    passes [validatePhone], and no two of them have the same phone;
    when no loaded contact is valid the contacts stay as they were. *)
Theorem handleContactsLoaded_unique_valid (contacts loadedContacts : list contact) :
  let out :=
    formatContactsForSending (validateContacts (deduplicateContacts loadedContacts)).1 in
  handleContactsLoaded contacts loadedContacts
  = (if (List.length out =? 0)%nat then contacts else out)
  /\ Forall phone_ok out
  /\ NoDup (contact_phone <$> out)
  /\ (List.length out <= List.length loadedContacts)%nat.
Proof.
  cbv zeta. unfold handleContactsLoaded. cbv zeta.
  rewrite !formatContactsForSending_map, length_map.
  split; [ done |].
  rewrite validateContacts_filter. cbn [fst].
  assert (Hph : contact_phone <$> map formatContact
                  (List.filter has_valid_phone (deduplicateContacts loadedContacts))
                = contact_phone <$> List.filter has_valid_phone
                                      (deduplicateContacts loadedContacts)).
  { rewrite <- list_fmap_compose. apply list_fmap_ext. intros _ c _. simpl.
    apply formatContact_phone. }
  split; [| split ].
  - apply Forall_forall. intros f Hin.
    apply list_elem_of_fmap in Hin as (c & -> & Hc).
    apply list_elem_of_In, filter_In in Hc as [_ Hc]. apply has_valid_phone_ok in Hc.
    destruct Hc as (p & Hp & Hv). exists p. by rewrite formatContact_phone.
  - rewrite Hph.
    apply (sublist_NoDup _ (contact_phone <$> deduplicateContacts loadedContacts)).
    + rewrite deduplicateContacts_eq. apply first_occurrences_NoDup.
    + apply fmap_sublist, List_filter_sublist.
  - etransitivity; [ apply filter_length_le |].
    apply sublist_length. rewrite deduplicateContacts_eq. apply first_occurrences_sublist.
Qed.

(** *** The saved contact lists *)

Lemma splice_one_end {A : Type} (l : list A) (x : A) :
  splice_one (Z.of_nat (List.length l)) (l ++ [x]) = l.
Proof.
  unfold splice_one. rewrite length_app. simpl.
  destruct (Z.ltb_spec (Z.of_nat (List.length l)) 0); [ lia |].
  rewrite Z.min_l by lia. rewrite Nat2Z.id.
  rewrite take_app_length, drop_ge, app_nil_r; [ done |].
  rewrite length_app. simpl. lia.
Qed.

Lemma splice_one_beyond {A : Type} (index : Z) (l : list A) :
  (Z.of_nat (List.length l) <= index)%Z -> splice_one index l = l.
Proof.
  intros H. unfold splice_one.
  destruct (Z.ltb_spec index 0); [ lia |].
  rewrite Z.min_r by lia. rewrite Nat2Z.id.
  rewrite firstn_all, drop_ge, app_nil_r; [ done | lia ].
Qed.

(** X12.  Over an item that does not parse or is not an array
    [saveContactsToStorage] returns [false] and leaves the item as it
    is.  Over a missing item or an array it returns [true] and stores
    the earlier lists followed by the new one: these are the lists
    loaded afterwards, deleting the position of the new list gives the
    earlier lists back, and deleting a position past the end changes
    nothing. *)
Theorem saved_lists_round_trip (contacts : list contact) (name timestamp : string)
  (store : item) :
  let entry := {| sl_name := name; sl_contacts := contacts;
                  sl_timestamp := timestamp; sl_count := List.length contacts |} in
  let r := saveContactsToStorage contacts name timestamp store in
  (store = BadJson \/ store = NotArray -> r = (false, store))
  /\ (forall ls,
        (store = NoItem /\ ls = []) \/ store = Lists ls ->
        r = (true, Lists (ls ++ [entry])%list)
        /\ loadContactsFromStorage store = Some ls
        /\ loadContactsFromStorage r.2 = Some (ls ++ [entry])%list
        /\ deleteContactList (Z.of_nat (List.length ls)) r.2 = (true, Lists ls)
        /\ forall index, (Z.of_nat (List.length ls) < index)%Z ->
                         deleteContactList index r.2 = (true, r.2)).
Proof.
  cbv zeta. split.
  - by intros [-> | ->].
  - intros ls [[-> ->] | ->]; cbn.
    + repeat split; try done.
      intros index Hi. do 2 f_equal. apply splice_one_beyond. simpl. lia.
    + split; [ done |]. split; [ done |]. split; [ done |]. split.
      * by rewrite splice_one_end.
      * intros index Hi. do 2 f_equal. apply splice_one_beyond.
        rewrite length_app. simpl. lia.
Qed.

Lemma saved_lists_round_trip_witness :
  saveContactsToStorage [amara] "Default" "2026-01-01T00:00:00.000Z" BadJson
  = (false, BadJson)
  /\ (saveContactsToStorage [amara] "Default" "2026-01-01T00:00:00.000Z" NoItem).1
     = true.
Proof.
  destruct (saved_lists_round_trip [amara] "Default" "2026-01-01T00:00:00.000Z" BadJson)
    as [Hbad _].
  destruct (saved_lists_round_trip [amara] "Default" "2026-01-01T00:00:00.000Z" NoItem)
    as [_ Hok].
  split; [ apply Hbad; by left |].
  destruct (Hok [] (or_introl (conj eq_refl eq_refl))) as [-> _]. reflexivity.
Defined.

(** ** templateUtils, continued *)

(** Of two keys that [unique_from] lists, the one listed first
    occurs among the keys before the other occurs at all. *)
Lemma unique_from_order (keys : list string) :
  forall seen i j k1 k2,
    unique_from seen keys !! i = Some k1 ->
    unique_from seen keys !! j = Some k2 ->
    (i < j)%nat ->
    exists p, keys !! p = Some k1 /\ forall q, (q <= p)%nat -> keys !! q <> Some k2.
Proof.
  induction keys as [|k keys IH]; intros seen i j k1 k2 H1 H2 Hij; [ done |].
  cbn [unique_from] in H1, H2.
  destruct (bool_decide (k ∈ seen)) eqn:Hk.
  - apply bool_decide_eq_true in Hk.
    destruct (IH seen i j k1 k2 H1 H2 Hij) as (p & Hp & Hq).
    exists (S p). split; [ done |]. intros [|q] Hle; [| apply Hq; lia ].
    cbn. intros [= ->].
    apply list_elem_of_lookup_2 in H2.
    destruct (unique_from_spec keys seen) as (Hin & _).
    apply Hin in H2. tauto.
  - destruct j as [|j]; [ lia |]. cbn in H2.
    assert (Hne : k <> k2).
    { intros ->. apply list_elem_of_lookup_2 in H2.
      destruct (unique_from_spec keys (k2 :: seen)) as (Hin & _).
      apply Hin in H2. destruct H2 as [_ H2]. apply H2. by left. }
    destruct i as [|i].
    + injection H1 as <-. exists 0%nat. split; [ done |].
      intros q Hq. replace q with 0%nat by lia. cbn. congruence.
    + cbn in H1. destruct (IH (k :: seen) i j k1 k2 H1 H2 ltac:(lia)) as (p & Hp & Hq).
      exists (S p). split; [ done |]. intros [|q] Hle; [| apply Hq; lia ].
      cbn. congruence.
Qed.

(** X13.  [extractPlaceholders] lists the field names of the
    placeholders of the template, all of them and each once, in the
    order in which the names first appear: a name listed before
    another occurs in the template before the other occurs at all.  A
    template in which it finds none is rendered to itself for every
    contact. *)
Theorem extractPlaceholders_unique (template : string) :
  let keys := map (fun mk => trim mk.2) (matches_from 0 template) in
  NoDup (extractPlaceholders template)
  /\ (forall k, k ∈ extractPlaceholders template <-> k ∈ keys)
  /\ (forall i j k1 k2,
        extractPlaceholders template !! i = Some k1 ->
        extractPlaceholders template !! j = Some k2 ->
        (i < j)%nat ->
        exists p, keys !! p = Some k1
                  /\ forall q, (q <= p)%nat -> keys !! q <> Some k2)
  /\ sublist (extractPlaceholders template) keys
  /\ (extractPlaceholders template = [] ->
      forall c : contact, renderMessage template c = template).
Proof.
  cbv zeta.
  assert (Hx : extractPlaceholders template
               = unique_from [] (map (fun mk => trim mk.2) (matches_from 0 template))).
  { unfold extractPlaceholders. by destruct template. }
  destruct (unique_from_spec
    (map (fun mk => trim mk.2) (matches_from 0 template)) []) as (Hin & Hnd & Hsub).
  split; [ by rewrite Hx |]. split; [| split; [| split; [ by rewrite Hx |] ] ].
  - intros k. rewrite Hx, Hin. split; [ tauto |]. intros Hk. split; [ done |].
    apply not_elem_of_nil.
  - rewrite Hx. apply unique_from_order.
  - intros Hnone c. rewrite renderMessage_replace.
    apply (replace_from_no_match _ (String.length template)); [ done |].
    destruct (matches_from 0 template) as [|[m key] ms] eqn:Hm; [ done |].
    assert (Hin' : trim key ∈ extractPlaceholders template).
    { apply extractPlaceholders_elem. exists m, key. rewrite Hm.
      split; [ apply list_elem_of_here | done ]. }
    rewrite Hnone in Hin'. by apply elem_of_nil in Hin'.
Qed.

Lemma extractPlaceholders_unique_witness :
  extractPlaceholders "Kindly confirm by Friday." = []
  /\ renderMessage "Kindly confirm by Friday." amara = "Kindly confirm by Friday.".
Proof.
  split; [ reflexivity |].
  exact (proj2 (proj2 (proj2 (proj2
           (extractPlaceholders_unique "Kindly confirm by Friday."))))
           eq_refl amara).
Defined.

(** X14.  The rendered message depends on the contact only through the
    fields [extractPlaceholders] lists: two contacts that agree on
    those fields get the same message. *)
Theorem renderMessage_depends_on_placeholders (template : string) (c1 c2 : contact) :
  (forall k, k ∈ extractPlaceholders template -> c1 !! k = c2 !! k) ->
  renderMessage template c1 = renderMessage template c2.
Proof.
  intros Hagree. rewrite !renderMessage_replace.
  apply (replace_from_ext _ _ (String.length template)); [ done |].
  intros m key Hin. unfold substitute. cbv zeta.
  rewrite (Hagree (trim key)); [ done |].
  apply extractPlaceholders_elem. eauto.
Qed.

Lemma renderMessage_depends_on_placeholders_witness :
  renderMessage "Hi {first_name}" amara
  = renderMessage "Hi {first_name}" (<["email" := "amara@example.org"]> amara).
Proof.
  apply (renderMessage_depends_on_placeholders "Hi {first_name}").
  intros k Hk.
  change (k ∈ ["first_name"]) in Hk. apply list_elem_of_singleton in Hk as ->.
  vm_compute. reflexivity.
Defined.

Lemma validatePlaceholders_missing (template : string) (availableFields : list string) :
  forall k,
    k ∈ (validatePlaceholders template availableFields).2
    <-> k ∈ extractPlaceholders template /\ k ∉ availableFields.
Proof.
  intros k. unfold validatePlaceholders. cbn [snd].
  rewrite list_elem_of_In, filter_In, <- list_elem_of_In.
  rewrite negb_true_iff, bool_decide_eq_false. tauto.
Qed.

Lemma validatePlaceholders_valid (template : string) (availableFields : list string) :
  (validatePlaceholders template availableFields).1 = true
  <-> forall k, k ∈ extractPlaceholders template -> k ∈ availableFields.
Proof.
  assert (Hm := validatePlaceholders_missing template availableFields).
  unfold validatePlaceholders in *. cbn [fst snd] in *.
  rewrite Nat.eqb_eq. split.
  - intros Hlen k Hk. destruct (decide (k ∈ availableFields)) as [|Hno]; [ done |].
    apply length_zero_iff_nil in Hlen. rewrite Hlen in Hm.
    pose proof (proj2 (Hm k) (conj Hk Hno)) as Hin. by apply elem_of_nil in Hin.
  - intros Hall. apply length_zero_iff_nil.
    destruct (List.filter _ _) as [|k l] eqn:Hf; [ done |].
    destruct (proj1 (Hm k) (list_elem_of_here _ _)) as [Hk Hno].
    destruct Hno. by apply Hall.
Qed.

(** X15.  [validatePlaceholders] reports the placeholders that are not
    among the available fields, each once; it answers [valid] exactly
    when there is none, and then a contact that has every available
    field gets every placeholder replaced by the field's value: the
    matched text is never kept. *)
Theorem validatePlaceholders_sound (template : string) (availableFields : list string) :
  (forall k, k ∈ (validatePlaceholders template availableFields).2
             <-> k ∈ extractPlaceholders template /\ k ∉ availableFields)
  /\ NoDup (validatePlaceholders template availableFields).2
  /\ ((validatePlaceholders template availableFields).1 = true
      <-> (validatePlaceholders template availableFields).2 = [])
  /\ ((validatePlaceholders template availableFields).1 = true ->
      forall c : contact,
        (forall k, k ∈ availableFields -> is_Some (c !! k)) ->
        renderMessage template c
        = (if falsy template then ""
           else replace_placeholders (fun _ key => default "" (c !! trim key)) template)).
Proof.
  split; [ apply validatePlaceholders_missing |]. split; [| split ].
  - unfold validatePlaceholders. cbn [snd].
    apply NoDup_ListNoDup, List.NoDup_filter, NoDup_ListNoDup.
    unfold extractPlaceholders. destruct (falsy template); [ constructor |].
    by destruct (unique_from_spec
      (map (fun mk => trim mk.2) (matches_from 0 template)) []) as (_ & ? & _).
  - unfold validatePlaceholders. cbn [fst snd].
    rewrite Nat.eqb_eq. apply length_zero_iff_nil.
  - intros Hvalid c Hfields. unfold renderMessage.
    destruct (falsy template) eqn:Hf; [ done |].
    apply (replace_from_ext _ _ (String.length template)); [ done |].
    intros m key Hin. unfold substitute. cbv zeta.
    destruct (Hfields (trim key)) as [v ->]; [| done ].
    apply (proj1 (validatePlaceholders_valid template availableFields) Hvalid).
    apply extractPlaceholders_elem. eauto.
Qed.

Lemma validatePlaceholders_sound_witness :
  (validatePlaceholders "Hi {first_name}" ["first_name"]).1 = true
  /\ renderMessage "Hi {first_name}" amara = "Hi Amara".
Proof.
  split; [ reflexivity |].
  rewrite (proj2 (proj2 (proj2
    (validatePlaceholders_sound "Hi {first_name}" ["first_name"]))) eq_refl amara).
  - vm_compute. reflexivity.
  - intros k Hk. apply list_elem_of_singleton in Hk as ->. by exists "Amara".
Defined.

Lemma generatePreview_lookup (template : string) (contacts : list contact) (count i : nat) :
  falsy template = false ->
  generatePreview template contacts count !! i
  = (if (i <? count)%nat
     then (fun c => {| pv_phone := c !! "phone"; pv_contact := c;
                       pv_message := renderMessage template c |}) <$> contacts !! i
     else None).
Proof.
  intros Hf. unfold generatePreview. rewrite Hf.
  change (map ?f ?l) with (f <$> l). rewrite list_lookup_fmap.
  destruct (Nat.ltb_spec i count).
  - by rewrite lookup_take_lt.
  - by rewrite lookup_take_ge.
Qed.

Lemma finalMessages_lookup (template : string) (contacts : list contact) (i : nat)
    (c : contact) :
  falsy template = false ->
  contacts !! i = Some c ->
  finalMessages contacts template !! i
  = Some {| pv_phone := c !! "phone"; pv_contact := c;
            pv_message := renderMessage template c |}.
Proof.
  intros Hf Hc. unfold finalMessages. rewrite Hf.
  assert (Hlt := lookup_lt_Some _ _ _ Hc).
  destruct (List.length contacts) as [|n] eqn:Hn; [ lia |].
  cbn [Nat.eqb orb]. rewrite generatePreview_lookup by done.
  apply Nat.ltb_lt in Hlt. by rewrite Hlt, Hc.
Qed.

(** X16.  For a non-empty template [generatePreview] yields one preview
    for each of the first [count] contacts, in their order: the
    contact itself, its phone and its rendered message.  The page's
    [finalMessages] asks for as many previews as there are contacts,
    so it has a message at every index at which there is a contact. *)
Theorem generatePreview_follows_contacts (template : string) (contacts : list contact)
    (count : nat) :
  falsy template = false ->
  List.length (generatePreview template contacts count)
  = Nat.min count (List.length contacts)
  /\ (forall i c,
        (i < count)%nat -> contacts !! i = Some c ->
        generatePreview template contacts count !! i
        = Some {| pv_phone := c !! "phone"; pv_contact := c;
                  pv_message := renderMessage template c |})
  /\ (forall i c,
        contacts !! i = Some c ->
        finalMessages contacts template !! i
        = Some {| pv_phone := c !! "phone"; pv_contact := c;
                  pv_message := renderMessage template c |}).
Proof.
  intros Hf. split; [| split ].
  - unfold generatePreview. rewrite Hf, length_map, length_take. done.
  - intros i c Hi Hc. rewrite generatePreview_lookup by done.
    apply Nat.ltb_lt in Hi. by rewrite Hi, Hc.
  - intros i c Hc. by apply finalMessages_lookup.
Qed.

Lemma generatePreview_follows_contacts_witness :
  List.length (generatePreview "Hi {first_name}" [amara; amara] 1) = 1%nat.
Proof.
  exact (proj1 (generatePreview_follows_contacts "Hi {first_name}" [amara; amara] 1
                  eq_refl)).
Defined.

(** ** whatsappUtils, continued *)

Lemma getRandomDelay_attains (min max v : Z) :
  (min <= v <= max)%Z ->
  getRandomDelay {| rnd_num := v - min; rnd_den := max - min + 1 |} min max = v.
Proof.
  intros Hv. unfold getRandomDelay. cbn [rnd_num rnd_den].
  rewrite Z.div_mul by lia. lia.
Qed.

(** X17.  [getRandomDelay] stays between [min] and [max], both
    included, and every whole number in between is the delay of some
    value of [Math.random()]. *)
Theorem getRandomDelay_inclusive (min max : Z) :
  (min <= max)%Z ->
  (forall r, in_unit_interval r -> (min <= getRandomDelay r min max <= max)%Z)
  /\ (forall v, (min <= v <= max)%Z ->
        exists r, in_unit_interval r /\ getRandomDelay r min max = v).
Proof.
  intros Hle. split.
  - intros r Hr. by apply getRandomDelay_range.
  - intros v Hv. exists {| rnd_num := v - min; rnd_den := max - min + 1 |}.
    split; [ unfold in_unit_interval; cbn [rnd_num rnd_den]; lia |].
    by apply getRandomDelay_attains.
Qed.

Lemma getRandomDelay_inclusive_witness :
  exists r, in_unit_interval r /\ getRandomDelay r 5000 15000 = 15000%Z.
Proof.
  apply (getRandomDelay_inclusive 5000 15000); lia.
Defined.

Lemma cooldownDue_multiple (messageCount : Z) :
  cooldownDue messageCount 20 = true
  <-> (0 < messageCount)%Z /\ exists k, messageCount = (20 * k)%Z.
Proof.
  unfold cooldownDue. rewrite andb_true_iff, Z.ltb_lt, Z.eqb_eq. split.
  - intros [Hpos Hrem]. split; [ done |].
    exists (messageCount / 20)%Z.
    rewrite Z.rem_mod_nonneg in Hrem by lia.
    pose proof (Z.div_mod messageCount 20). lia.
  - intros [Hpos [k ->]]. split; [ done |].
    rewrite Z.mul_comm. apply Z.rem_mul. lia.
Qed.

(** X18.  [getCooldownDelay] with the interval 20 asks for a pause of
    30 to 60 seconds exactly when the count is a positive multiple of
    20, and for none otherwise. *)
Theorem getCooldownDelay_every_twenty (r : random) (messageCount : Z) :
  in_unit_interval r ->
  ((0 < messageCount)%Z /\ (exists k, messageCount = (20 * k)%Z) ->
   (30000 <= getCooldownDelay r messageCount 20 <= 60000)%Z)
  /\ (~ ((0 < messageCount)%Z /\ exists k, messageCount = (20 * k)%Z) ->
      getCooldownDelay r messageCount 20 = 0%Z).
Proof.
  intros Hr. destruct (getCooldownDelay_window r messageCount Hr) as [[Hd Hw] | [Hd Hz]].
  - split; [ done |]. intros Hno. destruct Hno. by apply cooldownDue_multiple.
  - split; [| done ]. intros Hm. apply cooldownDue_multiple in Hm. congruence.
Qed.

Lemma getCooldownDelay_every_twenty_witness :
  getCooldownDelay {| rnd_num := 1; rnd_den := 2 |} 21 20 = 0%Z.
Proof.
  apply (getCooldownDelay_every_twenty {| rnd_num := 1; rnd_den := 2 |} 21).
  - unfold in_unit_interval. cbn [rnd_num rnd_den]. lia.
  - intros [_ [k Hk]]. lia.
Defined.

Lemma roundSeconds_exact (s : Z) : roundSeconds (1000 * s) = s.
Proof.
  unfold roundSeconds.
  rewrite (Z.mul_comm 1000 s), Z.div_add_l by lia.
  change (500 / 1000)%Z with 0%Z. lia.
Qed.

(** X19.  For a count that is not negative, [estimateSendingTime]
    allows ten seconds for each contact and 45 seconds for each full
    twenty of them; the milliseconds are a whole number of seconds, so
    the rounding loses nothing, and the formatted text splits the
    seconds into minutes and fewer than 60 seconds. *)
Theorem estimateSendingTime_consistent (contactCount : Z) :
  (0 <= contactCount)%Z ->
  est_seconds (estimateSendingTime contactCount)
  = (10 * contactCount + 45 * (contactCount / 20))%Z
  /\ est_ms (estimateSendingTime contactCount)
     = (1000 * est_seconds (estimateSendingTime contactCount))%Z
  /\ exists minutes seconds : Z,
       est_formatted (estimateSendingTime contactCount)
       = pretty minutes ++ "m " ++ pretty seconds ++ "s"
       /\ (0 <= seconds < 60)%Z
       /\ (60 * minutes + seconds)%Z = est_seconds (estimateSendingTime contactCount).
Proof.
  intros Hn. unfold estimateSendingTime. cbn [est_ms est_seconds est_formatted].
  assert (Hq : (0 <= contactCount / 20)%Z) by (apply Z.div_pos; lia).
  assert (Hms : (contactCount * 10000 + contactCount / 20 * 45000)%Z
                = (1000 * (10 * contactCount + 45 * (contactCount / 20)))%Z) by lia.
  rewrite Hms, roundSeconds_exact.
  split; [ done |]. split; [ done |].
  set (total := (10 * contactCount + 45 * (contactCount / 20))%Z).
  assert (Ht : (0 <= total)%Z) by (unfold total; lia).
  exists (total / 60)%Z, (Z.rem total 60). split; [ done |].
  rewrite Z.rem_mod_nonneg by lia.
  pose proof (Z.mod_pos_bound total 60). pose proof (Z.div_mod total 60). lia.
Qed.

Lemma estimateSendingTime_consistent_witness :
  est_seconds (estimateSendingTime 45) = 540%Z.
Proof.
  exact (proj1 (estimateSendingTime_consistent 45 ltac:(lia))).
Defined.

(** ** fileParser *)

Lemma suggest_lookup_ne (field f : string) (test : bool) (header : string)
    (mapping : gmap string string) :
  f <> field -> suggest field test header mapping !! f = mapping !! f.
Proof.
  intros Hne. unfold suggest.
  destruct (negb (truthy (mapping !! field)) && test); [| done ].
  by rewrite lookup_insert_ne.
Qed.

Lemma suggest_lookup_eq (field : string) (test : bool) (header : string)
    (mapping : gmap string string) :
  suggest field test header mapping !! field
  = if negb (truthy (mapping !! field)) && test then Some header
    else mapping !! field.
Proof.
  unfold suggest.
  destruct (negb (truthy (mapping !! field)) && test); [| done ].
  by rewrite lookup_insert_eq.
Qed.

Ltac suggest_lookup :=
  unfold detect_step; cbv zeta;
  repeat first
    [ rewrite suggest_lookup_eq
    | rewrite suggest_lookup_ne by (intros [=]) ];
  try reflexivity.

(** Folding a step that fills a field at the first header passing its
    test, and never overwrites a value that is not the empty string. *)
Lemma first_match_fold (f : string) (test : string -> bool)
    (step : gmap string string -> string -> gmap string string) :
  (forall m h, step m h !! f
               = if negb (truthy (m !! f)) && test h then Some h else m !! f) ->
  test "" = false ->
  forall headers m,
    (m !! f = None \/ truthy (m !! f) = true) ->
    fold_left step headers m !! f
    = match m !! f with
      | Some v => Some v
      | None => List.find test headers
      end.
Proof.
  intros Hstep Hempty headers.
  induction headers as [|h headers IH]; intros m Hm; cbn [fold_left List.find].
  - by destruct (m !! f).
  - rewrite IH; rewrite Hstep.
    + destruct Hm as [Hm | Hm]; rewrite ?Hm; cbn [truthy negb andb].
      * by destruct (test h).
      * by destruct (m !! f).
    + destruct Hm as [Hm | Hm]; rewrite ?Hm; cbn [truthy negb andb].
      * destruct (test h) eqn:Ht; [| by left ]. right.
        destruct h; [ congruence | done ].
      * by right.
Qed.

Lemma first_match_empty (f : string) (test : string -> bool)
    (step : gmap string string -> string -> gmap string string) (headers : list string) :
  (forall m h, step m h !! f
               = if negb (truthy (m !! f)) && test h then Some h else m !! f) ->
  test "" = false ->
  fold_left step headers ∅ !! f = List.find test headers.
Proof.
  intros Hstep Hempty.
  rewrite (first_match_fold f test step Hstep Hempty) by (left; apply lookup_empty).
  by rewrite lookup_empty.
Qed.

Lemma detect_step_other (f : string) (m : gmap string string) (h : string) :
  f ∉ standard_fields -> f <> "phone" -> detect_step m h !! f = m !! f.
Proof.
  intros Hf Hp. unfold standard_fields in Hf.
  rewrite !not_elem_of_cons in Hf. destruct Hf as (? & ? & ? & ? & ? & _).
  unfold detect_step. cbv zeta. by rewrite !suggest_lookup_ne.
Qed.

Lemma detectHeaders_other (f : string) (headers : list string) :
  f ∉ standard_fields -> f <> "phone" -> detectHeaders headers !! f = None.
Proof.
  intros Hf Hp. unfold detectHeaders.
  assert (Hgen : forall m, m !! f = None ->
            fold_left detect_step headers m !! f = None).
  { induction headers as [|x xs IH]; intros m Hm; [ done |].
    cbn [fold_left]. apply IH. by rewrite detect_step_other. }
  apply Hgen, lookup_empty.
Qed.

Lemma detectHeaders_first (headers : list string) :
  detectHeaders headers !! "phone"
  = List.find (fun h => matches h phonePatterns) headers
  /\ detectHeaders headers !! "name"
     = List.find (fun h => matches h namePatterns
                           && negb (matches h ["first"; "last"; "sur"])) headers
  /\ detectHeaders headers !! "first_name"
     = List.find (fun h => matches h firstNamePatterns) headers
  /\ detectHeaders headers !! "last_name"
     = List.find (fun h => matches h lastNamePatterns) headers
  /\ detectHeaders headers !! "email"
     = List.find (fun h => matches h emailPatterns) headers
  /\ detectHeaders headers !! "location"
     = List.find (fun h => matches h locationPatterns) headers.
Proof.
  unfold detectHeaders.
  repeat split;
    (apply first_match_empty;
     [ intros m h; suggest_lookup | vm_compute; reflexivity ]).
Qed.

(** X23.  [detectHeaders] suggests, for each of the six fields, the
    first header that passes the field's test, whatever comes after
    it, and suggests nothing for any other field. *)
Theorem detectHeaders_first_match (headers : list string) :
  detectHeaders headers !! "phone"
  = List.find (fun h => matches h phonePatterns) headers
  /\ detectHeaders headers !! "name"
     = List.find (fun h => matches h namePatterns
                           && negb (matches h ["first"; "last"; "sur"])) headers
  /\ detectHeaders headers !! "first_name"
     = List.find (fun h => matches h firstNamePatterns) headers
  /\ detectHeaders headers !! "last_name"
     = List.find (fun h => matches h lastNamePatterns) headers
  /\ detectHeaders headers !! "email"
     = List.find (fun h => matches h emailPatterns) headers
  /\ detectHeaders headers !! "location"
     = List.find (fun h => matches h locationPatterns) headers
  /\ (forall f h, detectHeaders headers !! f = Some h ->
        (f = "phone" \/ f ∈ standard_fields) /\ h ∈ headers).
Proof.
  assert (Hfirst := detectHeaders_first headers).
  destruct Hfirst as (Hp & Hn & Hf & Hl & He & Hloc).
  do 6 (split; [ done |]).
  intros f h Hfh.
  destruct (decide (f = "phone")) as [-> | Hnp].
  { split; [ by left |]. rewrite Hp in Hfh.
    apply find_some in Hfh as [Hin _]. by apply list_elem_of_In. }
  destruct (decide (f ∈ standard_fields)) as [Hin | Hno].
  - split; [ by right |]. unfold standard_fields in Hin.
    rewrite !elem_of_cons, elem_of_nil in Hin.
    destruct Hin as [-> | [-> | [-> | [-> | [-> | []]]]]];
      [ rewrite Hn in Hfh | rewrite Hf in Hfh | rewrite Hl in Hfh
      | rewrite He in Hfh | rewrite Hloc in Hfh ];
      apply find_some in Hfh as [Hin _]; by apply list_elem_of_In.
  - by rewrite detectHeaders_other in Hfh.
Qed.

(** *** Rows of a CSV file *)

Lemma row_object_notin (headers row : list string) :
  forall (obj : gmap string string) (h : string),
    h ∉ headers -> row_object headers row obj !! h = obj !! h.
Proof.
  revert row. induction headers as [|x xs IH]; intros row obj h Hh; [ done |].
  apply not_elem_of_cons in Hh as [Hne Hh]. cbn [row_object].
  rewrite IH by done. destruct (String.eqb x "__proto__"); [ done |].
  by rewrite lookup_insert_ne.
Qed.

Lemma row_object_keys (headers row : list string) :
  forall (obj : gmap string string) (h : string),
    is_Some (row_object headers row obj !! h)
    <-> (h ∈ headers /\ h <> "__proto__") \/ is_Some (obj !! h).
Proof.
  revert row. induction headers as [|x xs IH]; intros row obj h; cbn [row_object].
  - rewrite elem_of_nil. tauto.
  - rewrite IH, elem_of_cons. destruct (String.eqb_spec x "__proto__") as [-> | Hx].
    + split; [ tauto |]. intros [[[-> | Hin] Hne] | Hobj]; [ done | tauto | tauto ].
    + destruct (decide (h = x)) as [-> | Hne].
      * rewrite lookup_insert_eq. split; [ intros _; left; by split; [ left |] |].
        intros _. right. by eexists.
      * rewrite lookup_insert_ne by done. tauto.
Qed.

Lemma row_object_value (headers : list string) :
  forall (row : list string) (obj : gmap string string) (j : nat) (h : string),
    NoDup headers -> headers !! j = Some h -> h <> "__proto__" ->
    row_object headers row obj !! h = Some (or_else (row !! j) "").
Proof.
  induction headers as [|x xs IH]; intros row obj j h Hnd Hj Hp; [ done |].
  apply NoDup_cons in Hnd as [Hx Hnd]. cbn [row_object].
  destruct j as [|j].
  - injection Hj as ->. rewrite row_object_notin by done.
    destruct (String.eqb_spec h "__proto__") as [-> | _]; [ done |].
    rewrite lookup_insert_eq. by destruct row.
  - rewrite (IH _ _ j h Hnd Hj Hp). by destruct row.
Qed.

(** X21.  Every data row of [parseCSV] has exactly the columns of the
    header row, save a header [__proto__], for which a row gets no
    column: a column the line has no field for holds the empty string,
    and fields beyond the last header are left out.  There is a data
    row for every line after the first, and with headers that are all
    different the column of the j-th header, if it is not [__proto__],
    holds the j-th field of the line. *)
Theorem parseCSV_rows (csvText : string) :
  Forall (fun row : gmap string string =>
            forall h, is_Some (row !! h)
                      <-> h ∈ (parseCSV csvText).2 /\ h <> "__proto__")
         (parseCSV csvText).1
  /\ List.length (parseCSV csvText).1
     = Nat.pred (List.length (csv_lines false "" csvText))
  /\ (NoDup (parseCSV csvText).2 ->
      forall i line j h,
        csv_lines false "" csvText !! S i = Some line ->
        (parseCSV csvText).2 !! j = Some h ->
        h <> "__proto__" ->
        exists row, (parseCSV csvText).1 !! i = Some row
                    /\ row !! h = Some (or_else (parseCSVLine line !! j) "")).
Proof.
  unfold parseCSV. destruct csvText as [|c text]; cbn [falsy].
  { repeat split; [ constructor | done ]. }
  destruct (csv_lines false "" (String c text)) as [|first others]; cbn [map fst snd].
  { repeat split; [ constructor | done ]. }
  split; [| split ].
  - apply Forall_forall. intros row Hrow h.
    apply list_elem_of_In, in_map_iff in Hrow as (fields & <- & _).
    rewrite row_object_keys, lookup_empty. split; [| by left ].
    intros [? | [? [=]]]. done.
  - by rewrite !length_map.
  - intros Hnd i line j h Hline Hh Hp. cbn [lookup list_lookup] in Hline.
    exists (row_object (map trim (parseCSVLine first)) (parseCSVLine line) ∅).
    split; [| by apply row_object_value ].
    change (map ?f ?l) with (f <$> l). rewrite !list_lookup_fmap.
    change (others !! i = Some line) in Hline. by rewrite Hline.
Qed.

(** *** Fields of a line *)

Lemma snoc_app (cur : string) (c : ascii) (s : string) :
  snoc cur c ++ s = cur ++ String c s.
Proof. unfold snoc. by rewrite app_assoc_s. Qed.

Lemma csv_fields_plain (s : string) :
  forall cur rest,
    all plain s = true ->
    csv_fields false cur (s ++ rest) = csv_fields false (cur ++ s) rest.
Proof.
  induction s as [|c s IH]; intros cur rest Hs.
  - by rewrite app_nil_s, app_empty_r.
  - simpl in Hs. apply andb_true_iff in Hs as [Hc Hs].
    unfold plain, not_quote in Hc. apply andb_true_iff in Hc as [Hq Hcm].
    apply negb_true_iff in Hq, Hcm.
    rewrite app_cons_s. cbn [csv_fields]. rewrite Hq, Hcm. cbn [andb].
    rewrite IH by done. by rewrite snoc_app.
Qed.

Lemma csv_fields_inside (field : string) :
  forall cur rest,
    field_end rest ->
    csv_fields true cur (double_quotes field ++ String quote rest)
    = csv_fields false (cur ++ field) rest.
Proof.
  induction field as [|c field IH]; intros cur rest Hrest.
  - cbn [double_quotes]. rewrite app_nil_s, app_empty_r. cbn [csv_fields].
    change (Ascii.eqb quote quote) with true. cbv iota.
    destruct Hrest as [-> | [r ->]]; [ done |].
    change (Ascii.eqb comma quote) with false. by rewrite andb_false_r.
  - cbn [double_quotes]. destruct (Ascii.eqb_spec c quote) as [-> | Hne].
    + rewrite !app_cons_s. cbn [csv_fields].
      change (Ascii.eqb quote quote) with true. cbn [andb]. cbv iota.
      rewrite IH by done. by rewrite snoc_app.
    + rewrite app_cons_s. cbn [csv_fields].
      apply Ascii.eqb_neq in Hne. rewrite Hne. rewrite andb_false_r.
      rewrite IH by done. by rewrite snoc_app.
Qed.

Lemma csv_fields_quoted (field rest : string) :
  field_end rest ->
  csv_fields false "" (quoted field ++ rest) = csv_fields false field rest.
Proof.
  intros Hrest. unfold quoted. rewrite app_cons_s, app_assoc_s, app_cons_s, app_nil_s.
  cbn [csv_fields]. change (Ascii.eqb quote quote) with true. cbv iota. cbn [andb negb].
  assert (Hin := csv_fields_inside field "" rest Hrest). rewrite app_nil_s in Hin.
  destruct (double_quotes field ++ String quote rest) eqn:Hs; [| done ].
  destruct (double_quotes field); discriminate.
Qed.

Lemma csv_fields_comma (cur rest : string) :
  csv_fields false cur (String comma rest) = trim cur :: csv_fields false "" rest.
Proof. done. Qed.

(** How a field is written on the line: as it is when it has neither
    quote nor comma, or quoted. *)
Lemma csv_fields_written (fields written : list string) :
  Forall2 (fun field text =>
             (text = field /\ all plain field = true) \/ text = quoted field)
          fields written ->
  fields <> [] ->
  csv_fields false "" (join "," written) = map trim fields.
Proof.
  induction 1 as [|field text fields written Hone Hrest IH]; intros Hne; [ done |].
  assert (Hhead : forall rest, field_end rest ->
            csv_fields false "" (text ++ rest) = csv_fields false field rest).
  { intros rest Hend. destruct Hone as [[-> Hp] | ->].
    - rewrite csv_fields_plain by done. by rewrite app_nil_s.
    - by apply csv_fields_quoted. }
  destruct Hrest as [|field' text' fields' written' Hone' Hrest'].
  - cbn [join map]. rewrite <- (app_empty_r text), Hhead by (by left). done.
  - rewrite join_cons by done. change ("," ++ ?s) with (String comma s).
    rewrite Hhead by (right; by eexists). rewrite csv_fields_comma.
    rewrite IH by done. done.
Qed.

(** X20.  [parseCSVLine] reads back the fields of a line written in
    the usual way: a field with neither quote nor comma as it is, any
    field between quotes with its quotes doubled, a comma between
    fields.  What it yields is each field, trimmed. *)
Theorem parseCSVLine_reads_written (fields written : list string) :
  Forall2 (fun field text =>
             (text = field /\ all plain field = true) \/ text = quoted field)
          fields written ->
  fields <> [] ->
  parseCSVLine (join "," written) = map trim fields.
Proof. apply csv_fields_written. Qed.

Lemma parseCSVLine_reads_written_witness :
  parseCSVLine (join "," ["Amara"; quoted "Kampala, Uganda"])
  = ["Amara"; "Kampala, Uganda"].
Proof.
  apply (parseCSVLine_reads_written ["Amara"; "Kampala, Uganda"]); [| done ].
  constructor; [ left; split; reflexivity |].
  constructor; [ right; reflexivity | constructor ].
Defined.

(** *** What the first pass of [parseCSV] does to quotes *)

Lemma all_snoc (p : ascii -> bool) (cur : string) (c : ascii) :
  all p cur = true -> p c = true -> all p (snoc cur c) = true.
Proof. intros Hcur Hc. unfold snoc. rewrite all_app, Hcur. simpl. by rewrite Hc. Qed.

Lemma csv_lines_not_quote (s : string) :
  forall insideQuotes cur,
    includes s (String quote (String quote "")) = false ->
    all not_quote cur = true ->
    Forall (fun line => all not_quote line = true) (csv_lines insideQuotes cur s).
Proof.
  induction s as [|c s IH]; intros iq cur Hs Hcur.
  - cbn [csv_lines]. destruct (falsy (trim cur)); by repeat constructor.
  - cbn [includes] in Hs. apply orb_false_iff in Hs as [Hhere Hs].
    cbn [csv_lines]. destruct (Ascii.eqb_spec c quote) as [-> | Hne].
    + destruct s as [|d s']; [ by apply IH |].
      cbn [startsWith] in Hhere.
      change (Ascii.eqb quote quote) with true in Hhere.
      rewrite andb_true_l, andb_true_r in Hhere. rewrite Hhere, andb_false_r.
      by apply IH.
    + destruct (Ascii.eqb c newline && negb iq).
      * apply Forall_app. split; [| by apply IH ].
        destruct (falsy (trim cur)); by repeat constructor.
      * apply IH; [ done |]. apply all_snoc; [ done |].
        unfold not_quote. by apply negb_true_iff, Ascii.eqb_neq.
Qed.

Lemma csv_fields_no_quote (s : string) :
  forall cur,
    all not_quote s = true ->
    csv_fields false cur s
    = map trim (match split_on comma s with
                | [] => [cur]
                | piece :: pieces => (cur ++ piece) :: pieces
                end).
Proof.
  induction s as [|c s IH]; intros cur Hs.
  - cbn [split_on csv_fields map]. by rewrite app_empty_r.
  - simpl in Hs. apply andb_true_iff in Hs as [Hc Hs].
    unfold not_quote in Hc. apply negb_true_iff in Hc.
    cbn [csv_fields split_on]. rewrite Hc. cbn [negb]. rewrite andb_true_r.
    destruct (Ascii.eqb c comma).
    + rewrite (IH "") by done. rewrite app_empty_r. cbn [map]. f_equal.
      pose proof (split_on_nonempty comma s).
      by destruct (split_on comma s).
    + rewrite IH by done.
      pose proof (split_on_nonempty comma s).
      destruct (split_on comma s) as [|piece pieces]; [ done |].
      by rewrite snoc_app.
Qed.

Lemma parseCSVLine_no_quote (line : string) :
  all not_quote line = true ->
  parseCSVLine line = map trim (split_on comma line).
Proof.
  intros Hl. unfold parseCSVLine. rewrite csv_fields_no_quote by done.
  pose proof (split_on_nonempty comma line).
  by destruct (split_on comma line).
Qed.

(** X22.  The first pass of [parseCSV] takes the quote characters out
    of the lines it hands to [parseCSVLine] (a doubled quote between
    quotes apart).  So in a text without doubled quotes no line keeps
    a quote, and each line is cut at every comma, between quotes or
    not. *)
Theorem parseCSV_cuts_at_every_comma (csvText : string) :
  includes csvText (String quote (String quote "")) = false ->
  Forall (fun line => all not_quote line = true) (csv_lines false "" csvText)
  /\ map parseCSVLine (csv_lines false "" csvText)
     = map (fun line => map trim (split_on comma line)) (csv_lines false "" csvText)
  /\ parseCSV csvText
     = match map (fun line => map trim (split_on comma line))
                 (csv_lines false "" csvText) with
       | [] => ([], [])
       | first :: others =>
           (map (fun row => row_object (map trim first) row ∅) others, map trim first)
       end.
Proof.
  intros Hs.
  assert (Hq := csv_lines_not_quote csvText false "" Hs eq_refl).
  assert (Hmap : map parseCSVLine (csv_lines false "" csvText)
                 = map (fun line => map trim (split_on comma line))
                       (csv_lines false "" csvText)).
  { apply map_ext_in. intros line Hin. apply parseCSVLine_no_quote.
    rewrite Forall_forall in Hq. by apply Hq, list_elem_of_In. }
  split; [ done |]. split; [ done |].
  unfold parseCSV. rewrite Hmap. destruct csvText; done.
Qed.

Lemma parseCSV_cuts_at_every_comma_witness :
  (parseCSV (join (String newline "")
               ["name,city"; quoted "Amara" ++ "," ++ quoted "Kampala, Uganda"])).1
  = [ {[ "name" := "Amara"; "city" := "Kampala" ]} ].
Proof.
  rewrite (proj2 (proj2 (parseCSV_cuts_at_every_comma
    (join (String newline "")
       ["name,city"; quoted "Amara" ++ "," ++ quoted "Kampala, Uganda"]) eq_refl))).
  vm_compute. reflexivity.
Defined.

(** ** BulkSender: every contact its own message *)

Section Delivery.
Variable contacts : list contact.
Variable messages : list preview.
Variable random_source : nat -> random.
Variable window_open : nat -> bool.

(** There is a message for every contact. *)
Hypothesis messages_cover :
  forall i c, contacts !! i = Some c -> is_Some (messages !! i).

Local Abbreviation attempt := (attempt contacts messages random_source window_open).
Local Abbreviation pauseLoop := (pauseLoop contacts messages random_source window_open).
Local Abbreviation loopBody := (loopBody contacts messages random_source window_open).
Local Abbreviation forLoop := (forLoop contacts messages random_source window_open).
Local Abbreviation proceed := (proceed contacts messages random_source window_open).
Local Abbreviation handleStart := (handleStart contacts messages random_source window_open).
Local Abbreviation resume := (resume contacts messages random_source window_open).
Local Abbreviation step := (step contacts messages random_source window_open).














End Delivery.





(** ** BulkSender: the log and the reports *)

Section Log.
Variable contacts : list contact.
Variable messages : list preview.
Variable random_source : nat -> random.
Variable window_open : nat -> bool.

Local Abbreviation attempt := (attempt contacts messages random_source window_open).
Local Abbreviation pauseLoop := (pauseLoop contacts messages random_source window_open).
Local Abbreviation loopBody := (loopBody contacts messages random_source window_open).
Local Abbreviation forLoop := (forLoop contacts messages random_source window_open).
Local Abbreviation proceed := (proceed contacts messages random_source window_open).
Local Abbreviation handleStart := (handleStart contacts messages random_source window_open).
Local Abbreviation resume := (resume contacts messages random_source window_open).
Local Abbreviation after_wait := (after_wait contacts messages random_source window_open).
Local Abbreviation feed := (feed contacts messages random_source window_open).
Local Abbreviation step := (step contacts messages random_source window_open).
Local Abbreviation run := (run contacts messages random_source window_open).

Lemma capped_addLog (p : option string) (s : status) (m : string) (st : state) :
  capped (addLog p s m st).
Proof.
  unfold capped, addLog. cbn [log set_log List.length]. rewrite length_take. lia.
Qed.

Lemma capped_frame (st st' : state) : log st' = log st -> capped st -> capped st'.
Proof. unfold capped. by intros ->. Qed.

Lemma capped_onClick (c : click) (st : state) : capped st -> capped (onClick c st).
Proof.
  intros Hc. unfold onClick. destruct (sending st); [| done ].
  destruct c; unfold handlePause, handleStop; [| done ].
  destruct (negb (paused st)); apply capped_addLog.
Qed.

Lemma capped_deliver (d : Z) (cs : list (Z * click)) :
  forall st, capped st -> capped (deliver d cs st).
Proof.
  induction cs as [|[t c] cs IH]; intros st Hc; cbn [deliver]; [ done |].
  destruct (t <=? d)%Z; [| done ]. by apply IH, capped_onClick.
Qed.

Lemma capped_elapse (w : site) (ms : Z) (st : state) :
  capped st -> capped (elapse w ms st).
Proof.
  intros Hc. unfold elapse.
  apply (capped_frame (deliver (clock st + ms) (clicks st) (record (EvDelay w ms) st)));
    [ done |].
  by apply capped_deliver.
Qed.

Lemma capped_countdown (s : Z) (lc : locals) (st : state) :
  capped st -> capped (countdown random_source s lc st).2.
Proof.
  intros Hc. unfold countdown, afterCountdown, cooldownCheck.
  repeat case_match; cbn [snd]; try done; apply capped_addLog.
Qed.

Lemma capped_attempt (c : contact) (lc : locals) (st : state) :
  capped (attempt c lc st).2.
Proof.
  unfold BulkSender.attempt.
  destruct (messages !! l_i lc) as [message|]; [| apply capped_addLog ].
  unfold openWhatsAppWeb.
  set (st0 := addLog _ StSending _ _).
  destruct (negb (truthy (contact_phone c))); cbv beta iota zeta.
  - destruct (Z.of_nat (l_i lc) <? len contacts - 1)%Z.
    + unfold mathRandom. cbv beta iota zeta.
      apply capped_countdown. apply capped_addLog.
    + apply capped_addLog.
  - destruct (window_open (opens st0));
      (destruct (Z.of_nat (l_i lc) <? len contacts - 1)%Z;
       [ unfold mathRandom; cbv beta iota zeta;
         apply capped_countdown; apply capped_addLog
       | apply capped_addLog ]).
Qed.

Lemma capped_pauseLoop (c : contact) (lc : locals) (st : state) :
  capped st -> capped (pauseLoop c lc st).2.
Proof.
  intros Hc. unfold BulkSender.pauseLoop.
  repeat case_match; try done; apply capped_attempt.
Qed.

Lemma capped_loopBody (c : contact) (lc : locals) (st : state) :
  capped st -> capped (loopBody c lc st).2.
Proof.
  intros Hc. unfold BulkSender.loopBody.
  case_match; [ apply capped_addLog | by apply capped_pauseLoop ].
Qed.

Lemma capped_finish (lc : locals) (st : state) :
  capped st -> capped (finishSending contacts lc st).
Proof.
  intros Hc. unfold finishSending.
  destruct (_ =? _)%Z; [ apply capped_addLog |]. by destruct (reports st).
Qed.

Lemma capped_forLoop (rest : list contact) :
  forall lc st, capped st -> capped (forLoop rest lc st).
Proof.
  induction rest as [|c rest IH]; intros lc st Hc; cbn [BulkSender.forLoop].
  - by apply capped_finish.
  - pose proof (capped_loopBody c lc st Hc) as Hb.
    destruct (loopBody c lc st) as [[ctl lc'] st']. cbn [snd] in Hb.
    destruct ctl; [ done | by apply IH | by apply capped_finish ].
Qed.

Lemma capped_proceed (r : control * locals * state) :
  capped r.2 -> capped (proceed r).
Proof.
  destruct r as [[ctl lc] st]. cbn [snd]. intros Hc. unfold BulkSender.proceed.
  destruct ctl; [ done | by apply capped_forLoop | by apply capped_finish ].
Qed.

Lemma capped_resume (fr : frame) (st : state) : capped st -> capped (resume fr st).
Proof.
  intros Hc. unfold BulkSender.resume, BulkSender.after_wait.
  pose proof (capped_elapse (site_of (f_k fr)) (f_ms fr) st Hc) as H1.
  set (st1 := elapse _ _ st) in *. clearbody st1.
  destruct (f_k fr).
  - destruct (drop _ contacts); [ by apply capped_finish |].
    by apply capped_proceed, capped_pauseLoop.
  - by apply capped_proceed, capped_countdown.
  - by apply capped_proceed.
Qed.

Lemma capped_handleStart (st : state) : capped st -> capped (handleStart st).
Proof.
  intros Hc. unfold BulkSender.handleStart. destruct (_ || _); [ done |].
  apply capped_forLoop, capped_addLog.
Qed.

Lemma capped_rtc (st st' : state) : capped st -> rtc step st st' -> capped st'.
Proof.
  intros Hc Hr. induction Hr as [st | st st1 st2 Hstep Hr IH]; [ done |].
  apply IH. destruct Hstep as [st fr Hl | st t cs Hl Ht].
  - by apply capped_resume.
  - by apply capped_handleStart.
Qed.

(** X25.  The activity log never holds more than a hundred entries: at
    every state the component reaches from mounting, and whatever log
    it had before, after any call of [addLog]. *)
Theorem log_keeps_hundred (store : stored) (cs : list (Z * click)) (st : state) :
  rtc step (mount contacts store cs) st ->
  (List.length (log st) <= 100)%nat
  /\ forall p s m st0, (List.length (log (addLog p s m st0)) <= 100)%nat.
Proof.
  intros Hr. split; [| intros p s m st0; apply capped_addLog ].
  apply (capped_rtc (mount contacts store cs)); [| done ].
  unfold capped. cbn [mount log List.length]. lia.
Qed.

Lemma in_call_frame (log0 : list LogEntry) (store0 : stored) (lc : locals)
    (st st' : state) :
  reports st' = reports st ->
  in_call log0 store0 lc st -> in_call log0 store0 lc st'.
Proof. unfold in_call. by intros ->. Qed.

Lemma in_call_attempt (log0 : list LogEntry) (store0 : stored) (c : contact)
    (lc : locals) (st : state) :
  in_call log0 store0 lc st ->
  match attempt c lc st with
  | (ctl, lc', st') => in_call log0 store0 lc' st'
  end.
Proof.
  intros (Hlog & Hrep).
  pose proof (attempt_effect contacts messages random_source window_open c lc st) as He.
  destruct (attempt c lc st) as [[ctl lc'] st'].
  destruct He as (Hlc & _ & _ & Hr & _).
  unfold in_call. rewrite Hr.
  by destruct Hlc as [-> | ->].
Qed.

Lemma in_call_loopBody (log0 : list LogEntry) (store0 : stored) (c : contact)
    (lc : locals) (st : state) :
  in_call log0 store0 lc st ->
  match loopBody c lc st with
  | (ctl, lc', st') => in_call log0 store0 lc' st'
  end.
Proof.
  intros Hin.
  pose proof (loopBody_effect contacts messages random_source window_open c lc st) as He.
  pose proof (in_call_attempt log0 store0 c lc st Hin) as Ha.
  destruct (loopBody c lc st) as [[ctl lc'] st'].
  destruct He as [(-> & _ & _ & Hr & _) | (_ & Heq)].
  - by apply (in_call_frame _ _ _ st).
  - by rewrite <- Heq in Ha.
Qed.

Lemma reported_finish (log0 : list LogEntry) (store0 : stored) (lc : locals)
    (st : state) :
  in_call log0 store0 lc st ->
  call_ok contacts log0 store0 (finishSending contacts lc st).
Proof.
  intros (Hlog & Hrep). unfold call_ok.
  destruct (finishSending_frame contacts lc st) as (_ & _ & -> & _).
  exists {| rp_timestamp := clock st; rp_totalContacts := len contacts;
            rp_sent := l_sent lc; rp_failed := l_failed lc;
            rp_log := take 50 (l_log lc) |}.
  cbn [rp_log rp_totalContacts rp_sent rp_failed rp_timestamp].
  subst log0 store0. unfold finishSending.
  destruct (_ =? _)%Z; destruct (reports st) eqn:Hst; cbn; rewrite ?Hst; done.
Qed.

Lemma call_ok_forLoop (log0 : list LogEntry) (store0 : stored) (rest : list contact) :
  forall lc st,
    in_call log0 store0 lc st -> call_ok contacts log0 store0 (forLoop rest lc st).
Proof.
  induction rest as [|c rest IH]; intros lc st Hin; cbn [BulkSender.forLoop].
  - by apply reported_finish.
  - pose proof (in_call_loopBody log0 store0 c lc st Hin) as Hb.
    destruct (loopBody c lc st) as [[ctl lc'] st'].
    destruct ctl; [ done | by apply IH | by apply reported_finish ].
Qed.

Lemma call_ok_proceed (log0 : list LogEntry) (store0 : stored) (ctl : control)
    (lc : locals) (st : state) :
  in_call log0 store0 lc st ->
  call_ok contacts log0 store0 (proceed (ctl, lc, st)).
Proof.
  intros Hin. unfold BulkSender.proceed.
  destruct ctl; [ done | by apply call_ok_forLoop | by apply reported_finish ].
Qed.

Lemma call_ok_after_wait (fr : frame) (st : state) :
  call_ok contacts (l_log (f_locals fr)) (reports st) (after_wait fr st).
Proof.
  assert (H1 : in_call (l_log (f_locals fr)) (reports st) (f_locals fr) st) by done.
  unfold BulkSender.after_wait. cbv zeta. destruct (f_k fr) as [| s |].
  - destruct (drop _ contacts) as [|c rest]; [ by apply reported_finish |].
    pose proof (pauseLoop_effect contacts messages random_source window_open
                  c (f_locals fr) st) as He.
    pose proof (in_call_attempt _ _ c (f_locals fr) st H1) as Ha.
    destruct (pauseLoop c (f_locals fr) st) as [[ctl lc'] st'].
    apply call_ok_proceed.
    destruct He as [(-> & -> & _) | (_ & Heq)]; [ done |].
    by rewrite <- Heq in Ha.
  - pose proof (countdown_frame random_source (s - 1) (f_locals fr) st) as He.
    destruct (countdown random_source (s - 1) (f_locals fr) st) as [[ctl lc'] st'].
    destruct He as (-> & _ & _ & _ & _ & Hr' & _).
    apply call_ok_proceed. by apply (in_call_frame _ _ _ st).
  - by apply call_ok_proceed.
Qed.

Lemma call_ok_handleStart (st : state) :
  (len contacts =? 0)%Z || (Z.of_nat (List.length messages) =? 0)%Z = false ->
  call_ok contacts (log st) (reports st) (handleStart st).
Proof.
  intros Hg. unfold BulkSender.handleStart. rewrite Hg.
  by apply call_ok_forLoop.
Qed.

(** What one input does to the stored reports. *)
Lemma feed_reports (i : input) (w w' : world) :
  feed i w = Some w' ->
  reports (page w') = reports (page w)
  \/ exists r, reports (page w') = push_report r (reports (page w))
               /\ rp_totalContacts r = len contacts
               /\ rp_timestamp r = clock (page w').
Proof.
  assert (Hcall : forall log0 st' others,
            call_ok contacts log0 (reports (page w)) st' ->
            reports (page (park others st')) = reports (page w)
            \/ exists r, reports (page (park others st'))
                         = push_report r (reports (page w))
                         /\ rp_totalContacts r = len contacts
                         /\ rp_timestamp r = clock (page (park others st'))).
  { intros log0 st' others Hok. unfold call_ok in Hok. cbn [park page].
    destruct (loop st') as [fr|].
    - left. by destruct Hok.
    - right. destruct Hok as (r & Hr & _ & Ht & Hc). by exists r. }
  destruct i as [t | t c |]; cbn [feed].
  - destruct (in_time t w); [| done ]. intros [= <-].
    unfold clickStart. destruct (sending _); [ by left |].
    destruct (_ =? 100)%Z; [ by left |].
    destruct ((len contacts =? 0)%Z || (Z.of_nat (List.length messages) =? 0)%Z)
      eqn:Hg.
    + left. unfold BulkSender.handleStart. by rewrite Hg.
    + apply (Hcall (log (set_clock t (page w)))).
      exact (call_ok_handleStart (set_clock t (page w)) Hg).
  - destruct (in_time t w); [| done ]. intros [= <-]. left. cbn [page].
    by destruct (onClick_frame c (set_clock t (page w))) as (_ & _ & -> & _).
  - destruct (earliest (waiting w)) as [[c others]|]; [| done ]. intros [= <-].
    apply (Hcall (l_log (f_locals (c_frame c)))).
    exact (call_ok_after_wait (c_frame c)
             (record (EvDelay (site_of (f_k (c_frame c))) (f_ms (c_frame c)))
                (set_clock (c_due c) (page w)))).
Qed.

(** X26.  A call of [handleStart] stores its report when it ends, and
    only then.  A call that gets past the guard either ends at once or
    is suspended holding the log as it stood when the call began; at
    the end of every wait it either ends or is suspended again,
    holding the same log.  When it ends, it adds one report after
    those stored then, or none if the stored item cannot be read or
    [setItem] throws; the report carries the number of contacts and
    the first fifty entries of the log the call holds: none of the
    entries added since the call began.  So each input to the
    component, whatever calls are under way, leaves the stored reports
    as they are or adds one report after them. *)
Theorem report_of_a_call :
  (forall st,
     (len contacts =? 0)%Z || (Z.of_nat (List.length messages) =? 0)%Z = false ->
     match loop (handleStart st) with
     | Some fr =>
         l_log (f_locals fr) = log st /\ reports (handleStart st) = reports st
     | None =>
         exists r, reports (handleStart st) = push_report r (reports st)
                   /\ rp_log r = take 50 (log st)
                   /\ rp_totalContacts r = len contacts
                   /\ rp_timestamp r = clock (handleStart st)
     end)
  /\ (forall fr st,
        match loop (after_wait fr st) with
        | Some fr' =>
            l_log (f_locals fr') = l_log (f_locals fr)
            /\ reports (after_wait fr st) = reports st
        | None =>
            exists r, reports (after_wait fr st) = push_report r (reports st)
                      /\ rp_log r = take 50 (l_log (f_locals fr))
                      /\ rp_totalContacts r = len contacts
                      /\ rp_timestamp r = clock (after_wait fr st)
        end)
  /\ (forall i w w',
        feed i w = Some w' ->
        reports (page w') = reports (page w)
        \/ exists r, reports (page w') = push_report r (reports (page w))
                     /\ rp_totalContacts r = len contacts
                     /\ rp_timestamp r = clock (page w')).
Proof.
  split; [| split ].
  - intros st Hg. exact (call_ok_handleStart st Hg).
  - intros fr st. exact (call_ok_after_wait fr st).
  - apply feed_reports.
Qed.

End Log.

Lemma log_keeps_hundred_witness :
  rtc (step (batch 3) (greetings (batch 3)) no_random always_open)
      three_idle three_started
  /\ (List.length (log three_started) <= 100)%nat.
Proof.
  assert (Hr : rtc (step (batch 3) (greetings (batch 3)) no_random always_open)
                   three_idle three_started).
  { apply rtc_once. apply step_start; [ reflexivity | simpl; lia ]. }
  split; [ exact Hr |].
  exact (proj1 (log_keeps_hundred (batch 3) (greetings (batch 3)) no_random
                  always_open Absent [] three_started Hr)).
Defined.

Lemma report_of_a_call_witness :
  exists r,
    reports (start 1 always_open one_done) = push_report r (reports one_done)
    /\ rp_log r = take 50 (log one_done).
Proof.
  destruct (report_of_a_call (batch 1) (greetings (batch 1)) no_random always_open)
    as (Hstart & _).
  specialize (Hstart one_done eq_refl).
  change (loop (handleStart (batch 1) (greetings (batch 1)) no_random always_open
                  one_done)) with (@None frame) in Hstart.
  destruct Hstart as (r & Hr & Hlog & _).
  exists r. split; [ exact Hr | exact Hlog ].
Defined.

(** ** BulkSender: a run that is left alone comes to its end *)

Section Liveness.
Variable contacts : list contact.
Variable messages : list preview.
Variable random_source : nat -> random.
Variable window_open : nat -> bool.

Local Abbreviation attempt := (attempt contacts messages random_source window_open).
Local Abbreviation pauseLoop := (pauseLoop contacts messages random_source window_open).
Local Abbreviation loopBody := (loopBody contacts messages random_source window_open).
Local Abbreviation forLoop := (forLoop contacts messages random_source window_open).
Local Abbreviation proceed := (proceed contacts messages random_source window_open).
Local Abbreviation handleStart := (handleStart contacts messages random_source window_open).
Local Abbreviation resume := (resume contacts messages random_source window_open).
Local Abbreviation step := (step contacts messages random_source window_open).
Local Abbreviation run := (run contacts messages random_source window_open).
Local Abbreviation countdown := (countdown random_source).
Local Abbreviation afterCountdown := (afterCountdown random_source).
Local Abbreviation cooldownCheck := (cooldownCheck random_source).
Local Abbreviation progress_of := (progress_of contacts).

Local Abbreviation ends := (ends contacts messages random_source window_open).
Local Abbreviation next_round :=
  (next_round contacts messages random_source window_open).

Lemma ends_now (Q : state -> Prop) (st : state) :
  loop st = None -> Q st -> ends Q st.
Proof. intros Hl HQ. by exists 0%nat. Qed.

Lemma ends_resume (Q : state -> Prop) (st : state) (fr : frame) :
  loop st = Some fr -> ends Q (resume fr st) -> ends Q st.
Proof.
  intros Hl (n & Hn & HQ). exists (S n). cbn [BulkSender.run]. by rewrite Hl.
Qed.

Lemma free_frame (st st' : state) :
  clicks st' = clicks st -> sendingRef st' = sendingRef st ->
  pausedRef st' = pausedRef st -> free st -> free st'.
Proof. unfold free. by intros -> -> ->. Qed.

Lemma elapse_free (w : site) (ms : Z) (st : state) :
  free st ->
  free (elapse w ms st) /\ progress (elapse w ms st) = progress st.
Proof.
  intros (Hc & Hs & Hp). unfold elapse, free. rewrite Hc. cbn. by rewrite Hs, Hp.
Qed.

Lemma ends_afterCountdown (Q : state -> Prop) (lc : locals) (st : state) :
  free st -> progress st = progress_of lc -> next_round Q lc ->
  ends Q (proceed (afterCountdown lc st)).
Proof.
  intros Hfree Hp Hnext. assert (Hfree' := Hfree). destruct Hfree' as (Hc & Hs & Hpa).
  unfold BulkSender.afterCountdown, BulkSender.cooldownCheck. rewrite Hs. cbn [negb].
  set (st1 := if cooldownDue (l_sent lc) 20 then (mathRandom random_source st).2 else st).
  assert (H1 : free st1 /\ progress st1 = progress_of lc).
  { subst st1. destruct (cooldownDue _ _); [| done ]. by split. }
  destruct H1 as [Hf1 Hp1]. clearbody st1.
  destruct (0 <? _)%Z.
  - cbn [BulkSender.proceed].
    apply (ends_resume _ _ {| f_locals := lc; f_k := KCooldown;
              f_ms := getCooldownDelay (random_source (randoms st)) (l_sent lc) 20 |});
      [ done |].
    unfold BulkSender.resume, BulkSender.after_wait. cbn [f_k f_locals f_ms site_of].
    match goal with
    | |- context [elapse ?w ?ms ?s] =>
        destruct (elapse_free w ms s) as [Hf2 Hp2]; [ by apply (free_frame st1) |]
    end.
    cbn [BulkSender.proceed]. apply Hnext; [ done |]. by rewrite Hp2.
  - cbn [BulkSender.proceed]. by apply Hnext.
Qed.

Lemma ends_countdown (Q : state -> Prop) (lc : locals) (k : nat) :
  forall s st,
    Z.to_nat s = k ->
    free st -> progress st = progress_of lc -> next_round Q lc ->
    ends Q (proceed (countdown s lc st)).
Proof.
  induction k as [|k IH]; intros s st Hk Hfree Hp Hnext; unfold BulkSender.countdown.
  - destruct (Z.ltb_spec 0 s); [ lia |]. by apply ends_afterCountdown.
  - destruct (Z.ltb_spec 0 s); [| lia ].
    destruct Hfree as (Hc & Hs & Hpa). rewrite Hs. cbn [negb BulkSender.proceed].
    apply (ends_resume _ _ {| f_locals := lc; f_k := KCountdown s; f_ms := 1000 |});
      [ done |].
    unfold BulkSender.resume, BulkSender.after_wait. cbn [f_k f_locals f_ms site_of].
    match goal with
    | |- context [elapse ?w ?ms ?s] =>
        destruct (elapse_free w ms s) as [Hf2 Hp2]; [ done |]
    end.
    apply IH; [ lia | done | by rewrite Hp2 | done ].
Qed.
(** With nothing holding it back, the attempt ends in the wait that
    follows it or, at the last contact, in the end of the loop body;
    either way with one more contact counted. *)
Lemma attempt_free (c : contact) (lc : locals) (st : state) :
  free st ->
  exists lc1 st1,
    (lc1 = inc_sent lc \/ lc1 = inc_failed lc)
    /\ free st1 /\ progress st1 = progress_of lc1
    /\ ((messages !! l_i lc <> None /\ (Z.of_nat (l_i lc) <? len contacts - 1)%Z = true
         /\ exists s, attempt c lc st = countdown s lc1 st1)
        \/ ((messages !! l_i lc = None
             \/ (Z.of_nat (l_i lc) <? len contacts - 1)%Z = false)
            /\ attempt c lc st = (CNext, lc1, st1))).
Proof.
  intros Hfree. unfold BulkSender.attempt.
  destruct (messages !! l_i lc) as [message|].
  - unfold openWhatsAppWeb.
    set (st0 := addLog _ StSending _ _).
    assert (H0 : free st0) by (by apply (free_frame st)).
    clearbody st0.
    set (r := if negb (truthy (contact_phone c)) then _ else _).
    assert (Hr : free r.2 /\ progress r.2 = progress st0).
    { subst r. destruct (negb _); cbn [snd]; split; try done;
        by apply (free_frame st0). }
    destruct r as [o st1]. cbn [snd] in Hr. destruct Hr as [Hf1 Hp1].
    set (lc1 := if o then inc_sent lc else inc_failed lc).
    set (st2 := setProgress contacts lc1 _).
    assert (H2 : free st2 /\ progress st2 = progress_of lc1).
    { subst st2. split; [| done ]. destruct o; by apply (free_frame st1). }
    destruct H2 as [Hf2 Hp2].
    assert (Hlc : lc1 = inc_sent lc \/ lc1 = inc_failed lc)
      by (subst lc1; destruct o; auto).
    clearbody st2 lc1.
    destruct (Z.of_nat (l_i lc) <? len contacts - 1)%Z eqn:Hlast.
    + exists lc1, (set_randoms (S (randoms st2)) st2).
      split; [ done |]. split; [ by apply (free_frame st2) |]. split; [ done |].
      left. split; [ done |]. split; [ done |]. by eexists.
    + exists lc1, st2. do 3 (split; [ done |]). right. split; [ by right | done ].
  - exists (inc_failed lc).
    eexists. split; [ by right |]. split; [| split; [| right; split; [ by left | reflexivity ] ] ].
    + by apply (free_frame st).
    + done.
Qed.

Lemma drop_lookup_cons {A} (l : list A) (i : nat) (x : A) (rest : list A) :
  drop i l = x :: rest -> rest = drop (S i) l /\ (i < List.length l)%nat.
Proof.
  intros Hd. split.
  - change (S i) with (1 + i)%nat. rewrite Nat.add_comm, <- drop_drop, Hd. done.
  - destruct (Nat.lt_ge_cases i (List.length l)) as [|Hge]; [ done |].
    by rewrite drop_ge in Hd.
Qed.

(** The loop, entered before the attempt of index [l_i] with nothing
    holding it back, runs to its end through all the contacts left. *)
Lemma ends_forLoop (m : nat) :
  forall lc st,
    (List.length contacts - l_i lc = m)%nat ->
    (l_i lc <= List.length contacts)%nat ->
    free st -> progress st = progress_of lc ->
    (Z.of_nat (l_i lc) = l_sent lc + l_failed lc)%Z ->
    ends (all_counted contacts) (forLoop (drop (l_i lc) contacts) lc st).
Proof.
  induction m as [|m IH]; intros lc st Hm Hle Hfree Hp Hi.
  - rewrite drop_ge by lia. cbn [BulkSender.forLoop].
    destruct (finishSending_frame contacts lc st) as (Hpf & _ & Hl & _).
    apply ends_now; [ done |]. unfold all_counted. rewrite Hpf, Hp, Hl.
    unfold DispatchInv.progress_of, len. cbn. repeat split; lia.
  - destruct (drop (l_i lc) contacts) as [|c rest] eqn:Hd.
    { apply (f_equal (@List.length _)) in Hd. rewrite length_drop in Hd.
      simpl in Hd. lia. }
    destruct (drop_lookup_cons _ _ _ _ Hd) as [-> Hlt].
    cbn [BulkSender.forLoop]. unfold BulkSender.loopBody, BulkSender.pauseLoop.
    assert (Hfree' := Hfree). destruct Hfree' as (_ & -> & ->). cbn [negb].
    destruct (attempt_free c lc st Hfree) as (lc1 & st1 & Hlc & Hf1 & Hp1 & Hcase).
    assert (Hi1 : l_i lc1 = l_i lc) by (by destruct Hlc as [-> | ->]).
    assert (Hsum : (Z.of_nat (l_i lc1) + 1 = l_sent lc1 + l_failed lc1)%Z).
    { destruct Hlc as [-> | ->]; cbn; lia. }
    assert (Hnext : next_round (all_counted contacts) lc1).
    { intros st2 Hf2 Hp2. rewrite Hi1.
      replace (S (l_i lc)) with (l_i (inc_i lc1)) by (cbn; by rewrite Hi1).
      apply IH; cbn [inc_i l_i l_sent l_failed]; rewrite ?Hi1; try done; lia. }
    destruct Hcase as [(_ & _ & s & ->) | (_ & ->)].
    + pose proof (ends_countdown _ lc1 (Z.to_nat s) s st1 eq_refl Hf1 Hp1 Hnext) as He.
      pose proof (countdown_frame random_source s lc1 st1) as Hfr.
      destruct (countdown s lc1 st1) as [[ctl lc'] st'].
      destruct Hfr as (-> & _).
      unfold BulkSender.proceed in He. rewrite Hi1 in He. exact He.
    + specialize (Hnext st1 Hf1 Hp1). by rewrite Hi1 in Hnext.
Qed.

Lemma run_rtc (n : nat) : forall st, rtc step st (run n st).
Proof.
  induction n as [|n IH]; intros st; cbn [BulkSender.run]; [ done |].
  destruct (loop st) as [fr|] eqn:Hl; [| done ].
  eapply rtc_l; [ by apply step_resume | apply IH ].
Qed.

Lemma ends_from_mount (store : stored) :
  contacts <> [] -> messages <> [] ->
  ends (all_counted contacts) (handleStart (mount contacts store [])).
Proof.
  intros Hc Hm. unfold BulkSender.handleStart.
  assert (Hg : (len contacts =? 0)%Z || (Z.of_nat (List.length messages) =? 0)%Z = false).
  { apply orb_false_iff. split; apply Z.eqb_neq; unfold len.
    - destruct contacts; [ done | simpl; lia ].
    - destruct messages; [ done | simpl; lia ]. }
  rewrite Hg. cbv zeta.
  set (st0 := addLog _ _ _ _).
  set (lc0 := {| l_sent := 0; l_failed := 0; l_i := 0; l_log := [] |}).
  change (ends (all_counted contacts) (forLoop (drop (l_i lc0) contacts) lc0 st0)).
  apply (ends_forLoop (List.length contacts)); cbn; try done; try lia.
  unfold DispatchInv.progress_of. cbn. f_equal. lia.
Qed.

(** X28.  Started after mounting with contacts and messages, and with
    no click to come, [handleStart] comes to its end after finitely many
    timers: every contact was attempted once, in the order of the list,
    each is counted as sent or as failed, none is pending, and the
    component is [Completed]. *)
Theorem undisturbed_run_completes (store : stored) :
  contacts <> [] -> messages <> [] ->
  exists n,
    Completed contacts (run n (handleStart (mount contacts store [])))
    /\ pending (progress (run n (handleStart (mount contacts store [])))) = 0%Z
    /\ attempts (trace (run n (handleStart (mount contacts store []))))
       = seq 0 (List.length contacts).
Proof.
  intros Hc Hm. destruct (ends_from_mount store Hc Hm) as (n & Hl & _ & Hsum & Hpen & Htot).
  exists n. split; [| split; [ done |] ].
  - unfold Completed. rewrite Htot. done.
  - assert (Hr : rtc step (mount contacts store [])
                   (run n (handleStart (mount contacts store [])))).
    { eapply rtc_l; [| apply run_rtc ].
      apply (step_start _ _ _ _ (mount contacts store []) 0%Z []); [ done | cbn; lia ]. }
    pose proof (inv_start contacts True (mount contacts store []) eq_refl) as Hinv.
    cbn in Hinv. specialize (Hinv ltac:(lia) ltac:(lia) ltac:(intros _; lia)).
    pose proof (rtc_inv contacts messages random_source window_open True _ _ _ _
                  Hinv Hr) as [(_ & _ & _ & _ & Hatt) _].
    rewrite Hatt, Hsum. cbn. unfold len. f_equal. lia.
Qed.

End Liveness.

Lemma undisturbed_run_completes_witness :
  exists n,
    Completed (batch 3) (go 3 always_open n (start 3 always_open (mount (batch 3) Absent [])))
    /\ pending (progress (go 3 always_open n
                            (start 3 always_open (mount (batch 3) Absent [])))) = 0%Z.
Proof.
  destruct (undisturbed_run_completes (batch 3) (greetings (batch 3)) no_random
              always_open Absent) as (n & H1 & H2 & _); [ done | done |].
  exists n. split; [ exact H1 | exact H2 ].
Defined.

(** ** BulkSender: a paused loop *)

Section Pause.
Variable contacts : list contact.
Variable messages : list preview.
Variable random_source : nat -> random.
Variable window_open : nat -> bool.

Local Abbreviation resume := (resume contacts messages random_source window_open).
Local Abbreviation run := (run contacts messages random_source window_open).

Lemma deliver_none (d : Z) (cs : list (Z * click)) (st : state) :
  due d cs = [] -> deliver d cs st = set_clicks cs st.
Proof.
  destruct cs as [|[t c] cs]; [ done |]. cbn [due deliver].
  by destruct (t <=? d)%Z.
Qed.

Lemma due_earlier (d d' : Z) (cs : list (Z * click)) :
  (d <= d')%Z -> due d' cs = [] -> due d cs = [].
Proof.
  intros Hd. destruct cs as [|[t c] cs]; [ done |]. cbn [due].
  destruct (Z.leb_spec t d'); [ done |]. intros _.
  destruct (Z.leb_spec t d); [ lia | done ].
Qed.

Lemma replicate_shift {A} (n : nat) (x : A) (l : list A) :
  (replicate n x ++ x :: l = replicate (S n) x ++ l)%list.
Proof. induction n as [|n IH]; [ done |]. cbn. by rewrite IH. Qed.

(** One poll of a paused loop: half a second passes and the call is
    suspended again where it was. *)
Lemma resume_paused (st : state) (fr : frame) :
  f_k fr = KPause -> f_ms fr = 500%Z ->
  (l_i (f_locals fr) < List.length contacts)%nat ->
  pausedRef st = true -> sendingRef st = true ->
  due (clock st + 500) (clicks st) = [] ->
  loop (resume fr st) = Some fr
  /\ pausedRef (resume fr st) = true /\ sendingRef (resume fr st) = true
  /\ clicks (resume fr st) = clicks st
  /\ clock (resume fr st) = (clock st + 500)%Z
  /\ progress (resume fr st) = progress st
  /\ log (resume fr st) = log st
  /\ reports (resume fr st) = reports st
  /\ trace (resume fr st) = EvDelay PausePoll 500 :: trace st.
Proof.
  intros Hk Hms Hi Hp Hs Hdue. unfold BulkSender.resume, BulkSender.after_wait. rewrite Hk, Hms.
  cbn [site_of]. unfold elapse. rewrite deliver_none by done.
  destruct (drop (l_i (f_locals fr)) contacts) as [|c rest] eqn:Hd.
  { apply (f_equal (@List.length _)) in Hd. rewrite length_drop in Hd.
    simpl in Hd. lia. }
  unfold pauseLoop. cbn. rewrite Hp, Hs. cbn.
  destruct fr as [lc k ms]. cbn in Hk, Hms. by subst.
Qed.

Lemma run_paused (n : nat) :
  forall (st : state) (fr : frame),
    loop st = Some fr ->
    f_k fr = KPause -> f_ms fr = 500%Z ->
    (l_i (f_locals fr) < List.length contacts)%nat ->
    pausedRef st = true -> sendingRef st = true ->
    due (clock st + 500 * Z.of_nat n) (clicks st) = [] ->
    loop (run n st) = Some fr
    /\ clock (run n st) = (clock st + 500 * Z.of_nat n)%Z
    /\ progress (run n st) = progress st
    /\ log (run n st) = log st
    /\ reports (run n st) = reports st
    /\ trace (run n st) = (replicate n (EvDelay PausePoll 500) ++ trace st)%list.
Proof.
  induction n as [|n IH]; intros st fr Hl Hk Hms Hi Hp Hs Hdue.
  - cbn [BulkSender.run replicate]. repeat split; try done. lia.
  - cbn [BulkSender.run]. rewrite Hl.
    destruct (resume_paused st fr Hk Hms Hi Hp Hs) as
      (Hl1 & Hp1 & Hs1 & Hc1 & Hk1 & Hpr1 & Hlog1 & Hr1 & Ht1).
    { apply (due_earlier _ (clock st + 500 * Z.of_nat (S n))); [ lia | done ]. }
    destruct (IH (resume fr st) fr Hl1 Hk Hms Hi Hp1 Hs1) as
      (Hl2 & Hk2 & Hpr2 & Hlog2 & Hr2 & Ht2).
    { rewrite Hc1, Hk1.
      replace (clock st + 500 + 500 * Z.of_nat n)%Z
        with (clock st + 500 * Z.of_nat (S n))%Z by lia. done. }
    rewrite Hl2, Hk2, Hpr2, Hlog2, Hr2, Ht2, Hk1, Hpr1, Hlog1, Hr1, Ht1.
    repeat split; try done; [ lia |].
    apply replicate_shift.
Qed.

(** X27.  While the loop is paused and no click arrives, it polls
    every half second and does nothing else: after any number of
    polls the call is suspended where it was, the clock has moved by
    the polls alone, and neither the counters, the log, the stored
    reports nor the attempts have changed. *)
Theorem pause_holds_the_queue (st : state) (fr : frame) (n : nat) :
  loop st = Some fr ->
  f_k fr = KPause -> f_ms fr = 500%Z ->
  (l_i (f_locals fr) < List.length contacts)%nat ->
  pausedRef st = true -> sendingRef st = true ->
  due (clock st + 500 * Z.of_nat n) (clicks st) = [] ->
  loop (run n st) = Some fr
  /\ clock (run n st) = (clock st + 500 * Z.of_nat n)%Z
  /\ progress (run n st) = progress st
  /\ log (run n st) = log st
  /\ reports (run n st) = reports st
  /\ attempts (trace (run n st)) = attempts (trace st)
  /\ transport_calls (trace (run n st)) = transport_calls (trace st).
Proof.
  intros Hl Hk Hms Hi Hp Hs Hdue.
  destruct (run_paused n st fr Hl Hk Hms Hi Hp Hs Hdue) as
    (H1 & H2 & H3 & H4 & H5 & Ht).
  do 5 (split; [ done |]). rewrite Ht. clear.
  induction n as [|n [IH1 IH2]]; [ done |].
  cbn [replicate app]. rewrite attempts_cons. cbn [attempt_index].
  rewrite app_nil_r. split; [ done |].
  unfold transport_calls in *. cbn [List.filter is_open]. done.
Qed.

End Pause.

Lemma pause_holds_the_queue_witness :
  loop three_paused = Some three_paused_frame
  /\ loop (go 3 always_open 7 three_paused) = Some three_paused_frame
  /\ progress (go 3 always_open 7 three_paused) = progress three_paused.
Proof.
  split; [ vm_compute; reflexivity |].
  destruct (pause_holds_the_queue (batch 3) (greetings (batch 3)) no_random
              always_open three_paused three_paused_frame 7)
    as (H1 & _ & H3 & _);
    [ vm_compute; reflexivity | reflexivity | reflexivity | simpl; lia
    | vm_compute; reflexivity | vm_compute; reflexivity | vm_compute; reflexivity |].
  split; [ exact H1 | exact H3 ].
Defined.

(** ** fileParser: [normalizeHeaders] *)

Lemma lower_char_idem (c : ascii) : lower_char (lower_char c) = lower_char c.
Proof. destruct c as [[] [] [] [] [] [] [] []]; reflexivity. Qed.

Lemma all_trimStart (p : ascii -> bool) (s : string) :
  all p s = true -> all p (trimStart s) = true.
Proof.
  induction s as [|c s IH]; [ done |]. cbn [trimStart all].
  intros [Hc Hs]%andb_true_iff. destruct (is_space c); [ by apply IH |].
  cbn [all]. by rewrite Hc, Hs.
Qed.

Lemma all_trimEnd (p : ascii -> bool) (s : string) :
  all p s = true -> all p (trimEnd s) = true.
Proof.
  induction s as [|c s IH]; [ done |]. cbn [trimEnd all].
  intros [Hc Hs]%andb_true_iff. specialize (IH Hs).
  destruct (trimEnd s) as [|d t].
  - destruct (is_space c); [ done |]. cbn [all]. by rewrite Hc.
  - cbn [all] in *. by rewrite Hc, IH.
Qed.

Lemma trimEnd_no_space (s : string) :
  all (fun c => negb (is_space c)) s = true -> trimEnd s = s.
Proof.
  induction s as [|c s IH]; [ done |]. cbn [trimEnd all].
  intros [Hc Hs]%andb_true_iff. rewrite (IH Hs).
  apply negb_true_iff in Hc. rewrite Hc. by destruct s.
Qed.

Lemma trim_no_space (s : string) :
  all (fun c => negb (is_space c)) s = true -> trim s = s.
Proof.
  intros Hs. unfold trim.
  assert (Hstart : trimStart s = s).
  { destruct s as [|c s]; [ done |]. cbn [all trimStart] in *.
    apply andb_true_iff in Hs as [Hc _]. apply negb_true_iff in Hc. by rewrite Hc. }
  rewrite Hstart. by apply trimEnd_no_space.
Qed.

Lemma underscore_no_space (s : string) :
  all (fun c => negb (is_space c)) s = true ->
  forall in_run, underscore_spaces in_run s = s.
Proof.
  induction s as [|c s IH]; [ done |]. cbn [underscore_spaces all].
  intros [Hc Hs]%andb_true_iff in_run. apply negb_true_iff in Hc.
  by rewrite Hc, (IH Hs).
Qed.

Lemma underscore_settled (s : string) :
  all (fun c => Ascii.eqb (lower_char c) c) s = true ->
  forall in_run, all settled (underscore_spaces in_run s) = true.
Proof.
  induction s as [|c s IH]; [ done |]. cbn [underscore_spaces all].
  intros [Hc Hs]%andb_true_iff in_run.
  destruct (is_space c) eqn:Hsp.
  - destruct in_run; [ by apply IH |]. cbn [all]. by rewrite IH.
  - cbn [all]. unfold settled at 1. by rewrite Hsp, Hc, IH.
Qed.

Lemma toLowerCase_lowered (s : string) :
  all (fun c => Ascii.eqb (lower_char c) c) (toLowerCase s) = true.
Proof.
  induction s as [|c s IH]; [ done |]. cbn [toLowerCase all].
  by rewrite lower_char_idem, Ascii.eqb_refl, IH.
Qed.

Lemma toLowerCase_settled (s : string) :
  all settled s = true -> toLowerCase s = s.
Proof.
  induction s as [|c s IH]; [ done |]. cbn [toLowerCase all].
  intros [Hc Hs]%andb_true_iff. unfold settled in Hc.
  apply andb_true_iff in Hc as [_ Hc]. apply Ascii.eqb_eq in Hc.
  by rewrite Hc, (IH Hs).
Qed.

Lemma normalize_settled (header : string) :
  all settled (underscore_spaces false (trim (toLowerCase header))) = true.
Proof.
  apply underscore_settled. unfold trim.
  apply all_trimEnd, all_trimStart, toLowerCase_lowered.
Qed.

Lemma normalize_fixed (s : string) :
  all settled s = true -> underscore_spaces false (trim (toLowerCase s)) = s.
Proof.
  intros Hs.
  assert (Hns : all (fun c => negb (is_space c)) s = true).
  { apply (all_impl settled); [| done ].
    intros c Hc. unfold settled in Hc. by apply andb_true_iff in Hc as [? _]. }
  rewrite (toLowerCase_settled s Hs), (trim_no_space s Hns).
  by apply underscore_no_space.
Qed.

(** X24.  [normalizeHeaders] yields as many headers as it is given,
    each without white space and without a character that
    lower-casing would change; normalized headers are left as they
    are, so normalizing twice is the same as normalizing once. *)
Theorem normalizeHeaders_idempotent (headers : list string) :
  List.length (normalizeHeaders headers) = List.length headers
  /\ Forall (fun h => all settled h = true) (normalizeHeaders headers)
  /\ normalizeHeaders (normalizeHeaders headers) = normalizeHeaders headers.
Proof.
  unfold normalizeHeaders. split; [ apply length_map |]. split.
  - apply Forall_forall. intros h Hh.
    apply list_elem_of_In, in_map_iff in Hh as (h0 & <- & _).
    apply normalize_settled.
  - rewrite map_map. apply map_ext. intros h.
    apply normalize_fixed, normalize_settled.
Qed.

(** ** BulkSender: Stop in any wait *)

Section Stop.
Variable contacts : list contact.
Variable messages : list preview.
Variable random_source : nat -> random.
Variable window_open : nat -> bool.

Local Abbreviation loopBody := (loopBody contacts messages random_source window_open).
Local Abbreviation pauseLoop := (pauseLoop contacts messages random_source window_open).
Local Abbreviation forLoop := (forLoop contacts messages random_source window_open).
Local Abbreviation proceed := (proceed contacts messages random_source window_open).
Local Abbreviation after_wait := (after_wait contacts messages random_source window_open).
Local Abbreviation feed := (feed contacts messages random_source window_open).
Local Abbreviation feeds := (feeds contacts messages random_source window_open).

(** What the end of a call leaves of a state [st1]. *)
Lemma finish_keeps (lc : locals) (st1 : state) (tr : list event) (c : Z) :
  trace st1 = tr -> clock st1 = c ->
  loop (finishSending contacts lc st1) = None
  /\ trace (finishSending contacts lc st1) = tr
  /\ sendingRef (finishSending contacts lc st1) = false
  /\ sending (finishSending contacts lc st1) = false
  /\ clock (finishSending contacts lc st1) = c.
Proof.
  intros <- <-.
  destruct (finishSending_frame contacts lc st1) as (_ & Ht & Hl & Hs & _).
  repeat split; try done;
    unfold finishSending; by destruct (_ =? _)%Z; destruct (reports st1).
Qed.

Lemma forLoop_stopped (rest : list contact) (lc : locals) (st1 : state) :
  sendingRef st1 = false ->
  loop (forLoop rest lc st1) = None
  /\ trace (forLoop rest lc st1) = trace st1
  /\ sendingRef (forLoop rest lc st1) = false
  /\ sending (forLoop rest lc st1) = false
  /\ clock (forLoop rest lc st1) = clock st1.
Proof.
  intros Hs. destruct rest as [|c rest]; cbn [BulkSender.forLoop].
  - by apply finish_keeps.
  - unfold BulkSender.loopBody. rewrite Hs. cbn [negb]. by apply finish_keeps.
Qed.

(** A call whose wait is over while [sendingRef] is false ends there. *)
Lemma after_wait_stopped (fr : frame) (st1 : state) :
  sendingRef st1 = false ->
  loop (after_wait fr st1) = None
  /\ trace (after_wait fr st1) = trace st1
  /\ sendingRef (after_wait fr st1) = false
  /\ sending (after_wait fr st1) = false
  /\ clock (after_wait fr st1) = clock st1.
Proof.
  intros Hstop. unfold BulkSender.after_wait. cbv zeta.
  destruct (f_k fr) as [| s |].
  - destruct (drop _ contacts) as [|c rest]; [ by apply finish_keeps |].
    unfold BulkSender.pauseLoop. rewrite Hstop. cbn [negb].
    destruct (pausedRef st1); cbn [BulkSender.proceed]; by apply finish_keeps.
  - pose proof (countdown_frame random_source (s - 1) (f_locals fr) st1) as He.
    destruct (countdown random_source (s - 1) (f_locals fr) st1) as [[ctl lc'] st'].
    destruct He as (_ & _ & _ & _ & _ & _ & _ & _ & Hb).
    destruct (Hb Hstop) as [-> ->]. cbn [BulkSender.proceed]. by apply finish_keeps.
  - cbn [BulkSender.proceed]. by apply forLoop_stopped.
Qed.

Lemma earliest_length (cs : list call) (c : call) (others : list call) :
  earliest cs = Some (c, others) -> List.length cs = S (List.length others).
Proof.
  revert c others. induction cs as [|c0 cs IH]; intros c others; cbn [earliest];
    [ done |].
  destruct (earliest cs) as [[c1 rest]|] eqn:He.
  - specialize (IH c1 rest eq_refl). cbn [List.length].
    destruct (_ <=? _)%Z; intros [= <- <-]; cbn [List.length]; lia.
  - destruct cs; [| by cbn in He; destruct (earliest cs) as [[? ?]|];
                     [ destruct (_ <=? _)%Z |] ].
    by intros [= <- <-].
Qed.

Lemma stop_click (t : Z) (w w' : world) :
  sending (page w) = true ->
  feed (Click t ClickStop) w = Some w' ->
  stopped w' /\ waiting w' = waiting w /\ trace (page w') = trace (page w).
Proof.
  intros Hs. cbn [BulkSender.feed]. destruct (in_time t w); [| done ].
  intros [= <-]. unfold stopped, onClick. cbn [page waiting sending set_clock].
  by rewrite Hs.
Qed.

Lemma stopped_click (t : Z) (c : click) (w w' : world) :
  stopped w ->
  feed (Click t c) w = Some w' ->
  stopped w' /\ waiting w' = waiting w /\ trace (page w') = trace (page w).
Proof.
  intros [Hs Hr]. cbn [BulkSender.feed]. destruct (in_time t w); [| done ].
  intros [= <-]. unfold stopped, onClick. cbn [page waiting sending set_clock].
  by rewrite Hs.
Qed.

Lemma stopped_timer (w w' : world) :
  stopped w ->
  feed Timer w = Some w' ->
  exists c,
    earliest (waiting w) = Some (c, waiting w')
    /\ stopped w'
    /\ clock (page w') = c_due c
    /\ attempts (trace (page w')) = attempts (trace (page w))
    /\ transport_calls (trace (page w')) = transport_calls (trace (page w)).
Proof.
  intros [Hs Hr]. cbn [BulkSender.feed].
  destruct (earliest (waiting w)) as [[c others]|]; [| done ]. intros [= <-].
  exists c.
  set (st1 := record _ (set_clock (c_due c) (page w))).
  assert (Hr1 : sendingRef st1 = false) by done.
  destruct (after_wait_stopped (c_frame c) st1 Hr1) as (Hl & Ht & Hr' & Hs' & Hc).
  unfold park, stopped. rewrite Hl. cbn [page waiting].
  change (sending (set_loop None ?s)) with (sending s).
  change (sendingRef (set_loop None ?s)) with (sendingRef s).
  change (clock (set_loop None ?s)) with (clock s).
  change (trace (set_loop None ?s)) with (trace s).
  assert (Ht1 : trace st1
                = EvDelay (site_of (f_k (c_frame c))) (f_ms (c_frame c))
                    :: trace (page w)) by done.
  rewrite Ht, Hs', Hr', Hc, Ht1, attempts_cons. cbn [attempt_index].
  by rewrite app_nil_r.
Qed.

(** With no click of Start among them, inputs to a stopped component
    make no attempt. *)
Lemma stopped_feeds (inputs : list input) :
  forall w w',
    stopped w ->
    (forall t, Start t ∉ inputs) ->
    feeds inputs w = Some w' ->
    stopped w'
    /\ (List.length (waiting w') <= List.length (waiting w))%nat
    /\ attempts (trace (page w')) = attempts (trace (page w))
    /\ transport_calls (trace (page w')) = transport_calls (trace (page w)).
Proof.
  induction inputs as [|i inputs IH]; intros w w' Hw Hno; cbn [BulkSender.feeds].
  - by intros [= <-].
  - destruct (BulkSender.feed _ _ _ _ i w) as [w1|] eqn:Hf; [| done ]. intros Hrest.
    assert (H1 : stopped w1
                 /\ (List.length (waiting w1) <= List.length (waiting w))%nat
                 /\ attempts (trace (page w1)) = attempts (trace (page w))
                 /\ transport_calls (trace (page w1))
                    = transport_calls (trace (page w))).
    { destruct i as [t | t c |].
      - exfalso. apply (Hno t). by left.
      - destruct (stopped_click t c w w1 Hw Hf) as (? & -> & ->). done.
      - destruct (stopped_timer w w1 Hw Hf) as (c & He & ? & _ & ? & ?).
        apply earliest_length in He. split; [ done |]. split; [ lia | done ]. }
    destruct H1 as (Hw1 & Hlen & Ha & Ht).
    destruct (IH w1 w' Hw1) as (? & ? & -> & ->); [| done |].
    + intros t Hin. apply (Hno t). by right.
    + split; [ done |]. split; [ lia | done ].
Qed.

(** X30.  Stop, clicked while sending, turns [sending] and
    [sendingRef] off and touches no call: each call that is waiting
    goes on waiting.  From then until Start is clicked again, Pause
    and Stop are not shown and a click does nothing, and each timer
    that fires ends the call that set it, at the end of that wait and
    not before, be it the pause poll, the countdown or the cooldown:
    the call is no longer waiting, and it has made no attempt and no
    transport call.  So whatever inputs follow Stop, with no click of
    Start among them, no attempt and no transport call is made. *)
Theorem stop_ends_the_call :
  (forall t w w',
     sending (page w) = true ->
     feed (Click t ClickStop) w = Some w' ->
     stopped w' /\ waiting w' = waiting w /\ trace (page w') = trace (page w))
  /\ (forall t c w w',
        stopped w ->
        feed (Click t c) w = Some w' ->
        stopped w' /\ waiting w' = waiting w /\ trace (page w') = trace (page w))
  /\ (forall w w',
        stopped w ->
        feed Timer w = Some w' ->
        exists c,
          earliest (waiting w) = Some (c, waiting w')
          /\ stopped w'
          /\ clock (page w') = c_due c
          /\ attempts (trace (page w')) = attempts (trace (page w))
          /\ transport_calls (trace (page w')) = transport_calls (trace (page w)))
  /\ (forall inputs w w',
        stopped w ->
        (forall t, Start t ∉ inputs) ->
        feeds inputs w = Some w' ->
        stopped w'
        /\ (List.length (waiting w') <= List.length (waiting w))%nat
        /\ attempts (trace (page w')) = attempts (trace (page w))
        /\ transport_calls (trace (page w')) = transport_calls (trace (page w))).
Proof.
  split; [ exact stop_click |].
  split; [ exact stopped_click |].
  split; [ exact stopped_timer | exact stopped_feeds ].
Qed.

End Stop.

Lemma stop_ends_the_call_witness :
  exists w w',
    play 3 always_open [Start 0; Click 500 ClickStop] = Some w
    /\ waiting w = [stopped_call]
    /\ feed (batch 3) (greetings (batch 3)) no_random always_open Timer w = Some w'
    /\ waiting w' = []
    /\ attempts (trace (page w')) = [0%nat].
Proof.
  destruct (play 3 always_open [Start 0; Click 500 ClickStop]) as [w|] eqn:Hw;
    [| by vm_compute in Hw ].
  destruct (feed (batch 3) (greetings (batch 3)) no_random always_open Timer w)
    as [w'|] eqn:Hw';
    [| by vm_compute in Hw; injection Hw as <-; vm_compute in Hw' ].
  exists w, w'. split; [ done |].
  assert (Hwait : waiting w = [stopped_call])
    by (vm_compute in Hw; injection Hw as <-; vm_compute; reflexivity).
  split; [ exact Hwait |]. split; [ done |].
  destruct (stop_ends_the_call (batch 3) (greetings (batch 3)) no_random always_open)
    as (_ & _ & Htimer & _).
  destruct (Htimer w w') as (c & He & _ & _ & Ha & _);
    [ vm_compute in Hw; injection Hw as <-; vm_compute; by split | exact Hw' |].
  rewrite Hwait in He. cbn in He. injection He as <- <-.
  split; [ done |]. rewrite Ha.
  vm_compute in Hw. injection Hw as <-. vm_compute. reflexivity.
Defined.
